(** * Control-flow structuring back-end of fcd (x86Emulator)

    A shallow embedding of [program_output.cpp] and [ast_grapher.cpp]:
    the region predicate, the AST grapher, the reaching-conditions
    walk, the sum-of-products simplifier, the recursive AST simplifier
    and the pass that drives them, followed by the properties
    established about them.

    Pointers are addresses ([positive]) or positions in a container
    that only grows; the null pointer is [None]. Sets and maps are
    stdpp's [gset] and [gmap]. Code that can crash or that recurses
    over a graph returns an [Outcome]. What LLVM supplies (dominators,
    post-dominators, post-order, the enumeration order of an
    [unordered_set]) is a parameter. *)

From stdpp Require Import gmap list.

Set Warnings "-clear-no-such-hyp,-register-all".

(** ** The IR consumed from LLVM *)

(** [llvm::BasicBlock*] and [llvm::Value*] are addresses. *)
Abbreviation BasicBlockPtr := positive (only parsing).
Abbreviation ValuePtr := positive (only parsing).

(** The instruction kinds the back-end tells apart: [BranchInst]
    (conditional or not), [SwitchInst], any other terminator ([ret],
    [unreachable], ...) and every non-terminator instruction. *)
Inductive Opcode : Type :=
| Br (dest : BasicBlockPtr)
| CondBr (condition : ValuePtr) (ifTrue ifFalse : BasicBlockPtr)
| Switch (condition : ValuePtr) (defaultDest : BasicBlockPtr)
         (cases : list BasicBlockPtr)
| OtherTerminator
| Plain.

(** An instruction is an [llvm::Value]: [instValue] is its address. *)
Record Instruction : Type := mkInstruction {
  instValue : ValuePtr;
  opcode : Opcode
}.

Record BasicBlock : Type := mkBasicBlock {
  instructions : list Instruction
}.

(** The basic blocks of the module, by address. *)
Abbreviation IRMemory := (gmap positive BasicBlock) (only parsing).

Definition isTerminator (i : Instruction) : bool :=
  match opcode i with
  | Plain => false
  | _ => true
  end.

(** [BasicBlock::getTerminator]. *)
Definition getTerminator (bb : BasicBlock) : option Instruction :=
  match last (instructions bb) with
  | Some i => if isTerminator i then Some i else None
  | None => None
  end.

(** [TerminatorInst::getSuccessor], as the list of all of them. A
    terminator that is neither a branch nor a [switch] is one without
    successors here ([ret], [unreachable]); [invoke] and
    [indirectbr], which have some, are not modelled. *)
Definition terminatorSuccessors (i : Instruction) : list BasicBlockPtr :=
  match opcode i with
  | Br dest => [dest]
  | CondBr _ ifTrue ifFalse => [ifTrue; ifFalse]
  | Switch _ defaultDest cases => defaultDest :: cases
  | OtherTerminator | Plain => []
  end.

(** [llvm::successors(bb)]. *)
Definition successors (mem : IRMemory) (bb : BasicBlockPtr) : list BasicBlockPtr :=
  match mem !! bb with
  | Some b =>
      match getTerminator b with
      | Some t => terminatorSuccessors t
      | None => []
      end
  | None => []
  end.

(** Every block address the module mentions: the blocks themselves
    and the targets of their terminators. *)
Definition allBlocks (mem : IRMemory) : gset BasicBlockPtr :=
  dom mem ∪ ⋃ (map (λ bb, list_to_set (successors mem bb)) (elements (dom mem))).

(** ** The region predicate: [AstBackEnd::isRegion] *)

Section IsRegion.
Variable mem : IRMemory.
(** [domTree->dominates(a, b)] and [postDomTree->dominates(a, b)],
    supplied by LLVM's analyses. *)
Variable dominates : BasicBlockPtr → BasicBlockPtr → bool.
Variable postDominates : BasicBlockPtr → BasicBlockPtr → bool.
(** [*toVisit.begin()]: the element an [unordered_set] enumerates
    first; which one is left to the hash table. *)
Variable begin : gset BasicBlockPtr → BasicBlockPtr.

(** The test of the loop body on [bb]. *)
Definition regionCheck (entry : BasicBlockPtr) (exit : option BasicBlockPtr)
    (bb : BasicBlockPtr) : bool :=
  dominates entry bb &&
  match exit with
  | None => true
  | Some e => postDominates e bb
  end.

(** [for (succ : successors(bb)) if (visited.count(succ) == 0)
    toVisit.insert(succ);] *)
Definition insertUnvisited (visited : gset (option BasicBlockPtr))
    (toVisit : gset BasicBlockPtr) (succs : list BasicBlockPtr)
    : gset BasicBlockPtr :=
  foldl (λ tv succ, if decide (Some succ ∈ visited) then tv else {[succ]} ∪ tv)
        toVisit succs.

(** The [while (toVisit.size() > 0)] loop. [None] is fuel exhaustion. *)
Fixpoint isRegionLoop (fuel : nat) (entry : BasicBlockPtr)
    (exit : option BasicBlockPtr) (toVisit : gset BasicBlockPtr)
    (visited : gset (option BasicBlockPtr)) : option bool :=
  if decide (size toVisit = 0) then Some true
  else
    match fuel with
    | O => None
    | S fuel' =>
        let bb := begin toVisit in
        if regionCheck entry exit bb then
          let toVisit1 := toVisit ∖ {[bb]} in
          let visited1 := {[Some bb]} ∪ visited in
          isRegionLoop fuel' entry exit
            (insertUnvisited visited1 toVisit1 (successors mem bb)) visited1
        else Some false
    end.

(** [toVisit { &entry }], [visited { exit }], then the loop. Each
    iteration marks one more block, so one round per block (and one
    to see the empty set) is enough. *)
Definition isRegion (entry : BasicBlockPtr) (exit : option BasicBlockPtr)
    : option bool :=
  isRegionLoop (S (size ({[entry]} ∪ allBlocks mem))) entry exit
               {[entry]} {[exit]}.

(** Blocks reachable from [entry] along edges that do not enter
    [exit]: the half-open interval [entry, exit). *)
Inductive reachesWithoutCrossing (entry : BasicBlockPtr)
    (exit : option BasicBlockPtr) : BasicBlockPtr → Prop :=
| rwc_entry : reachesWithoutCrossing entry exit entry
| rwc_step b s :
    reachesWithoutCrossing entry exit b →
    s ∈ successors mem b →
    Some s ≠ exit →
    reachesWithoutCrossing entry exit s.

(** What the loop knows about its two sets; [P] is the set of blocks
    it has already checked and expanded. *)
Definition regionInv (entry : BasicBlockPtr) (exit : option BasicBlockPtr)
    (toVisit : gset BasicBlockPtr) (visited : gset (option BasicBlockPtr))
    (P : gset BasicBlockPtr) : Prop :=
  (∀ o, o ∈ visited ↔ o = exit ∨ ∃ b, o = Some b ∧ b ∈ P) ∧
  (∀ b, b ∈ P →
     reachesWithoutCrossing entry exit b ∧
     regionCheck entry exit b = true ∧
     ∀ s, s ∈ successors mem b → Some s ∈ visited ∨ s ∈ toVisit) ∧
  (∀ b, b ∈ toVisit → reachesWithoutCrossing entry exit b ∧ b ∉ P) ∧
  (entry ∈ P ∨ entry ∈ toVisit).
End IsRegion.

(** ** Outcomes of the stateful passes *)

(** What a run of stateful code ends in: a result, a crash of the
    program (a null pointer dereferenced, a failed assertion, an
    exception left uncaught) or, in the model only, the recursion
    bound reached. *)
Inductive Outcome (A : Type) : Type :=
| Done (a : A)
| Crashed
| OutOfFuel.
Arguments Done {A} a.
Arguments Crashed {A}.
Arguments OutOfFuel {A}.

#[global] Instance Outcome_ret : MRet Outcome := λ A a, Done a.
#[global] Instance Outcome_bind : MBind Outcome := λ A B f m,
  match m with
  | Done a => f a
  | Crashed => Crashed
  | OutOfFuel => OutOfFuel
  end.

#[global] Instance Outcome_fmap : FMap Outcome := λ A B f m,
  match m with
  | Done a => Done (f a)
  | Crashed => Crashed
  | OutOfFuel => OutOfFuel
  end.

(** Dereferencing a pointer that may be null. *)
Definition deref {A : Type} (pointer : option A) : Outcome A :=
  match pointer with
  | Some a => Done a
  | None => Crashed
  end.

(** ** AST nodes *)

(** Modelled from the spec: [ast_nodes.h] is not among the sources. The
    spec's data model gives expressions the kinds [Value], [UnaryNot]
    and [Binary(op, l, r)] with [op] among [ShortCircuitAnd],
    [ShortCircuitOr] and others. The sources test the [type] field of
    unary and binary nodes against [LogicalNegate], [ShortCircuitAnd]
    and [ShortCircuitOr]; the enumerators they never name are kept as
    [UnaryOther] and [BinaryOther]. *)
Inductive UnaryOperatorType : Type :=
| LogicalNegate
| UnaryOther (code : nat).

Inductive BinaryOperatorType : Type :=
| ShortCircuitAnd
| ShortCircuitOr
| BinaryOther (code : nat).

Inductive Expression : Type :=
| ValueExpression (value : ValuePtr)
| UnaryOperatorExpression (type : UnaryOperatorType) (operand : Expression)
| BinaryOperatorExpression (type : BinaryOperatorType) (left right : Expression).

(** Modelled from the spec: the loop positions and the statement kinds
    of [ast_nodes.h]. [elseBody] and the loop condition may be null.
    A statement is the tree below it: the AST that the back-end builds
    holds no statement twice (the break sentinel apart, which is never
    written to), so that an update in place of a node is the same tree
    rebuilt around the new node. *)
Inductive ConditionPosition : Type :=
| Endless
| PreTested
| PostTested.

#[local] Unset Elimination Schemes.
Inductive Statement : Type :=
| ExpressionNode (expression : Expression)
| SequenceNode (statements : list Statement)
| IfElseNode (condition : Expression) (ifBody : Statement)
             (elseBody : option Statement)
| LoopNode (condition : option Expression) (position : ConditionPosition)
           (loopBody : Statement)
| BreakNode.
#[local] Set Elimination Schemes.

#[global] Instance UnaryOperatorType_eq_dec : EqDecision UnaryOperatorType.
Proof. solve_decision. Defined.

#[global] Instance BinaryOperatorType_eq_dec : EqDecision BinaryOperatorType.
Proof. solve_decision. Defined.

#[global] Instance Expression_eq_dec : EqDecision Expression.
Proof. solve_decision. Defined.

#[global] Instance ConditionPosition_eq_dec : EqDecision ConditionPosition.
Proof. solve_decision. Defined.

(** Modelled from the spec: [Expression::isReferenceEqual], which
    matches sub-expressions produced from the same IR value: two
    [Value] nodes are reference-equal when they wrap the same
    [llvm::Value], two operator nodes when their types agree and their
    operands are reference-equal. *)
Fixpoint isReferenceEqual (this that : Expression) : bool :=
  match this, that with
  | ValueExpression v, ValueExpression w => bool_decide (v = w)
  | UnaryOperatorExpression t a, UnaryOperatorExpression u b =>
      bool_decide (t = u) && isReferenceEqual a b
  | BinaryOperatorExpression t a1 a2, BinaryOperatorExpression u b1 b2 =>
      bool_decide (t = u) && isReferenceEqual a1 b1 && isReferenceEqual a2 b2
  | _, _ => false
  end.

(** Modelled from the spec: [LoopNode::isEndless], the loop position
    being [Endless]. *)
Definition isEndless (position : ConditionPosition) : bool :=
  bool_decide (position = Endless).

(** ** Recursive AST simplification *)

(** [logicalNegate]: a negation is undone, anything else is wrapped
    in a fresh [LogicalNegate] node. *)
Definition logicalNegate (toNegate : Expression) : Expression :=
  match toNegate with
  | UnaryOperatorExpression LogicalNegate operand => operand
  | _ => UnaryOperatorExpression LogicalNegate toNegate
  end.

(** The [while] loop that opens [recursivelySimplifyIfElse], run on an
    [IfElseNode] that has an else branch: each round strips one
    [LogicalNegate] from the condition and swaps the two bodies. The
    result is the condition left at the end and whether the bodies end
    up swapped. *)
Fixpoint stripNegations (condition : Expression) : Expression * bool :=
  match condition with
  | UnaryOperatorExpression LogicalNegate operand =>
      let '(c, swapped) := stripNegations operand in (c, negb swapped)
  | _ => (condition, false)
  end.

(** The loop of [recursivelySimplifySequence]: every sub-statement is
    simplified; a simplified sequence contributes its statements, any
    other result contributes itself. *)
Definition simplifySubStatements (rec : Statement → option Statement)
    : list Statement → option (list Statement) :=
  fix go (statements : list Statement) : option (list Statement) :=
    match statements with
    | [] => Some []
    | sub :: rest =>
        match rec sub with
        | None => None
        | Some asSimplified =>
            match go rest with
            | None => None
            | Some tail =>
                Some (match asSimplified with
                      | SequenceNode simplifiedSequence => simplifiedSequence ++ tail
                      | _ => asSimplified :: tail
                      end)
            end
        end
    end.

(** [simplified->statements.size() == 1 ? simplified->statements[0] : simplified] *)
Definition collapseSingleton (simplified : list Statement) : Statement :=
  match simplified with
  | [only] => only
  | _ => SequenceNode simplified
  end.

(** The pattern matching of [recursivelySimplifyLoop], after the body
    has been simplified. Only the do-while pattern is implemented: it
    makes the loop post-tested, so the [continue] re-enters the
    [while (true)] with [isEndless()] false and leaves it. [None] is
    the failure of [assert(lastIndex > 0)]. *)
Definition rewriteLoop (condition : option Expression)
    (position : ConditionPosition) (loopBody : Statement) : option Statement :=
  if isEndless position then
    match loopBody with
    | SequenceNode statements =>
        match last statements with
        | None => None
        | Some (IfElseNode ifCondition BreakNode _) =>
            Some (LoopNode (Some (logicalNegate ifCondition)) PostTested
                           (SequenceNode (removelast statements)))
        | Some _ => Some (LoopNode condition position loopBody)
        end
    | _ => Some (LoopNode condition position loopBody)
    end
  else Some (LoopNode condition position loopBody).

(** The three cases of [recursivelySimplifyStatement], each over the
    fields of its node, with [rec] for the recursive call. The nodes
    are updated in place in the source; on a tree that is the rebuilt
    node. *)
Definition recursivelySimplifySequence (rec : Statement → option Statement)
    (statements : list Statement) : option Statement :=
  match simplifySubStatements rec statements with
  | None => None
  | Some simplified => Some (collapseSingleton simplified)
  end.

Definition recursivelySimplifyIfElse (rec : Statement → option Statement)
    (condition : Expression) (ifBody : Statement) (elseBody : option Statement)
    : option Statement :=
  match elseBody with
  | Some elseBody =>
      let '(newCondition, swapped) := stripNegations condition in
      match rec (if swapped then elseBody else ifBody) with
      | None => None
      | Some newIfBody =>
          match rec (if swapped then ifBody else elseBody) with
          | None => None
          | Some newElseBody =>
              Some (IfElseNode newCondition newIfBody (Some newElseBody))
          end
      end
  | None =>
      match rec ifBody with
      | None => None
      | Some (IfElseNode childCondition childIfBody None) =>
          Some (IfElseNode
                  (BinaryOperatorExpression ShortCircuitAnd condition childCondition)
                  childIfBody None)
      | Some newIfBody => Some (IfElseNode condition newIfBody None)
      end
  end.

Definition recursivelySimplifyLoop (rec : Statement → option Statement)
    (condition : option Expression) (position : ConditionPosition)
    (loopBody : Statement) : option Statement :=
  match rec loopBody with
  | None => None
  | Some newBody => rewriteLoop condition position newBody
  end.

(** [recursivelySimplifyStatement] *)
Fixpoint recursivelySimplifyStatement (statement : Statement) : option Statement :=
  match statement with
  | SequenceNode statements =>
      recursivelySimplifySequence recursivelySimplifyStatement statements
  | IfElseNode condition ifBody elseBody =>
      recursivelySimplifyIfElse recursivelySimplifyStatement condition ifBody elseBody
  | LoopNode condition position loopBody =>
      recursivelySimplifyLoop recursivelySimplifyStatement condition position loopBody
  | ExpressionNode _ | BreakNode => Some statement
  end.


(** *** Shapes of simplified statements *)

Definition isLogicalNegate (e : Expression) : bool :=
  match e with
  | UnaryOperatorExpression LogicalNegate _ => true
  | _ => false
  end.

Definition isSequence (s : Statement) : bool :=
  match s with
  | SequenceNode _ => true
  | _ => false
  end.

Definition isIfWithoutElse (s : Statement) : bool :=
  match s with
  | IfElseNode _ _ None => true
  | _ => false
  end.

(** The last statement is an [IfElseNode] whose [ifBody] is the break
    sentinel. *)
Definition endsWithBreakIf (statements : list Statement) : bool :=
  match last statements with
  | Some (IfElseNode _ BreakNode _) => true
  | _ => false
  end.

(** Every [IfElseNode] of the tree that has an else branch has a
    condition that is not a [LogicalNegate] node. *)
Fixpoint elseConditionsNotNegated (s : Statement) : bool :=
  match s with
  | SequenceNode statements => forallb elseConditionsNotNegated statements
  | IfElseNode condition ifBody elseBody =>
      elseConditionsNotNegated ifBody &&
      match elseBody with
      | Some e => negb (isLogicalNegate condition) && elseConditionsNotNegated e
      | None => true
      end
  | LoopNode _ _ loopBody => elseConditionsNotNegated loopBody
  | ExpressionNode _ | BreakNode => true
  end.

(** Some loop of the tree has a body that is a sequence of exactly one
    statement. *)
Fixpoint hasSingletonLoopBody (s : Statement) : bool :=
  match s with
  | SequenceNode statements => existsb hasSingletonLoopBody statements
  | IfElseNode _ ifBody elseBody =>
      hasSingletonLoopBody ifBody ||
      match elseBody with
      | Some e => hasSingletonLoopBody e
      | None => false
      end
  | LoopNode _ _ loopBody =>
      match loopBody with
      | SequenceNode [_] => true
      | _ => false
      end || hasSingletonLoopBody loopBody
  | ExpressionNode _ | BreakNode => false
  end.

(** The shape of what [recursivelySimplifyStatement] returns: sequences
    are flat and never of length one, an [if] with an else has a
    condition that is not a negation, an [if] without else does not
    wrap another one, and an endless loop does not end in a breaking
    [if]. The one exception is the body the do-while rewrite leaves
    behind, which may be a sequence of length one. *)
Fixpoint simplifiedShape (s : Statement) : bool :=
  match s with
  | ExpressionNode _ | BreakNode => true
  | SequenceNode statements =>
      negb (length statements =? 1) &&
      forallb (λ x, negb (isSequence x) && simplifiedShape x) statements
  | IfElseNode condition ifBody None =>
      simplifiedShape ifBody && negb (isIfWithoutElse ifBody)
  | IfElseNode condition ifBody (Some e) =>
      negb (isLogicalNegate condition) && simplifiedShape ifBody && simplifiedShape e
  | LoopNode _ position loopBody =>
      match position, loopBody with
      | PostTested, SequenceNode [x] => negb (isSequence x) && simplifiedShape x
      | _, _ =>
          simplifiedShape loopBody &&
          negb (isEndless position &&
                match loopBody with
                | SequenceNode statements =>
                    endsWithBreakIf statements || (length statements =? 0)
                | _ => false
                end)
      end
  end.


(** ** The sum-of-products simplifier *)

(** An [Expression*] held in a [SmallVector]: the address of the node
    and, expressions being immutable once built, the tree found
    there. [==] on two such pointers compares the addresses;
    [isReferenceEqual] compares the trees. *)
Record ExpressionRef : Type := mkExpressionRef {
  address : positive;
  pointee : Expression
}.

Definition samePointer (a b : ExpressionRef) : bool :=
  bool_decide (address a = address b).

(** [find_if(begin, end, pred)] as the index of the first match. *)
Fixpoint find_if {A : Type} (pred : A → bool) (range : list A) : option nat :=
  match range with
  | [] => None
  | x :: rest => if pred x then Some 0 else S <$> find_if pred rest
  end.

(** The inner [for] of step 1: the place of [term] in each of the
    other products, up to the first product that lacks it
    ([break]). *)
Fixpoint termLocations (term : ExpressionRef)
    (otherProducts : list (list ExpressionRef)) : list nat :=
  match otherProducts with
  | [] => []
  | product :: rest =>
      match find_if (λ that, isReferenceEqual (pointee that) (pointee term)) product with
      | None => []
      | Some location => location :: termLocations term rest
      end
  end.

(** Step 1, the [while (termIter != firstProduct.end())] loop.
    [remaining] is the first product from [termIter] on, [kept] what
    lies before it. A term found in every other product becomes a sum
    of its own and is erased everywhere. *)
Fixpoint collectTerms (remaining kept : list ExpressionRef)
    (otherProducts productOfSums : list (list ExpressionRef))
    : list ExpressionRef * list (list ExpressionRef) * list (list ExpressionRef) :=
  match remaining with
  | [] => (kept, otherProducts, productOfSums)
  | term :: rest =>
      let locations := termLocations term otherProducts in
      if decide (length locations = length otherProducts) then
        collectTerms rest kept
          (zip_with (λ location product, delete location product)
                    locations otherProducts)
          (productOfSums ++ [[term]])
      else collectTerms rest (kept ++ [term]) otherProducts productOfSums
  end.

Definition isEmptyProduct (product : list ExpressionRef) : bool :=
  match product with
  | [] => true
  | _ :: _ => false
  end.

(** Step 1 as a whole: the sums lifted out and what is left of
    [sumOfProducts] once the emptied products are erased. With a
    single product the step is skipped. *)
Definition collectIdenticalTerms (sumOfProducts : list (list ExpressionRef))
    : list (list ExpressionRef) * list (list ExpressionRef) :=
  match sumOfProducts with
  | firstProduct :: (_ :: _) as otherProducts =>
      let '(first, others, productOfSums) :=
        collectTerms firstProduct [] otherProducts [] in
      (productOfSums, filter (λ product, isEmptyProduct product = false)
                             (first :: others))
  | _ => ([], sumOfProducts)
  end.

(** [expandToProductOfSums]: [rows] is the range from
    [sumOfProductsIter] to [sumOfProductsEnd]. *)
Fixpoint expandToProductOfSums (stack : list ExpressionRef)
    (output : list (list ExpressionRef)) (rows : list (list ExpressionRef))
    : list (list ExpressionRef) :=
  match rows with
  | [] => output ++ [stack]
  | row :: nextRows =>
      foldl (λ out expr, expandToProductOfSums (stack ++ [expr]) out nextRows)
            output row
  end.

(** [std::remove(first, last, *first)] on the range [first, last):
    the value to remove is passed by reference to the first slot of
    the range. [removeByReference value rest] is the loop over the
    elements after the first slot while that slot still holds
    [value]: elements equal to it are skipped; the first other
    element is moved into the first slot, and from then on the
    reference reads that element, so the rest of the range is compared
    with it. *)
Fixpoint removeByReference (value : ExpressionRef) (rest : list ExpressionRef)
    : list ExpressionRef :=
  match rest with
  | [] => []
  | x :: rest' =>
      if samePointer x value then removeByReference value rest'
      else x :: filter (λ y, samePointer y x = false) rest'
  end.

Definition removeFirstByReference (range : list ExpressionRef) : list ExpressionRef :=
  match range with
  | [] => []
  | value :: rest => removeByReference value rest
  end.

(** The two [find_if] of step 3, looking in [range] for the negation
    of [e], or for what [e] negates. A failed
    [assert(negated->type == LogicalNegate)] is a crash. *)
Fixpoint findNegated (e : Expression) (range : list ExpressionRef)
    : Outcome (option nat) :=
  match range with
  | [] => Done None
  | that :: rest =>
      match pointee that with
      | UnaryOperatorExpression LogicalNegate operand =>
          if isReferenceEqual operand e then Done (Some 0)
          else found ← findNegated e rest; Done (fmap (M:=option) S found)
      | UnaryOperatorExpression (UnaryOther _) _ => Crashed
      | _ => found ← findNegated e rest; Done (fmap (M:=option) S found)
      end
  end.

Definition findNegation (e : ExpressionRef) (range : list ExpressionRef)
    : Outcome (option nat) :=
  match pointee e with
  | UnaryOperatorExpression LogicalNegate operand =>
      Done (find_if (λ that, isReferenceEqual (pointee that) operand) range)
  | UnaryOperatorExpression (UnaryOther _) _ => Crashed
  | _ => findNegated (pointee e) range
  end.

(** Step 3 on one sum, the [while (iter != end)] loop: [before] is
    the sum below [iter], [live] the range from [iter] to [end]. Each
    round shortens [live], so its length is fuel enough. *)
Fixpoint removeNegationPairs (fuel : nat) (before live : list ExpressionRef)
    : Outcome (list ExpressionRef) :=
  match live with
  | [] => Done before
  | e :: rest =>
      match fuel with
      | O => OutOfFuel
      | S fuel' =>
          negation ← findNegation e rest;
          match negation with
          | None => removeNegationPairs fuel' (before ++ [e]) rest
          | Some k =>
              let afterNegation := take k rest ++ removeFirstByReference (drop k rest) in
              removeNegationPairs fuel' before
                (removeFirstByReference (e :: afterNegation))
          end
      end
  end.

(** Step 3 over all sums, with the emptied ones erased. *)
Fixpoint removeContradictions (productOfSums : list (list ExpressionRef))
    : Outcome (list (list ExpressionRef)) :=
  match productOfSums with
  | [] => Done []
  | sum :: rest =>
      newSum ← removeNegationPairs (length sum) [] sum;
      newRest ← removeContradictions rest;
      Done (match newSum with
            | [] => newRest
            | _ :: _ => newSum :: newRest
            end)
  end.

(** [simplifySumOfProducts]. It crashes (undefined behaviour, to be
    exact) when step 2 takes [front()] of an emptied vector, and when
    an assertion of step 3 fails. *)
Definition simplifySumOfProducts (sumOfProducts : list (list ExpressionRef))
    : Outcome (list (list ExpressionRef)) :=
  match sumOfProducts with
  | [] => Done []
  | _ :: _ =>
      let '(productOfSums, residue) := collectIdenticalTerms sumOfProducts in
      match residue with
      | [] => Crashed
      | firstProduct :: nextRows =>
          removeContradictions
            (foldl (λ out expr, expandToProductOfSums [expr] out nextRows)
                   productOfSums firstProduct)
      end
  end.

(** *** The Boolean functions denoted *)

(** A truth assignment gives a value to every atomic predicate: any
    expression that is not a negation, a conjunction or a
    disjunction. *)
Fixpoint evalExpression (assignment : Expression → bool) (e : Expression) : bool :=
  match e with
  | UnaryOperatorExpression LogicalNegate operand =>
      negb (evalExpression assignment operand)
  | BinaryOperatorExpression ShortCircuitAnd l r =>
      evalExpression assignment l && evalExpression assignment r
  | BinaryOperatorExpression ShortCircuitOr l r =>
      evalExpression assignment l || evalExpression assignment r
  | _ => assignment e
  end.

Definition evalSumOfProducts (assignment : Expression → bool)
    (sumOfProducts : list (list ExpressionRef)) : bool :=
  existsb (forallb (λ term, evalExpression assignment (pointee term))) sumOfProducts.

Definition evalProductOfSums (assignment : Expression → bool)
    (productOfSums : list (list ExpressionRef)) : bool :=
  forallb (existsb (λ term, evalExpression assignment (pointee term))) productOfSums.

(** Distribution of a product of sums back to a sum of products: one
    product per choice of a term in every sum. *)
Fixpoint distributeToSumOfProducts (productOfSums : list (list ExpressionRef))
    : list (list ExpressionRef) :=
  match productOfSums with
  | [] => [[]]
  | sum :: rest =>
      flat_map (λ term, map (cons term) (distributeToSumOfProducts rest)) sum
  end.


(** ** The arena *)

(** [Statement*] is an address in the arena. *)
Abbreviation StatementPtr := positive (only parsing).

(** [DumbAllocator]: a bump allocator. [statementAt] is the statement
    tree found at the address of every statement that the grapher or a
    reaching-conditions map refers to by pointer: the grapher's maps
    are keyed by [Statement*], so these statements keep their
    identity, and the tree is what the pointer leads to when the
    statement is registered. *)
Record DumbAllocator : Type := mkDumbAllocator {
  nextAddress : positive;
  statementAt : gmap positive Statement
}.

(** [pool.clear()] *)
Definition emptyPool : DumbAllocator :=
  {| nextAddress := 1; statementAt := ∅ |}.

(** [pool.allocate<T>(...)] for an expression node. *)
Definition allocateExpression (e : Expression) (pool : DumbAllocator)
    : ExpressionRef * DumbAllocator :=
  ({| address := nextAddress pool; pointee := e |},
   {| nextAddress := Pos.succ (nextAddress pool);
      statementAt := statementAt pool |}).

(** [pool.allocate<T>(...)] for a statement. Only the nodes whose
    address is looked at get one here: the statements handed to the
    grapher and the expressions pushed on a condition stack; the
    other nodes are reached through their parent alone. *)
Definition allocateStatement (s : Statement) (pool : DumbAllocator)
    : StatementPtr * DumbAllocator :=
  (nextAddress pool,
   {| nextAddress := Pos.succ (nextAddress pool);
      statementAt := <[nextAddress pool := s]> (statementAt pool) |}).

(** ** The AST grapher: [ast_grapher.cpp] *)

(** [AstGraphNode*] is a position in [nodeStorage], a deque that only
    grows; [None] is the null pointer. *)
Abbreviation AstGraphNodePtr := nat (only parsing).

(** Modelled from the spec: the fields of [AstGraphNode] and
    [hasExit], declared in [ast_grapher.h]. The exit block may be
    null. *)
Record AstGraphNode : Type := mkAstGraphNode {
  node : StatementPtr;
  getEntry : BasicBlockPtr;
  getExit : option BasicBlockPtr
}.

Definition hasExit (n : AstGraphNode) : bool :=
  bool_decide (getExit n ≠ Some (getEntry n)).

Record AstGrapher : Type := mkAstGrapher {
  nodeStorage : list AstGraphNode;
  nodeByEntry : gmap positive positive;
  graphNodeByAstNode : gmap positive nat
}.

(** [new AstGrapher(pool)] *)
Definition emptyGrapher : AstGrapher :=
  {| nodeStorage := []; nodeByEntry := ∅; graphNodeByAstNode := ∅ |}.

(** The instructions of the block at [bb]; an address that holds no
    block has none. *)
Definition instructionsAt (mem : IRMemory) (bb : BasicBlockPtr) : list Instruction :=
  match mem !! bb with
  | Some b => instructions b
  | None => []
  end.

(** [!isa<BranchInst>(inst) && !isa<SwitchInst>(inst)] *)
Definition isKeptInstruction (inst : Instruction) : bool :=
  match opcode inst with
  | Br _ | CondBr _ _ _ | Switch _ _ _ => false
  | OtherTerminator | Plain => true
  end.

(** [nodeStorage.emplace_back] of a node for the statement, followed by
    the update of the two indices, shared by [addBasicBlock] and
    [updateRegion]. *)
Definition registerNode (statement : StatementPtr) (entry : BasicBlockPtr)
    (exit : option BasicBlockPtr) (grapher : AstGrapher) : AstGrapher :=
  {| nodeStorage := nodeStorage grapher ++ [mkAstGraphNode statement entry exit];
     nodeByEntry := <[entry := statement]> (nodeByEntry grapher);
     graphNodeByAstNode :=
       <[statement := length (nodeStorage grapher)]> (graphNodeByAstNode grapher) |}.

(** [AstGrapher::addBasicBlock] *)
Definition addBasicBlock (mem : IRMemory) (bb : BasicBlockPtr)
    (grapher : AstGrapher) (pool : DumbAllocator)
    : StatementPtr * AstGrapher * DumbAllocator :=
  let statements :=
    map (λ inst, ExpressionNode (ValueExpression (instValue inst)))
        (filter (λ inst, isKeptInstruction inst = true) (instructionsAt mem bb)) in
  let '(statement, pool') :=
    allocateStatement (SequenceNode statements) pool in
  (statement, registerNode statement bb (Some bb) grapher, pool').

(** [AstGrapher::updateRegion] *)
Definition updateRegion (entry : BasicBlockPtr) (exit : option BasicBlockPtr)
    (statement : StatementPtr) (grapher : AstGrapher) : AstGrapher :=
  registerNode statement entry exit grapher.

(** [AstGrapher::getGraphNode] *)
Definition getGraphNode (grapher : AstGrapher) (statement : StatementPtr)
    : option AstGraphNodePtr :=
  graphNodeByAstNode grapher !! statement.

(** [AstGrapher::getGraphNodeFromEntry]; the block may be null. *)
Definition getGraphNodeFromEntry (grapher : AstGrapher)
    (block : option BasicBlockPtr) : option AstGraphNodePtr :=
  match block with
  | Some bb =>
      match nodeByEntry grapher !! bb with
      | Some statement => getGraphNode grapher statement
      | None => None
      end
  | None => None
  end.


(** ** Reaching conditions: [ReachingConditions::build] *)

(** What [build] reads and writes: the [conditions] map of the
    object, the two stacks it is passed by reference, and the arena. *)
Record BuildState : Type := mkBuildState {
  conditions : gmap positive (list (list ExpressionRef));
  conditionStack : list ExpressionRef;
  visitStack : list (option nat);
  buildPool : DumbAllocator
}.

(** [conditions[statement].push_back(conditionStack)] *)
Definition recordCondition (statement : StatementPtr) (st : BuildState) : BuildState :=
  {| conditions :=
       <[statement := default [] (conditions st !! statement) ++ [conditionStack st]]>
         (conditions st);
     conditionStack := conditionStack st;
     visitStack := visitStack st;
     buildPool := buildPool st |}.

Definition pushVisit (n : option nat) (st : BuildState) : BuildState :=
  {| conditions := conditions st;
     conditionStack := conditionStack st;
     visitStack := visitStack st ++ [n];
     buildPool := buildPool st |}.

Definition popVisit (st : BuildState) : BuildState :=
  {| conditions := conditions st;
     conditionStack := conditionStack st;
     visitStack := removelast (visitStack st);
     buildPool := buildPool st |}.

(** [pool.allocate<...>(...)] of an expression, pushed on the
    condition stack. *)
Definition pushCondition (e : Expression) (st : BuildState) : ExpressionRef * BuildState :=
  let '(ref, pool) := allocateExpression e (buildPool st) in
  (ref, {| conditions := conditions st;
           conditionStack := conditionStack st ++ [ref];
           visitStack := visitStack st;
           buildPool := pool |}).

Definition popCondition (st : BuildState) : BuildState :=
  {| conditions := conditions st;
     conditionStack := removelast (conditionStack st);
     visitStack := visitStack st;
     buildPool := buildPool st |}.

(** The terminator of the block at [bb]; null when the block has
    none. *)
Definition terminatorAt (mem : IRMemory) (bb : BasicBlockPtr) : option Instruction :=
  match mem !! bb with
  | Some b => getTerminator b
  | None => None
  end.

Section ReachingConditions.
Variable mem : IRMemory.
Variable grapher : AstGrapher.

(** [ReachingConditions::build]. [fuel] bounds the depth of the
    recursion. *)
Fixpoint build (fuel : nat) (currentNode : option nat) (st : BuildState)
    : Outcome BuildState :=
  match fuel with
  | O => OutOfFuel
  | S fuel' =>
      if decide (currentNode ∈ visitStack st) then Done st
      else
        let st := pushVisit currentNode st in
        current ← deref (currentNode ≫= λ n, nodeStorage grapher !! n);
        let st := recordCondition (node current) st in
        st ← (if hasExit current then
                build fuel' (getGraphNodeFromEntry grapher (getExit current)) st
              else
                terminator ← deref (terminatorAt mem (getEntry current));
                match opcode terminator with
                | CondBr condition ifTrue ifFalse =>
                    let '(trueExpr, st) := pushCondition (ValueExpression condition) st in
                    st ← build fuel' (getGraphNodeFromEntry grapher (Some ifTrue)) st;
                    let st := popCondition st in
                    let '(_, st) :=
                      pushCondition
                        (UnaryOperatorExpression LogicalNegate (pointee trueExpr)) st in
                    st ← build fuel' (getGraphNodeFromEntry grapher (Some ifFalse)) st;
                    Done (popCondition st)
                | Br dest =>
                    build fuel' (getGraphNodeFromEntry grapher (Some dest)) st
                | _ => Done st
                end);
        Done (popVisit st)
  end.

(** [ReachingConditions::buildSumsOfProducts] on a fresh
    [ReachingConditions] object. The visit stack never holds the
    same node twice, so the recursion is no deeper than there are
    graph nodes. *)
Definition buildSumsOfProducts (regionStart regionEnd : option nat)
    (pool : DumbAllocator) : Outcome BuildState :=
  build (S (length (nodeStorage grapher))) regionStart
        {| conditions := ∅; conditionStack := [];
           visitStack := [regionEnd]; buildPool := pool |}.

(** ** Reverse post-order of a region *)

(** [postOrder]; the state is the vector [into] and the set
    [visited]. *)
Fixpoint postOrder (fuel : nat) (current : option nat)
    (st : list StatementPtr * gset (option nat))
    : Outcome (list StatementPtr * gset (option nat)) :=
  match fuel with
  | O => OutOfFuel
  | S fuel' =>
      let '(into, visited) := st in
      if decide (current ∈ visited) then Done st
      else
        let visited := {[current]} ∪ visited in
        currentNode ← deref (current ≫= λ n, nodeStorage grapher !! n);
        st ← (if hasExit currentNode then
                postOrder fuel' (getGraphNodeFromEntry grapher (getExit currentNode))
                          (into, visited)
              else
                foldl (λ acc succ,
                         st ← acc;
                         postOrder fuel' (getGraphNodeFromEntry grapher (Some succ)) st)
                      (Done (into, visited))
                      (successors mem (getEntry currentNode)));
        Done (st.1 ++ [node currentNode], st.2)
  end.

(** [reversePostOrder] *)
Definition reversePostOrder (entry exit : option nat) : Outcome (list StatementPtr) :=
  st ← postOrder (S (length (nodeStorage grapher))) entry ([], {[exit]});
  Done (reverse st.1).
End ReachingConditions.


(** *** Walks of the AST graph *)

Section GuardedPaths.
Variable mem : IRMemory.
Variable grapher : AstGrapher.

(** One step out of the graph node at position [n]: the branch
    predicates it adds and the node it leads to. A node with a
    distinct exit leads to the node resolved from that exit, under
    no predicate; an unconditional branch leads to its target under
    no predicate; a conditional branch on [c] leads to successor 0
    under [Value(c)] and to successor 1 under [UnaryNot(Value(c))]. *)
Inductive graphStep (n : nat) : list Expression → option nat → Prop :=
| step_exit current :
    nodeStorage grapher !! n = Some current →
    hasExit current = true →
    graphStep n [] (getGraphNodeFromEntry grapher (getExit current))
| step_branch current terminator dest :
    nodeStorage grapher !! n = Some current →
    hasExit current = false →
    terminatorAt mem (getEntry current) = Some terminator →
    opcode terminator = Br dest →
    graphStep n [] (getGraphNodeFromEntry grapher (Some dest))
| step_true current terminator c ifTrue ifFalse :
    nodeStorage grapher !! n = Some current →
    hasExit current = false →
    terminatorAt mem (getEntry current) = Some terminator →
    opcode terminator = CondBr c ifTrue ifFalse →
    graphStep n [ValueExpression c] (getGraphNodeFromEntry grapher (Some ifTrue))
| step_false current terminator c ifTrue ifFalse :
    nodeStorage grapher !! n = Some current →
    hasExit current = false →
    terminatorAt mem (getEntry current) = Some terminator →
    opcode terminator = CondBr c ifTrue ifFalse →
    graphStep n [UnaryOperatorExpression LogicalNegate (ValueExpression c)]
              (getGraphNodeFromEntry grapher (Some ifFalse)).

(** A walk from the node [from] to the node at position [target]
    that enters no node of [avoid] and no node twice, with the
    predicates met on the way. *)
Inductive guardedPath : list (option nat) → option nat → list Expression → nat → Prop :=
| path_here avoid n :
    Some n ∉ avoid →
    is_Some (nodeStorage grapher !! n) →
    guardedPath avoid (Some n) [] n
| path_step avoid n guard next guards target :
    Some n ∉ avoid →
    graphStep n guard next →
    guardedPath (avoid ++ [Some n]) next guards target →
    guardedPath avoid (Some n) (guard ++ guards) target.

(** The graph nodes that are not on the visit stack. *)
Definition unvisitedNodes (visit : list (option nat)) : gset nat :=
  list_to_set (seq 0 (length (nodeStorage grapher))) ∖ list_to_set (omap id visit).

(** What a run of [build] from [from] adds to the map: for every
    statement, products appended to those it had, each of them the
    condition stack followed by the predicates of a walk from
    [from] to a node of that statement, and one for every such
    walk. *)
Definition recordsWalks (st : BuildState) (from : option nat)
    (after : gmap positive (list (list ExpressionRef))) : Prop :=
  ∀ statement,
    ∃ added,
      default [] (after !! statement) =
        default [] (conditions st !! statement) ++ added ∧
      (∀ product, product ∈ added →
         ∃ target current guards,
           nodeStorage grapher !! target = Some current ∧
           node current = statement ∧
           map pointee product = map pointee (conditionStack st) ++ guards ∧
           guardedPath (visitStack st) from guards target) ∧
      (∀ target current guards,
         nodeStorage grapher !! target = Some current →
         node current = statement →
         guardedPath (visitStack st) from guards target →
         ∃ product, product ∈ added ∧
                    map pointee product = map pointee (conditionStack st) ++ guards).

(** The walks a sub-call of [build] records, seen from the caller. *)
Definition subWalks (st : BuildState) (n : nat) (guard : list Expression)
    (next : option nat) (before after : gmap positive (list (list ExpressionRef)))
    (statement : positive) (added : list (list ExpressionRef)) : Prop :=
  default [] (after !! statement) = default [] (before !! statement) ++ added ∧
  (∀ product, product ∈ added →
     ∃ target current guards,
       nodeStorage grapher !! target = Some current ∧
       node current = statement ∧
       map pointee product = map pointee (conditionStack st) ++ guard ++ guards ∧
       guardedPath (visitStack st ++ [Some n]) next guards target) ∧
  (∀ target current guards,
     nodeStorage grapher !! target = Some current →
     node current = statement →
     guardedPath (visitStack st ++ [Some n]) next guards target →
     ∃ product, product ∈ added ∧
       map pointee product = map pointee (conditionStack st) ++ guard ++ guards).

(** The sub-calls of one call of [build], in order, each with the
    map it starts from and the map it leaves. *)
Inductive walkChain (st : BuildState) (n : nat) :
    list (list Expression * option nat) →
    gmap positive (list (list ExpressionRef)) →
    gmap positive (list (list ExpressionRef)) → Prop :=
| chain_nil m : walkChain st n [] m m
| chain_cons guard next edges m1 m2 m3 :
    (∀ statement, ∃ added, subWalks st n guard next m1 m2 statement added) →
    walkChain st n edges m2 m3 →
    walkChain st n ((guard, next) :: edges) m1 m3.
End GuardedPaths.


(** ** Structuring a region: [structurizeRegion] *)

(** [coalesce] and [collapse]; the null expression is [None]. *)
Definition coalesce (type : BinaryOperatorType) (left right : option Expression)
    : option Expression :=
  match left, right with
  | None, _ => right
  | _, None => left
  | Some l, Some r => Some (BinaryOperatorExpression type l r)
  end.

Definition collapse (terms : list ExpressionRef) (joint : BinaryOperatorType)
    : option Expression :=
  foldl (λ result expression, coalesce joint result (Some (pointee expression)))
        None terms.

(** The two [dyn_cast<UnaryOperatorExpression>] tests of the merging
    loop: whether the expression is a negation, and its operand if it
    is. *)
Definition stripOneNegation (e : Expression) : bool * Expression :=
  match e with
  | UnaryOperatorExpression LogicalNegate operand => (true, operand)
  | _ => (false, e)
  end.

Definition fromOption {A : Type} (o : option A) : Outcome A := deref o.

(** The [for (const auto& sum : productOfSums)] loop for one node and
    the [push_back] that follows it. [body] is the statement list of
    the sequence the cursor [body] points to; the sequence is
    returned as the loop leaves it. The cursor only ever moves into
    the last statement of the current sequence. *)
Fixpoint insertNode (productOfSums : list (list ExpressionRef))
    (nodeStatement : Statement) (body : list Statement)
    : Outcome (list Statement) :=
  match productOfSums with
  | [] => Done (body ++ [nodeStatement])
  | sum :: rest =>
      condition ← deref (collapse sum ShortCircuitOr);
      let createNode (condition : Expression) :=
        ifBody ← insertNode rest nodeStatement [];
        Done (body ++ [IfElseNode condition (SequenceNode ifBody) None]) in
      match last body with
      | Some (IfElseNode thisCondition ifBody elseBody) =>
          let '(isSumNegated, condition) := stripOneNegation condition in
          let '(isCurrentConditionNegated, strippedCondition) :=
            stripOneNegation thisCondition in
          if isReferenceEqual strippedCondition condition then
            if bool_decide (isSumNegated = isCurrentConditionNegated) then
              match ifBody with
              | SequenceNode statements =>
                  statements ← insertNode rest nodeStatement statements;
                  Done (removelast body ++
                        [IfElseNode thisCondition (SequenceNode statements) elseBody])
              | _ => Crashed
              end
            else
              match elseBody with
              | Some (SequenceNode statements) =>
                  statements ← insertNode rest nodeStatement statements;
                  Done (removelast body ++
                        [IfElseNode thisCondition ifBody (Some (SequenceNode statements))])
              | Some _ => Crashed
              | None =>
                  statements ← insertNode rest nodeStatement [];
                  Done (removelast body ++
                        [IfElseNode thisCondition ifBody (Some (SequenceNode statements))])
              end
          else createNode condition
      | _ => createNode condition
      end
  end.

(** [structurizeRegion]: the sequence built and the arena after it. *)
Definition structurizeRegion (mem : IRMemory) (grapher : AstGrapher)
    (entry : BasicBlockPtr) (exit : option BasicBlockPtr) (pool : DumbAllocator)
    : Outcome (Statement * DumbAllocator) :=
  let astEntry := getGraphNodeFromEntry grapher (Some entry) in
  let astExit := getGraphNodeFromEntry grapher exit in
  reach ← buildSumsOfProducts mem grapher astEntry astExit pool;
  order ← reversePostOrder mem grapher astEntry astExit;
  body ← foldl (λ acc nodePtr,
                  body ← acc;
                  path ← deref (conditions reach !! nodePtr);
                  productOfSums ← simplifySumOfProducts path;
                  nodeStatement ← deref (statementAt pool !! nodePtr);
                  insertNode productOfSums nodeStatement body)
               (Done []) order;
  Done (SequenceNode body, buildPool reach).

(** ** The pass: [AstBackEnd] *)

(** What LLVM supplies for one function: the dominator and
    post-dominator queries, the post-dominator tree ([DomTreeNode*]
    is a number, null is [None], and a node may hold the null block),
    the blocks in post-order from the entry block, and the order in
    which an [unordered_set] of blocks is enumerated. *)
Record Analyses : Type := mkAnalyses {
  dominates : BasicBlockPtr → option BasicBlockPtr → bool;
  postDominates : BasicBlockPtr → BasicBlockPtr → bool;
  getNode : option BasicBlockPtr → option positive;
  getIDom : positive → option positive;
  getBlock : positive → option BasicBlockPtr;
  post_order : list BasicBlockPtr;
  setBegin : gset BasicBlockPtr → BasicBlockPtr
}.

(** [llvm::Function]: its address and its blocks, the entry block
    first. *)
Record Function : Type := mkFunction {
  functionAddress : positive;
  blocks : list BasicBlockPtr
}.

Record AstBackEnd : Type := mkAstBackEnd {
  pool : DumbAllocator;
  grapher : AstGrapher;
  astPerFunction : gmap positive positive
}.

Section AstBackEnd.
Variable mem : IRMemory.
(** [getAnalysis<...>(fn)] *)
Variable getAnalysis : Function → Analyses.

(** The recursive [findBackEdgeDestinations]; [stack] is the deque
    as the call finds it, before [push_back(entry)], and as it leaves
    it. *)
Fixpoint findBackEdgeDestinationsFrom (fuel : nat) (entry : BasicBlockPtr)
    (stack : list BasicBlockPtr) (result : gset BasicBlockPtr)
    : Outcome (gset BasicBlockPtr) :=
  match fuel with
  | O => OutOfFuel
  | S fuel' =>
      foldl (λ acc bb,
               result ← acc;
               if decide (bb ∈ stack ++ [entry]) then Done ({[bb]} ∪ result)
               else findBackEdgeDestinationsFrom fuel' bb (stack ++ [entry]) result)
            (Done result) (successors mem entry)
  end.

Definition findBackEdgeDestinations (entryPoint : BasicBlockPtr)
    : Outcome (gset BasicBlockPtr) :=
  findBackEdgeDestinationsFrom (S (size (allBlocks mem))) entryPoint [] ∅.

(** [AstBackEnd::runOnRegion] and [AstBackEnd::runOnLoop]. The
    statement registered is the simplified one ([runOnLoop]: a new
    endless loop around it); [recursivelyAddBreakStatements] has an
    empty body. When the sequence collapses to its only statement the
    source registers that node itself, which then has two graph nodes
    of which [graphNodeByAstNode] keeps the later one; here its tree
    is registered under a new address all the same, so that what is
    proved of the two indices further down is kept to what holds
    whichever address is registered. *)
Definition runOnRegion (entry : BasicBlockPtr) (exit : option BasicBlockPtr)
    (this : AstBackEnd) : Outcome AstBackEnd :=
  '(sequence, pool1) ← structurizeRegion mem (grapher this) entry exit (pool this);
  simplified ← fromOption (recursivelySimplifyStatement sequence);
  let '(statement, pool2) := allocateStatement simplified pool1 in
  Done {| pool := pool2;
          grapher := updateRegion entry exit statement (grapher this);
          astPerFunction := astPerFunction this |}.

Definition runOnLoop (entry : BasicBlockPtr) (exit : option BasicBlockPtr)
    (this : AstBackEnd) : Outcome AstBackEnd :=
  '(sequence, pool1) ← structurizeRegion mem (grapher this) entry exit (pool this);
  simplified ← fromOption (recursivelySimplifyStatement sequence);
  let '(endlessLoop, pool2) :=
    allocateStatement (LoopNode None Endless simplified) pool1 in
  Done {| pool := pool2;
          grapher := updateRegion entry exit endlessLoop (grapher this);
          astPerFunction := astPerFunction this |}.

(** The [while (domNode != nullptr)] loop of [runOnFunction] for
    one [entry]: the climb along the post-dominator tree. *)
Fixpoint climbPostDominators (fuel : nat) (info : Analyses)
    (entry : BasicBlockPtr) (domNode : option positive)
    (backNodes : gset BasicBlockPtr) (this : AstBackEnd)
    : Outcome (gset BasicBlockPtr * AstBackEnd) :=
  match domNode with
  | None => Done (backNodes, this)
  | Some dom =>
      match fuel with
      | O => OutOfFuel
      | S fuel' =>
          graphNode ← deref (getGraphNodeFromEntry (grapher this) (getBlock info dom)
                             ≫= λ n, nodeStorage (grapher this) !! n);
          successor ← (if hasExit graphNode then Done (getNode info (getExit graphNode))
                       else
                         s ← deref (getNode info (getExit graphNode));
                         Done (getIDom info s));
          let exit := successor ≫= getBlock info in
          match isRegion mem (λ a b, dominates info a (Some b)) (postDominates info)
                         (setBegin info) entry exit with
          | None => OutOfFuel
          | Some true =>
              if decide (entry ∈ backNodes) then
                this ← runOnLoop entry exit this;
                climbPostDominators fuel' info entry successor
                                    (backNodes ∖ {[entry]}) this
              else
                this ← runOnRegion entry exit this;
                climbPostDominators fuel' info entry successor backNodes this
          | Some false =>
              if dominates info entry exit then
                climbPostDominators fuel' info entry successor backNodes this
              else Done (backNodes, this)
          end
      end
  end.

(** [AstBackEnd::runOnFunction] *)
Definition runOnFunction (fn : Function) (this : AstBackEnd) : Outcome AstBackEnd :=
  if decide (is_Some (astPerFunction this !! functionAddress fn)) then Done this
  else
    match blocks fn with
    | [] => Done this
    | entryBlock :: _ =>
        let info := getAnalysis fn in
        backNodes ← findBackEdgeDestinations entryBlock;
        '(_, this) ←
          foldl (λ acc entry,
                   '(backNodes, this) ← acc;
                   domNode ← deref (getNode info (Some entry));
                   let '(_, grapher1, pool1) :=
                     addBasicBlock mem entry (grapher this) (pool this) in
                   climbPostDominators (S (S (length (blocks fn)))) info entry
                     (Some domNode) backNodes
                     {| pool := pool1; grapher := grapher1;
                        astPerFunction := astPerFunction this |})
                (Done (backNodes, this)) (post_order info);
        _ ← deref (getGraphNodeFromEntry (grapher this) (Some entryBlock));
        Done this
    end.

(** [AstBackEnd::runOnModule]: the three members are cleared, then
    every function of the module is structured in turn. *)
Definition runOnModule (m : list Function) (this : AstBackEnd) : Outcome AstBackEnd :=
  foldl (λ acc fn, this ← acc; runOnFunction fn this)
        (Done {| pool := emptyPool; grapher := emptyGrapher; astPerFunction := ∅ |})
        m.
End AstBackEnd.


(** The grapher [after] still holds everything [before] held: the
    stored nodes, at the same places, and the keys of both indices. *)
Definition grapherExtends (before after : AstGrapher) : Prop :=
  nodeStorage before `prefix_of` nodeStorage after ∧
  dom (nodeByEntry before) ⊆ dom (nodeByEntry after) ∧
  dom (graphNodeByAstNode before) ⊆ dom (graphNodeByAstNode after).


(** ** Concrete inputs *)

Module Examples.
Definition plain (v : ValuePtr) : Instruction := mkInstruction v Plain.

(** The if-then-else of the spec: block 1 branches on value 10 to
    blocks 2 and 3, which both fall into block 4; block 4
    returns. *)
Definition diamond : IRMemory :=
  list_to_map
    [(1%positive, mkBasicBlock [plain 10; mkInstruction 11 (CondBr 10 2 3)]);
     (2%positive, mkBasicBlock [plain 20; mkInstruction 21 (Br 4)]);
     (3%positive, mkBasicBlock [plain 30; mkInstruction 31 (Br 4)]);
     (4%positive, mkBasicBlock [plain 40; mkInstruction 41 OtherTerminator])].

Definition diamondInfo : Analyses :=
  {| dominates := λ a b,
       match b with
       | None => true
       | Some b => bool_decide (a = b) || bool_decide (a = 1%positive)
       end;
     postDominates := λ a b, bool_decide (a = b) || bool_decide (a = 4%positive);
     getNode := λ b, b;
     getIDom := λ n, if bool_decide (n = 4%positive) then None else Some 4%positive;
     getBlock := λ n, Some n;
     post_order := [4; 2; 3; 1]%positive;
     setBegin := λ s, hd 1%positive (elements s) |}.

Definition diamondFunction : Function := mkFunction 1000 [1; 2; 3; 4]%positive.

(** A module of two functions of one block each: block 5 and block 6
    hold one instruction and a [ret]. *)
Definition twoFunctions : IRMemory :=
  list_to_map
    [(5%positive, mkBasicBlock [plain 50; mkInstruction 51 OtherTerminator]);
     (6%positive, mkBasicBlock [plain 60; mkInstruction 61 OtherTerminator])].

Definition singleBlockInfo (bb : BasicBlockPtr) : Analyses :=
  {| dominates := λ a b,
       match b with
       | None => true
       | Some b => bool_decide (a = b)
       end;
     postDominates := λ a b, bool_decide (a = b);
     getNode := λ b, b;
     getIDom := λ n, None;
     getBlock := λ n, Some n;
     post_order := [bb];
     setBegin := λ s, hd 1%positive (elements s) |}.

Definition firstFunction : Function := mkFunction 1000 [5]%positive.
Definition secondFunction : Function := mkFunction 2000 [6]%positive.

Definition moduleInfo (fn : Function) : Analyses :=
  singleBlockInfo (hd 1%positive (blocks fn)).

Definition freshBackEnd : AstBackEnd :=
  {| pool := emptyPool; grapher := emptyGrapher; astPerFunction := ∅ |}.

Definition getDone {A : Type} (fallback : A) (outcome : Outcome A) : A :=
  match outcome with
  | Done a => a
  | _ => fallback
  end.

(** The pass after the first function of the module, and after the
    second. *)
Definition afterFirst : AstBackEnd :=
  getDone freshBackEnd
    (runOnModule twoFunctions moduleInfo [firstFunction] freshBackEnd).

Definition afterSecond : AstBackEnd :=
  getDone freshBackEnd
    (runOnFunction twoFunctions moduleInfo secondFunction afterFirst).

(** The diamond structured as the only function of its module. *)
Definition afterDiamond : AstBackEnd :=
  getDone freshBackEnd
    (runOnModule diamond (λ _, diamondInfo) [diamondFunction] freshBackEnd).

(** The four blocks of the diamond added to an empty grapher, and
    the region from block 1 to block 4 folded on top of them. *)
Definition diamondLeaves : AstBackEnd :=
  foldl (λ this bb,
           let '(_, grapher1, pool1) :=
             addBasicBlock diamond bb (grapher this) (pool this) in
           {| pool := pool1; grapher := grapher1;
              astPerFunction := astPerFunction this |})
        freshBackEnd [4; 2; 3; 1]%positive.

Definition diamondRegion : AstBackEnd :=
  getDone freshBackEnd (runOnRegion diamond 1 (Some 4%positive) diamondLeaves).

(** The graph drawn in [isRegion]: block 1 branches to 2 and 4,
    block 2 falls into 3, block 3 branches to itself and to 4,
    block 4 returns. *)
Definition selfLoop : IRMemory :=
  list_to_map
    [(1%positive, mkBasicBlock [plain 10; mkInstruction 11 (CondBr 10 2 4)]);
     (2%positive, mkBasicBlock [plain 20; mkInstruction 21 (Br 3)]);
     (3%positive, mkBasicBlock [plain 30; mkInstruction 31 (CondBr 30 3 4)]);
     (4%positive, mkBasicBlock [plain 40; mkInstruction 41 OtherTerminator])].

Definition selfLoopDominates (a b : BasicBlockPtr) : bool :=
  bool_decide (a = b) || bool_decide (a = 1%positive) ||
  (bool_decide (a = 2%positive) && bool_decide (b = 3%positive)).

Definition selfLoopPostDominates (a b : BasicBlockPtr) : bool :=
  bool_decide (a = b) || bool_decide (a = 4%positive) ||
  (bool_decide (a = 3%positive) && bool_decide (b = 2%positive)).

Definition firstElement (s : gset BasicBlockPtr) : BasicBlockPtr :=
  hd 1%positive (elements s).

(** [if (!a || b || c) N; else X;]: block 1 branches on value 10 to
    block 2 or to N, block 2 on value 20 to N or to block 3, block
    3 on value 30 to N or to X; N is block 4, X is block 5, and
    both fall into block 6, which returns. *)
Definition orChain : IRMemory :=
  list_to_map
    [(1%positive, mkBasicBlock [plain 10; mkInstruction 11 (CondBr 10 2 4)]);
     (2%positive, mkBasicBlock [plain 20; mkInstruction 21 (CondBr 20 4 3)]);
     (3%positive, mkBasicBlock [plain 30; mkInstruction 31 (CondBr 30 4 5)]);
     (4%positive, mkBasicBlock [plain 40; mkInstruction 41 (Br 6)]);
     (5%positive, mkBasicBlock [plain 50; mkInstruction 51 (Br 6)]);
     (6%positive, mkBasicBlock [plain 60; mkInstruction 61 OtherTerminator])].

(** Its six blocks added to an empty grapher, in post-order. *)
Definition orChainLeaves : AstBackEnd :=
  foldl (λ this bb,
           let '(_, grapher1, pool1) :=
             addBasicBlock orChain bb (grapher this) (pool this) in
           {| pool := pool1; grapher := grapher1;
              astPerFunction := astPerFunction this |})
        freshBackEnd [6; 4; 5; 3; 2; 1]%positive.

(** The reaching conditions of the region from block 1 to block 6,
    and those of block 4 among them. *)
Definition orChainReach : BuildState :=
  getDone (mkBuildState ∅ [] [] emptyPool)
    (buildSumsOfProducts orChain (grapher orChainLeaves)
       (getGraphNodeFromEntry (grapher orChainLeaves) (Some 1%positive))
       (getGraphNodeFromEntry (grapher orChainLeaves) (Some 6%positive))
       (pool orChainLeaves)).

Definition orChainCondition : list (list ExpressionRef) :=
  default [] (nodeByEntry (grapher orChainLeaves) !! 4%positive
              ≫= λ statement, conditions orChainReach !! statement).

(** The same blocks as the one function of a module, with their
    dominators, post-dominators (block 6 is the immediate
    post-dominator of every other block) and post-order. *)
Definition orChainInfo : Analyses :=
  {| dominates := λ a b,
       match b with
       | None => true
       | Some b =>
           bool_decide (a = b) || bool_decide (a = 1%positive) ||
           (bool_decide (a = 2%positive) &&
            (bool_decide (b = 3%positive) || bool_decide (b = 5%positive))) ||
           (bool_decide (a = 3%positive) && bool_decide (b = 5%positive))
       end;
     postDominates := λ a b, bool_decide (a = b) || bool_decide (a = 6%positive);
     getNode := λ b, b;
     getIDom := λ n, if bool_decide (n = 6%positive) then None else Some 6%positive;
     getBlock := λ n, Some n;
     post_order := [6; 4; 5; 3; 2; 1]%positive;
     setBegin := λ s, hd 1%positive (elements s) |}.

Definition orChainFunction : Function := mkFunction 1000 [1; 2; 3; 4; 5; 6]%positive.

Definition afterOrChain : AstBackEnd :=
  getDone freshBackEnd
    (runOnModule orChain (λ _, orChainInfo) [orChainFunction] freshBackEnd).

(** The guard that the structured function puts on block 4. *)
Definition orChainGuard : Expression :=
  let a := ValueExpression 10 in
  let b := ValueExpression 20 in
  let c := ValueExpression 30 in
  BinaryOperatorExpression ShortCircuitAnd b
    (BinaryOperatorExpression ShortCircuitAnd c
       (BinaryOperatorExpression ShortCircuitAnd b
          (BinaryOperatorExpression ShortCircuitAnd
             (UnaryOperatorExpression LogicalNegate a)
             (BinaryOperatorExpression ShortCircuitOr
                (BinaryOperatorExpression ShortCircuitOr b c)
                (UnaryOperatorExpression LogicalNegate a))))).

(** [if (c) { if (c) X; else N; } else { if (c) N; else Y; }]: blocks
    1, 2 and 3 all branch on value 10, block 2 to X or N, block 3 to N
    or Y; X is block 4, N is block 5, Y is block 6, and the three fall
    into block 7, which returns. *)
Definition repeatedTest : IRMemory :=
  list_to_map
    [(1%positive, mkBasicBlock [plain 10; mkInstruction 11 (CondBr 10 2 3)]);
     (2%positive, mkBasicBlock [mkInstruction 21 (CondBr 10 4 5)]);
     (3%positive, mkBasicBlock [mkInstruction 31 (CondBr 10 5 6)]);
     (4%positive, mkBasicBlock [plain 40; mkInstruction 41 (Br 7)]);
     (5%positive, mkBasicBlock [plain 50; mkInstruction 51 (Br 7)]);
     (6%positive, mkBasicBlock [plain 60; mkInstruction 61 (Br 7)]);
     (7%positive, mkBasicBlock [plain 70; mkInstruction 71 OtherTerminator])].

Definition repeatedTestLeaves : AstBackEnd :=
  foldl (λ this bb,
           let '(_, grapher1, pool1) :=
             addBasicBlock repeatedTest bb (grapher this) (pool this) in
           {| pool := pool1; grapher := grapher1;
              astPerFunction := astPerFunction this |})
        freshBackEnd [7; 4; 5; 2; 6; 3; 1]%positive.

(** The reaching conditions of the region from block 1 to block 7,
    and those of block 5 among them. *)
Definition repeatedTestReach : BuildState :=
  getDone (mkBuildState ∅ [] [] emptyPool)
    (buildSumsOfProducts repeatedTest (grapher repeatedTestLeaves)
       (getGraphNodeFromEntry (grapher repeatedTestLeaves) (Some 1%positive))
       (getGraphNodeFromEntry (grapher repeatedTestLeaves) (Some 7%positive))
       (pool repeatedTestLeaves)).

Definition repeatedTestCondition : list (list ExpressionRef) :=
  default [] (nodeByEntry (grapher repeatedTestLeaves) !! 5%positive
              ≫= λ statement, conditions repeatedTestReach !! statement).

(** Two products, each the one term [Value(10)], from two nodes. *)
Definition sameTermTwice : list (list ExpressionRef) :=
  [[mkExpressionRef 1 (ValueExpression 10)];
   [mkExpressionRef 2 (ValueExpression 10)]].

(** [while (true) { 1; if (2) break; }] and the same with the
    condition negated. *)
Definition breakingLoop (cond : Expression) : Statement :=
  LoopNode None Endless
    (SequenceNode [ExpressionNode (ValueExpression 1);
                   IfElseNode cond BreakNode None]).
End Examples.


(** ** Notions used by the further properties *)

(** *** Conditions *)

(** The value of a term of a product or of a sum. *)
Definition evalTerm (assignment : Expression → bool) (term : ExpressionRef) : bool :=
  evalExpression assignment (pointee term).

(** The two shapes [build] gives to a term: the value a block
    branches on, and its negation. *)
Definition isLiteral (e : Expression) : bool :=
  match e with
  | ValueExpression _ => true
  | UnaryOperatorExpression LogicalNegate (ValueExpression _) => true
  | _ => false
  end.

(** [e] is reference-equal to the negation of [negated]. *)
Definition isNegationOf (e negated : Expression) : bool :=
  isReferenceEqual e (UnaryOperatorExpression LogicalNegate negated).

(** One of the two terms is the negation of the other. *)
Definition complementary (e u : ExpressionRef) : bool :=
  isNegationOf (pointee u) (pointee e) || isNegationOf (pointee e) (pointee u).

(** No term of the list is the negation of another. *)
Definition pairFree (terms : list ExpressionRef) : bool :=
  forallb (λ t, forallb (λ u, negb (isNegationOf (pointee u) (pointee t))) terms) terms.

(** Every term of every product is a literal. *)
Definition literalTerms (sumOfProducts : list (list ExpressionRef)) : bool :=
  forallb (forallb (λ t, isLiteral (pointee t))) sumOfProducts.

(** What [build] keeps true of its state: the products recorded and
    the condition stack hold literals only, and a statement that has
    an entry has a product. *)
Definition literalConditions (st : BuildState) : Prop :=
  (∀ statement sumOfProducts,
     conditions st !! statement = Some sumOfProducts →
     sumOfProducts ≠ [] ∧ literalTerms sumOfProducts = true) ∧
  Forall (λ t, isLiteral (pointee t) = true) (conditionStack st).

(** *** Statements *)

(** A tree of sequences that holds no statement of another kind. *)

Fixpoint isEmptySequenceTree (s : Statement) : bool :=
  match s with
  | SequenceNode statements => forallb isEmptySequenceTree statements
  | _ => false
  end.

(** Some endless loop of the tree has such a tree for a body. *)
Fixpoint hasEmptyEndlessLoop (s : Statement) : bool :=
  match s with
  | SequenceNode statements => existsb hasEmptyEndlessLoop statements
  | IfElseNode _ ifBody elseBody =>
      hasEmptyEndlessLoop ifBody ||
      match elseBody with
      | Some e => hasEmptyEndlessLoop e
      | None => false
      end
  | LoopNode _ position loopBody =>
      hasEmptyEndlessLoop loopBody ||
      (isEndless position && isEmptySequenceTree loopBody)
  | ExpressionNode _ | BreakNode => false
  end.

(** The tree holds no loop. *)
Fixpoint isLoopFree (s : Statement) : bool :=
  match s with
  | SequenceNode statements => forallb isLoopFree statements
  | IfElseNode _ ifBody elseBody =>
      isLoopFree ifBody &&
      match elseBody with
      | Some e => isLoopFree e
      | None => true
      end
  | LoopNode _ _ _ => false
  | ExpressionNode _ | BreakNode => true
  end.

(** What a statement without loops does under a truth assignment, read
    as the C code it stands for: the expression statements it runs, in
    order, and whether it ends on a [break]. A loop is given no
    meaning here. *)
Fixpoint execute (assignment : Expression → bool) (s : Statement)
    : list Expression * bool :=
  match s with
  | ExpressionNode e => ([e], false)
  | SequenceNode statements =>
      (fix go (statements : list Statement) : list Expression * bool :=
         match statements with
         | [] => ([], false)
         | first :: rest =>
             let '(trace, broke) := execute assignment first in
             if broke then (trace, true)
             else let '(trace', broke') := go rest in (trace ++ trace', broke')
         end) statements
  | IfElseNode condition ifBody elseBody =>
      if evalExpression assignment condition then execute assignment ifBody
      else match elseBody with
           | Some e => execute assignment e
           | None => ([], false)
           end
  | LoopNode _ _ _ => ([], false)
  | BreakNode => ([], true)
  end.

(** What a statement does under a truth assignment when a loop is one
    step: the expression statements and the loops it runs, in order,
    every loop whole, as the statement it is, and whether it ends on a
    [break]. A [break] inside a loop leaves that loop alone, so a
    loop never ends the statements around it. *)
Fixpoint executeSteps (assignment : Expression → bool) (s : Statement)
    : list Statement * bool :=
  match s with
  | ExpressionNode e => ([ExpressionNode e], false)
  | SequenceNode statements =>
      (fix go (statements : list Statement) : list Statement * bool :=
         match statements with
         | [] => ([], false)
         | first :: rest =>
             let '(trace, broke) := executeSteps assignment first in
             if broke then (trace, true)
             else let '(trace', broke') := go rest in (trace ++ trace', broke')
         end) statements
  | IfElseNode condition ifBody elseBody =>
      if evalExpression assignment condition then executeSteps assignment ifBody
      else match elseBody with
           | Some e => executeSteps assignment e
           | None => ([], false)
           end
  | LoopNode condition position loopBody =>
      ([LoopNode condition position loopBody], false)
  | BreakNode => ([], true)
  end.

(** *** The state of the pass *)


(** The state in which a new statement is allocated and registered. *)
Definition registerStatement (s : Statement) (entry : BasicBlockPtr)
    (exit : option BasicBlockPtr) (allocator : DumbAllocator) (this : AstBackEnd)
    : AstBackEnd :=
  {| pool := (allocateStatement s allocator).2;
     grapher := registerNode (allocateStatement s allocator).1 entry exit (grapher this);
     astPerFunction := astPerFunction this |}.

(** *** Paths of the control-flow graph *)

(** A path of the control-flow graph: every block is followed by one
    of its successors. *)
Inductive blockPath (mem : IRMemory) : list BasicBlockPtr → Prop :=
| blockPath_one bb : blockPath mem [bb]
| blockPath_cons bb next rest :
    next ∈ successors mem bb →
    blockPath mem (next :: rest) →
    blockPath mem (bb :: next :: rest).

(** [bb] closes a cycle on a path that starts with [stack] and goes on
    from [entry] without entering a block twice: the last block of the
    path branches to [bb], which lies on the path. *)
Definition closesCycle (mem : IRMemory) (stack : list BasicBlockPtr)
    (entry bb : BasicBlockPtr) : Prop :=
  ∃ ext u,
    NoDup (stack ++ entry :: ext) ∧
    blockPath mem (entry :: ext) ∧
    last (entry :: ext) = Some u ∧
    bb ∈ successors mem u ∧
    bb ∈ (stack ++ entry :: ext).

(** *** Walks of [postOrder] *)

Section OrderWalks.
Variable mem : IRMemory.
Variable grapher : AstGrapher.

(** One step of [postOrder] out of the graph node at position [n]:
    to the node resolved from its exit when it has one, to the node
    resolved from any successor of its entry block otherwise. *)
Inductive orderStep (n : nat) : option nat → Prop :=
| order_exit current :
    nodeStorage grapher !! n = Some current →
    hasExit current = true →
    orderStep n (getGraphNodeFromEntry grapher (getExit current))
| order_successor current succ :
    nodeStorage grapher !! n = Some current →
    hasExit current = false →
    succ ∈ successors mem (getEntry current) →
    orderStep n (getGraphNodeFromEntry grapher (Some succ)).

(** The node at [target] is reached from [from] along such steps
    through nodes that are not in [avoid]. *)
Inductive orderReach (avoid : gset (option nat)) : option nat → nat → Prop :=
| reach_here n :
    Some n ∉ avoid →
    is_Some (nodeStorage grapher !! n) →
    orderReach avoid (Some n) n
| reach_step n next target :
    Some n ∉ avoid →
    orderStep n next →
    orderReach avoid next target →
    orderReach avoid (Some n) target.

(** The stored nodes that [visited] does not hold. *)
Definition unvisitedOrder (visited : gset (option nat)) : gset nat :=
  filter (λ n, Some n ∉ visited) (list_to_set (seq 0 (length (nodeStorage grapher)))).

(** What a run of [postOrder] from [current] adds to its two
    containers. *)
Definition postOrderAdds (current : option nat)
    (before after : list StatementPtr * gset (option nat)) : Prop :=
  before.2 ⊆ after.2 ∧
  current ∈ after.2 ∧
  (∃ added,
     after.1 = before.1 ++ added ∧
     ∀ s, s ∈ added ↔
          ∃ k graphNode, Some k ∈ after.2 ∧ (Some k ∉ before.2) ∧
                         nodeStorage grapher !! k = Some graphNode ∧
                         node graphNode = s) ∧
  (∀ x, x ∈ after.2 → x ∉ before.2 →
     ∃ k, x = Some k ∧ orderReach before.2 current k ∧
          ∀ next, orderStep k next → next ∈ after.2).

(** What the calls of [postOrder] on the [successors] of a node add,
    taken together. *)
Definition childrenAdd (successors : list BasicBlockPtr)
    (before after : list StatementPtr * gset (option nat)) : Prop :=
  before.2 ⊆ after.2 ∧
  (∀ succ, succ ∈ successors → getGraphNodeFromEntry grapher (Some succ) ∈ after.2) ∧
  (∃ added,
     after.1 = before.1 ++ added ∧
     ∀ s, s ∈ added ↔
          ∃ k graphNode, Some k ∈ after.2 ∧ (Some k ∉ before.2) ∧
                         nodeStorage grapher !! k = Some graphNode ∧
                         node graphNode = s) ∧
  (∀ x, x ∈ after.2 → x ∉ before.2 →
     ∃ k, x = Some k ∧
          (∃ succ, succ ∈ successors ∧
                   orderReach before.2 (getGraphNodeFromEntry grapher (Some succ)) k) ∧
          ∀ next, orderStep k next → next ∈ after.2).

(** [a] is pushed before [b]. *)
Definition precedes (order : list StatementPtr) (a b : StatementPtr) : Prop :=
  ∃ i j, i < j ∧ order !! i = Some a ∧ order !! j = Some b.

(** Every visited node that is not pending has been pushed. *)
Definition pushedUnlessPending (pending : gset (option nat))
    (st : list StatementPtr * gset (option nat)) : Prop :=
  ∀ k graphNode,
    Some k ∈ st.2 → Some k ∉ pending →
    nodeStorage grapher !! k = Some graphNode →
    node graphNode ∈ st.1.

(** Where the targets of the edges out of the nodes visited between
    [before] and [after] stand: among the pending nodes, on a cycle
    through the node, or pushed before it. *)
Definition edgesOrdered (avoid pending : gset (option nat))
    (before after : list StatementPtr * gset (option nat)) : Prop :=
  ∀ k graphNode k' graphNode',
    Some k ∈ after.2 → Some k ∉ before.2 →
    nodeStorage grapher !! k = Some graphNode →
    orderStep k (Some k') →
    nodeStorage grapher !! k' = Some graphNode' →
    Some k' ∈ pending ∨
    orderReach avoid (Some k') k ∨
    precedes after.1 (node graphNode') (node graphNode).

(** The nodes [postOrder] goes to from a node. *)
Definition orderSuccessors (graphNode : AstGraphNode) : list (option nat) :=
  if hasExit graphNode then [getGraphNodeFromEntry grapher (getExit graphNode)]
  else map (λ succ, getGraphNodeFromEntry grapher (Some succ))
           (successors mem (getEntry graphNode)).

(** [rank] increases along every edge between stored nodes that does
    not enter [exit]. *)
Definition rankIncreasing (exit : option nat) (rank : nat → nat) : bool :=
  forallb (λ k,
             match nodeStorage grapher !! k with
             | Some graphNode =>
                 forallb (λ next,
                            match next with
                            | Some k' => bool_decide (next = exit) || (rank k <? rank k')
                            | None => true
                            end)
                         (orderSuccessors graphNode)
             | None => true
             end)
          (seq 0 (length (nodeStorage grapher))).

(** Every node that stands for a single block either ends in a
    [BranchInst] or has no successor at all: no block leads on
    through a [switch], nor through any other terminator that
    [llvm::successors] follows and [build] does not ([invoke],
    [indirectbr]). *)
Definition branchesOnly : bool :=
  forallb (λ graphNode,
             hasExit graphNode ||
             match terminatorAt mem (getEntry graphNode) with
             | Some terminator =>
                 match opcode terminator with
                 | Br _ | CondBr _ _ _ => true
                 | _ => bool_decide (successors mem (getEntry graphNode) = [])
                 end
             | None => bool_decide (successors mem (getEntry graphNode) = [])
             end)
          (nodeStorage grapher).
End OrderWalks.

(** *** Inserting a node under its conditions *)

(** The node under the nested tests of its sums, the first sum
    outermost. *)
Fixpoint guardedNode (productOfSums : list (list ExpressionRef))
    (nodeStatement : Statement) : option Statement :=
  match productOfSums with
  | [] => Some nodeStatement
  | sum :: rest =>
      match collapse sum ShortCircuitOr, guardedNode rest nodeStatement with
      | Some condition, Some inner =>
          Some (IfElseNode condition (SequenceNode [inner]) None)
      | _, _ => None
      end
  end.

(** The walk of [insertNode] down the last statements of [body] meets
    no empty sum, no branch to merge into that is not a sequence, and
    never makes a new [if] for a negated sum next to an [if] on
    another condition. *)
Fixpoint insertsCleanly (productOfSums : list (list ExpressionRef))
    (body : list Statement) : bool :=
  match productOfSums with
  | [] => true
  | sum :: rest =>
      match collapse sum ShortCircuitOr with
      | None => false
      | Some condition =>
          match last body with
          | Some (IfElseNode thisCondition ifBody elseBody) =>
              let '(isSumNegated, condition) := stripOneNegation condition in
              let '(isCurrentConditionNegated, strippedCondition) :=
                stripOneNegation thisCondition in
              if isReferenceEqual strippedCondition condition then
                if bool_decide (isSumNegated = isCurrentConditionNegated) then
                  match ifBody with
                  | SequenceNode statements => insertsCleanly rest statements
                  | _ => false
                  end
                else
                  match elseBody with
                  | Some (SequenceNode statements) => insertsCleanly rest statements
                  | Some _ => false
                  | None => insertsCleanly rest []
                  end
              else negb isSumNegated && insertsCleanly rest []
          | _ => insertsCleanly rest []
          end
      end
  end.

(** *** More concrete inputs *)

Module Inputs.
(** [(a && b) || !a], each term with an address of its own. *)
Definition aOrNotA : list (list ExpressionRef) :=
  [[mkExpressionRef 1 (ValueExpression 10); mkExpressionRef 2 (ValueExpression 20)];
   [mkExpressionRef 3 (UnaryOperatorExpression LogicalNegate (ValueExpression 10))]].

(** [if (!1) { if (2) { 3; { 4; } } } else { 5; }] followed by [6]. *)
Definition nestedTests : Statement :=
  SequenceNode
    [IfElseNode (UnaryOperatorExpression LogicalNegate (ValueExpression 1))
       (IfElseNode (ValueExpression 2)
          (SequenceNode [ExpressionNode (ValueExpression 3);
                         SequenceNode [ExpressionNode (ValueExpression 4)]])
          None)
       (Some (ExpressionNode (ValueExpression 5)));
     SequenceNode [ExpressionNode (ValueExpression 6)]].

(** [if (10) { 20; }], and the sums of a node reached when the value
    10 is false and the value 30 is true. *)
Definition testedBody : list Statement :=
  [IfElseNode (ValueExpression 10)
     (SequenceNode [ExpressionNode (ValueExpression 20)]) None].

Definition otherwiseAndThen : list (list ExpressionRef) :=
  [[mkExpressionRef 1 (UnaryOperatorExpression LogicalNegate (ValueExpression 10))];
   [mkExpressionRef 2 (ValueExpression 30)]].

(** [for (;;) { 40; }] *)
Definition endlessLoop : Statement :=
  LoopNode None Endless (SequenceNode [ExpressionNode (ValueExpression 40)]).

(** The rank of the nodes of [Examples.diamondLeaves]: they are stored
    in post-order, the node of the entry block last. *)
Definition diamondRank (k : nat) : nat := 4 - k.
End Inputs.


(** * Properties *)

(** ** Properties of the region predicate *)

Section IsRegionProofs.
Variable mem : IRMemory.
Variable dominates : BasicBlockPtr → BasicBlockPtr → bool.
Variable postDominates : BasicBlockPtr → BasicBlockPtr → bool.
Variable begin : gset BasicBlockPtr → BasicBlockPtr.
Hypothesis begin_elem : ∀ s : gset BasicBlockPtr, s ≠ ∅ → begin s ∈ s.

Lemma elem_of_insertUnvisited visited toVisit succs x :
  x ∈ insertUnvisited visited toVisit succs ↔
  x ∈ toVisit ∨ (x ∈ succs ∧ Some x ∉ visited).
Proof.
  unfold insertUnvisited.
  revert toVisit. induction succs as [|s succs IH]; intros toVisit; simpl.
  - set_solver.
  - rewrite IH. destruct (decide (Some s ∈ visited)) as [Hin|Hout]; set_solver.
Qed.

Lemma successors_in_allBlocks b s :
  s ∈ successors mem b → s ∈ allBlocks mem.
Proof.
  intros Hs. unfold allBlocks. apply elem_of_union; right.
  apply elem_of_union_list.
  exists (list_to_set (successors mem b)). split.
  - apply list_elem_of_fmap. exists b. split; [done|].
    apply elem_of_elements, elem_of_dom.
    unfold successors in Hs. destruct (mem !! b); [eauto|].
    by apply elem_of_nil in Hs.
  - by apply elem_of_list_to_set.
Qed.

Lemma reaches_in_universe entry exit b :
  reachesWithoutCrossing mem entry exit b → b ∈ {[entry]} ∪ allBlocks mem.
Proof.
  destruct 1 as [|b s _ Hs _]; [set_solver|].
  apply elem_of_union; right. eauto using successors_in_allBlocks.
Qed.

Lemma regionInv_closed entry exit visited P b :
  regionInv mem dominates postDominates entry exit ∅ visited P →
  reachesWithoutCrossing mem entry exit b → b ∈ P.
Proof.
  intros (Hvis & HP & _ & Hentry) Hreach.
  induction Hreach as [|b s _ IH Hs Hne].
  - destruct Hentry as [?|?]; [done|set_solver].
  - destruct (HP b IH) as (_ & _ & Hsucc).
    destruct (Hsucc s Hs) as [Hv|?]; [|set_solver].
    apply Hvis in Hv as [?|(b' & [= ->] & ?)]; [congruence|done].
Qed.

(** One round of the loop on a block that passes the test keeps the
    invariant, with that block added to the expanded ones. *)
Lemma regionInv_step entry exit toVisit visited P bb :
  regionInv mem dominates postDominates entry exit toVisit visited P →
  bb ∈ toVisit →
  regionCheck dominates postDominates entry exit bb = true →
  regionInv mem dominates postDominates entry exit
    (insertUnvisited ({[Some bb]} ∪ visited) (toVisit ∖ {[bb]}) (successors mem bb))
    ({[Some bb]} ∪ visited) ({[bb]} ∪ P).
Proof.
  intros (Hvis & HP & Htv & Hentry) Hbb Hchk.
  destruct (Htv bb Hbb) as [Hreach HnP].
  assert (∀ o, o ∈ ({[Some bb]} ∪ visited : gset (option positive)) ↔
               o = exit ∨ ∃ b, o = Some b ∧ b ∈ ({[bb]} ∪ P : gset positive)) as Hvis'.
  { intros o. rewrite elem_of_union, elem_of_singleton, Hvis. split.
    - intros [->|[->|(b & -> & ?)]]; [right; exists bb; set_solver|by left|].
      right. exists b. set_solver.
    - intros [->|(b & -> & [->%elem_of_singleton|?]%elem_of_union)]; eauto. }
  split; [exact Hvis'|]. split; [|split].
  - intros b Hb.
    assert (reachesWithoutCrossing mem entry exit b ∧
            regionCheck dominates postDominates entry exit b = true) as [? ?].
    { apply elem_of_union in Hb as [->%elem_of_singleton|Hb]; [done|].
      destruct (HP b Hb) as (? & ? & _). done. }
    split; [done|]. split; [done|].
    intros s Hs. rewrite elem_of_insertUnvisited.
    destruct (decide (Some s ∈ ({[Some bb]} ∪ visited : gset (option positive))))
      as [?|Hnv]; [by left|]. right.
    apply elem_of_union in Hb as [->%elem_of_singleton|Hb]; [by right|].
    destruct (HP b Hb) as (_ & _ & Hsucc).
    destruct (Hsucc s Hs) as [?|?]; [exfalso; apply Hnv; set_solver|].
    left. apply elem_of_difference. split; [done|].
    intros ->%elem_of_singleton. apply Hnv. set_solver.
  - intros b [Hb|[Hs Hnv]]%elem_of_insertUnvisited.
    + apply elem_of_difference in Hb as [Hb Hnb].
      destruct (Htv b Hb). split; [done|]. set_solver.
    + split.
      * eapply rwc_step; [exact Hreach|done|].
        intros Heq. apply Hnv, Hvis'. by left.
      * intros Hb. apply Hnv, Hvis'. right. eauto.
  - destruct Hentry as [?|He]; [left; set_solver|].
    destruct (decide (entry = bb)) as [->|?]; [left; set_solver|].
    right. apply elem_of_insertUnvisited. left. set_solver.
Qed.

Lemma isRegionLoop_spec fuel entry exit toVisit visited P :
  regionInv mem dominates postDominates entry exit toVisit visited P →
  size (({[entry]} ∪ allBlocks mem) ∖ P) < fuel →
  ∃ r, isRegionLoop mem dominates postDominates begin fuel entry exit
         toVisit visited = Some r ∧
       (r = true ↔
        ∀ b, reachesWithoutCrossing mem entry exit b →
             regionCheck dominates postDominates entry exit b = true).
Proof.
  revert toVisit visited P.
  induction fuel as [|fuel IH]; intros toVisit visited P Inv Hfuel; [lia|].
  simpl. destruct (decide (size toVisit = 0)) as [Hemp|Hne].
  - apply size_empty_iff, leibniz_equiv in Hemp. subst toVisit.
    exists true. split; [done|]. split; [|done]. intros _ b Hb.
    pose proof (regionInv_closed _ _ _ _ _ Inv Hb) as HbP.
    destruct Inv as (_ & HP & _). by apply (HP b).
  - assert (begin toVisit ∈ toVisit) as Hbb.
    { apply begin_elem. intros ->. by rewrite size_empty in Hne. }
    destruct (proj1 (proj2 (proj2 Inv)) _ Hbb) as [Hreach HnP].
    destruct (regionCheck dominates postDominates entry exit (begin toVisit)) eqn:Hchk.
    + apply (IH _ _ ({[begin toVisit]} ∪ P)); [by apply regionInv_step|].
      assert (begin toVisit ∈ ({[entry]} ∪ allBlocks mem) ∖ P) as Hin.
      { apply elem_of_difference. eauto using reaches_in_universe. }
      assert (({[entry]} ∪ allBlocks mem) ∖ ({[begin toVisit]} ∪ P) ⊂
              ({[entry]} ∪ allBlocks mem) ∖ P) as Hsub by set_solver.
      apply subset_size in Hsub. lia.
    + exists false. split; [done|]. split; [done|].
      intros Hall. rewrite (Hall _ Hreach) in Hchk. done.
Qed.

Lemma regionInv_init entry exit :
  regionInv mem dominates postDominates entry exit {[entry]} {[exit]} ∅.
Proof.
  repeat split.
  - intros ->%elem_of_singleton. by left.
  - intros [->|(b & _ & ?)]; set_solver.
  - set_solver.
  - set_solver.
  - set_solver.
  - apply elem_of_singleton in H. subst. constructor.
  - set_solver.
  - right. set_solver.
Qed.

(** C1. For every entry block and every exit (a block or null),
    [isRegion] returns, and it returns true exactly when every block
    reachable from the entry without crossing the exit is dominated
    by the entry and, for a non-null exit, post-dominated by the
    exit. The exit is not among these blocks, unless it is the
    entry itself, which is always tested. A round of the loop whose
    block fails the test answers false at once. *)
Theorem isRegion_iff_region entry exit :
  (∃ r, isRegion mem dominates postDominates begin entry exit = Some r ∧
        (r = true ↔
         ∀ b, reachesWithoutCrossing mem entry exit b →
              dominates entry b = true ∧
              (exit = None ∨ ∃ e, exit = Some e ∧ postDominates e b = true))) ∧
  (∀ b, reachesWithoutCrossing mem entry exit b → Some b = exit → b = entry) ∧
  (∀ fuel toVisit visited,
     toVisit ≠ ∅ →
     regionCheck dominates postDominates entry exit (begin toVisit) = false →
     isRegionLoop mem dominates postDominates begin (S fuel) entry exit
       toVisit visited = Some false).
Proof.
  split; [|split].
  - destruct (isRegionLoop_spec (S (size ({[entry]} ∪ allBlocks mem)))
                entry exit {[entry]} {[exit]} ∅ (regionInv_init entry exit))
      as (r & Hr & Hiff).
    { rewrite difference_empty_L. lia. }
    exists r. split; [exact Hr|]. rewrite Hiff.
    split; intros Hall b Hb; specialize (Hall b Hb); unfold regionCheck in *.
    + apply andb_true_iff in Hall as [? ?]. split; [done|].
      destruct exit; eauto.
    + destruct Hall as [-> [->|(e & -> & ->)]]; done.
  - intros b [|b' s _ _ Hne] Hb; [done|]. by destruct Hne.
  - intros fuel toVisit visited Hne Hcheck. simpl.
    destruct (decide (size toVisit = 0)) as [Hemp|_].
    + by apply size_empty_iff, leibniz_equiv in Hemp.
    + by rewrite Hcheck.
Qed.
End IsRegionProofs.

(** ** Properties of the recursive AST simplification *)

(** Induction on statements that reaches the statements of a sequence
    and the else branch. *)
Lemma Statement_ind (P : Statement → Prop) :
  (∀ e, P (ExpressionNode e)) →
  (∀ statements, Forall P statements → P (SequenceNode statements)) →
  (∀ c ifBody, P ifBody → P (IfElseNode c ifBody None)) →
  (∀ c ifBody e, P ifBody → P e → P (IfElseNode c ifBody (Some e))) →
  (∀ c position loopBody, P loopBody → P (LoopNode c position loopBody)) →
  P BreakNode →
  ∀ s, P s.
Proof.
  intros Hexpr Hseq Hif Hifelse Hloop Hbreak.
  fix IH 1. intros [e|statements|c ifBody [e|]|c position loopBody|].
  - apply Hexpr.
  - apply Hseq. induction statements as [|x l IHl]; constructor; [apply IH|exact IHl].
  - apply Hifelse; apply IH.
  - apply Hif; apply IH.
  - apply Hloop; apply IH.
  - apply Hbreak.
Qed.

Lemma stripNegations_not_negated condition :
  isLogicalNegate (stripNegations condition).1 = false.
Proof.
  induction condition as [v|[|n] operand IH|t l _ r _]; simpl; try done.
  by destruct (stripNegations operand).
Qed.

Lemma stripNegations_fixed condition :
  isLogicalNegate condition = false → stripNegations condition = (condition, false).
Proof. by destruct condition as [v|[|n] operand|t l r]. Qed.

Lemma logicalNegate_cases toNegate :
  (∃ operand, toNegate = UnaryOperatorExpression LogicalNegate operand ∧
              logicalNegate toNegate = operand) ∨
  (isLogicalNegate toNegate = false ∧
   logicalNegate toNegate = UnaryOperatorExpression LogicalNegate toNegate).
Proof. destruct toNegate as [v|[|n] operand|t l r]; simpl; eauto. Qed.

Lemma simplifySubStatements_Forall (P : Statement → Prop) rec statements simplified :
  (∀ l, P (SequenceNode l) → Forall P l) →
  Forall (λ s, ∀ s', rec s = Some s' → P s') statements →
  simplifySubStatements rec statements = Some simplified →
  Forall P simplified.
Proof.
  intros Hseq Hall. revert simplified.
  induction Hall as [|sub rest Hsub _ IH]; intros simplified; simpl.
  - intros [= <-]. constructor.
  - destruct (rec sub) as [asSimplified|] eqn:Hrec; [|done].
    destruct (simplifySubStatements rec rest) as [tail|]; [|done].
    specialize (Hsub _ eq_refl). specialize (IH _ eq_refl).
    intros [= <-].
    destruct asSimplified; try (by constructor).
    apply Forall_app. split; [by apply Hseq|done].
Qed.

Lemma elseConditionsNotNegated_sequence l :
  elseConditionsNotNegated (SequenceNode l) = true ↔
  Forall (λ s, elseConditionsNotNegated s = true) l.
Proof. simpl. rewrite forallb_forall, Forall_forall. by setoid_rewrite list_elem_of_In. Qed.

Lemma collapseSingleton_Forall (P : Statement → Prop) simplified :
  (∀ l, Forall P l → P (SequenceNode l)) →
  Forall P simplified → P (collapseSingleton simplified).
Proof.
  intros Hseq Hall. destruct simplified as [|x [|y l]]; simpl; auto.
  by inversion Hall.
Qed.

Lemma rewriteLoop_elseConditionsNotNegated condition position loopBody s' :
  elseConditionsNotNegated loopBody = true →
  rewriteLoop condition position loopBody = Some s' →
  elseConditionsNotNegated s' = true.
Proof.
  intros Hbody. unfold rewriteLoop.
  destruct (isEndless position); [|by intros [= <-]].
  destruct loopBody as [e|statements|c t e|c p b|]; try (by intros [= <-]).
  destruct (last statements) as [[e|l|c [| | | |] e|c p b|]|] eqn:Hlast;
    try (by intros [= <-]).
  intros [= <-]. simpl.
  apply elseConditionsNotNegated_sequence in Hbody.
  apply forallb_forall. intros x Hx%list_elem_of_In.
  rewrite Forall_forall in Hbody. apply Hbody.
  apply last_Some in Hlast as [l' ->]. rewrite removelast_last in Hx.
  set_solver.
Qed.

Lemma recursivelySimplifyStatement_elseConditionsNotNegated s s' :
  recursivelySimplifyStatement s = Some s' →
  elseConditionsNotNegated s' = true.
Proof.
  revert s'. induction s as [e|statements IH|c ifBody IH|c ifBody e IHif IHelse
                              |c position loopBody IH|] using Statement_ind;
    intros s'; simpl;
    unfold recursivelySimplifySequence, recursivelySimplifyIfElse,
      recursivelySimplifyLoop.
  - by intros [= <-].
  - destruct (simplifySubStatements _ statements) as [simplified|] eqn:Hsub; [|done].
    intros [= <-].
    apply (collapseSingleton_Forall (λ s, elseConditionsNotNegated s = true)).
    { intros l. apply elseConditionsNotNegated_sequence. }
    eapply simplifySubStatements_Forall; [|exact IH|exact Hsub].
    intros l. apply elseConditionsNotNegated_sequence.
  - destruct (recursivelySimplifyStatement ifBody) as [newIfBody|]; [|done].
    specialize (IH _ eq_refl).
    destruct newIfBody as [e|l|c' t [e|]|c' p b|]; intros [= <-]; simpl in *;
      rewrite ?andb_true_r; try done.
    by apply andb_true_iff in IH as [? _].
  - pose proof (stripNegations_not_negated c) as Hneg.
    destruct (stripNegations c) as [newCondition swapped]. simpl in Hneg.
    destruct swapped.
    + destruct (recursivelySimplifyStatement e) as [newIfBody|]; [|done].
      destruct (recursivelySimplifyStatement ifBody) as [newElseBody|]; [|done].
      intros [= <-]. simpl. by rewrite Hneg, (IHif _ eq_refl), (IHelse _ eq_refl).
    + destruct (recursivelySimplifyStatement ifBody) as [newIfBody|]; [|done].
      destruct (recursivelySimplifyStatement e) as [newElseBody|]; [|done].
      intros [= <-]. simpl. by rewrite Hneg, (IHif _ eq_refl), (IHelse _ eq_refl).
  - destruct (recursivelySimplifyStatement loopBody) as [newBody|]; [|done].
    apply rewriteLoop_elseConditionsNotNegated. by apply IH.
  - by intros [= <-].
Qed.

(** *** The shape of simplified statements *)

Lemma simplifiedShape_sequence l :
  simplifiedShape (SequenceNode l) = true ↔
  length l ≠ 1 ∧ Forall (λ x, isSequence x = false ∧ simplifiedShape x = true) l.
Proof.
  simpl. rewrite andb_true_iff, negb_true_iff, Nat.eqb_neq, forallb_forall, Forall_forall.
  setoid_rewrite list_elem_of_In. setoid_rewrite andb_true_iff.
  by setoid_rewrite negb_true_iff.
Qed.

Lemma simplifySubStatements_shape rec statements simplified :
  Forall (λ s, ∀ s', rec s = Some s' → simplifiedShape s' = true) statements →
  simplifySubStatements rec statements = Some simplified →
  Forall (λ x, isSequence x = false ∧ simplifiedShape x = true) simplified.
Proof.
  intros Hall. revert simplified.
  induction Hall as [|sub rest Hsub _ IH]; intros simplified; simpl.
  - intros [= <-]. constructor.
  - destruct (rec sub) as [asSimplified|] eqn:Hrec; [|done].
    destruct (simplifySubStatements rec rest) as [tail|]; [|done].
    specialize (Hsub _ eq_refl). specialize (IH _ eq_refl).
    intros [= <-].
    destruct asSimplified; try (by constructor).
    apply Forall_app. split; [|done].
    by apply simplifiedShape_sequence in Hsub as [_ ?].
Qed.

Lemma collapseSingleton_shape simplified :
  Forall (λ x, isSequence x = false ∧ simplifiedShape x = true) simplified →
  simplifiedShape (collapseSingleton simplified) = true.
Proof.
  intros Hall. destruct simplified as [|x [|y l]].
  - done.
  - simpl. by inversion Hall as [|? ? [_ ?] _].
  - apply simplifiedShape_sequence. split; [simpl; lia|done].
Qed.

Lemma rewriteLoop_shape condition position loopBody s' :
  simplifiedShape loopBody = true →
  rewriteLoop condition position loopBody = Some s' →
  simplifiedShape s' = true.
Proof.
  intros Hbody. unfold rewriteLoop.
  destruct (isEndless position) eqn:Hendless.
  - destruct loopBody as [e|statements|c t e|c p b|];
      try (intros [= <-]; simpl; rewrite Hendless;
           destruct position; simpl in *; by rewrite ?Hbody, ?andb_true_r).
    apply simplifiedShape_sequence in Hbody as [Hlen Hall].
    destruct (last statements) as [final|] eqn:Hlast; [|done].
    assert (∀ s, s = LoopNode condition position (SequenceNode statements) →
                 endsWithBreakIf statements = false →
                 simplifiedShape s = true) as Hkeep.
    { intros s -> Hends.
      assert (simplifiedShape (SequenceNode statements) = true) as Hseq
        by by apply simplifiedShape_sequence.
      destruct position; try done.
      simpl in Hseq |- *. rewrite Hseq, Hends. simpl.
      destruct statements; [done|]. done. }
    destruct final as [e|l|c final_if elseBody|c p b|];
      try (intros [= <-]; apply (Hkeep _ eq_refl); unfold endsWithBreakIf;
           by rewrite Hlast).
    destruct final_if;
      try (intros [= <-]; apply (Hkeep _ eq_refl); unfold endsWithBreakIf;
           by rewrite Hlast).
    intros [= <-].
    apply last_Some in Hlast as [init ->]. rewrite removelast_last.
    apply Forall_app in Hall as [Hinit _].
    destruct init as [|x [|y init]].
    + rewrite length_app in Hlen. simpl in Hlen. lia.
    + inversion Hinit as [|? ? [Hx1 Hx2] _]. simpl. by rewrite Hx1, Hx2.
    + change (simplifiedShape (SequenceNode (x :: y :: init)) &&
              negb (isEndless PostTested && (endsWithBreakIf (x :: y :: init) ||
                    (length (x :: y :: init) =? 0))) = true).
      rewrite andb_true_iff. split; [|done].
      apply simplifiedShape_sequence. split; [simpl; lia|done].
  - intros [= <-]. destruct position; try done.
    + simpl. by rewrite Hbody.
    + destruct loopBody as [e|[|x [|y l]]|c t e|c p b|]; simpl in *;
        rewrite ?andb_true_r; done.
Qed.

Lemma recursivelySimplifyStatement_shape s s' :
  recursivelySimplifyStatement s = Some s' → simplifiedShape s' = true.
Proof.
  revert s'. induction s as [e|statements IH|c ifBody IH|c ifBody e IHif IHelse
                              |c position loopBody IH|] using Statement_ind;
    intros s'; simpl;
    unfold recursivelySimplifySequence, recursivelySimplifyIfElse,
      recursivelySimplifyLoop.
  - by intros [= <-].
  - destruct (simplifySubStatements _ statements) as [simplified|] eqn:Hsub; [|done].
    intros [= <-]. apply collapseSingleton_shape.
    by eapply simplifySubStatements_shape.
  - destruct (recursivelySimplifyStatement ifBody) as [newIfBody|]; [|done].
    specialize (IH _ eq_refl).
    destruct newIfBody as [e|l|c' t [e|]|c' p b|]; intros [= <-];
      by simpl in *; rewrite ?IH.
  - pose proof (stripNegations_not_negated c) as Hneg.
    destruct (stripNegations c) as [newCondition swapped]. simpl in Hneg.
    destruct swapped.
    + destruct (recursivelySimplifyStatement e) as [newIfBody|]; [|done].
      destruct (recursivelySimplifyStatement ifBody) as [newElseBody|]; [|done].
      intros [= <-]. simpl. by rewrite Hneg, (IHif _ eq_refl), (IHelse _ eq_refl).
    + destruct (recursivelySimplifyStatement ifBody) as [newIfBody|]; [|done].
      destruct (recursivelySimplifyStatement e) as [newElseBody|]; [|done].
      intros [= <-]. simpl. by rewrite Hneg, (IHif _ eq_refl), (IHelse _ eq_refl).
  - destruct (recursivelySimplifyStatement loopBody) as [newBody|]; [|done].
    apply rewriteLoop_shape. by apply IH.
  - by intros [= <-].
Qed.

Lemma simplifySubStatements_fixed rec statements :
  Forall (λ x, isSequence x = false ∧ rec x = Some x) statements →
  simplifySubStatements rec statements = Some statements.
Proof.
  induction 1 as [|x l [Hseq Hrec] _ IH]; simpl; [done|].
  rewrite Hrec, IH. by destruct x.
Qed.

Lemma rewriteLoop_fixed condition position loopBody :
  simplifiedShape (LoopNode condition position loopBody) = true →
  hasSingletonLoopBody (LoopNode condition position loopBody) = false →
  rewriteLoop condition position loopBody = Some (LoopNode condition position loopBody).
Proof.
  intros Hshape Hsingle. unfold rewriteLoop.
  destruct (isEndless position) eqn:Hendless; [|done].
  destruct position; try done.
  destruct loopBody as [e|statements|c t e|c p b|]; try done.
  simpl in Hshape. apply andb_true_iff in Hshape as [_ Hends].
  apply negb_true_iff, orb_false_iff in Hends as [Hends Hlen].
  unfold endsWithBreakIf in Hends.
  destruct (last statements) as [[e|l|c [| | | |] e|c p b|]|] eqn:Hlast; try done.
  apply last_None in Hlast. by subst.
Qed.

Lemma recursivelySimplifyStatement_fixed s :
  simplifiedShape s = true →
  hasSingletonLoopBody s = false →
  recursivelySimplifyStatement s = Some s.
Proof.
  induction s as [e|statements IH|c ifBody IH|c ifBody e IHif IHelse
                  |c position loopBody IH|] using Statement_ind;
    intros Hshape Hsingle; try done.
  - apply simplifiedShape_sequence in Hshape as [Hlen Hall].
    simpl in Hsingle |- *. unfold recursivelySimplifySequence.
    rewrite (simplifySubStatements_fixed _ statements).
    + by destruct statements as [|x [|y l]].
    + rewrite Forall_forall in IH, Hall |- *. intros x Hx.
      destruct (Hall x Hx) as [? ?]. split; [done|].
      apply IH; [done..|].
      destruct (hasSingletonLoopBody x) eqn:Hx'; [|done].
      rewrite <- Hsingle. symmetry. apply existsb_exists.
      exists x. by rewrite <- list_elem_of_In.
  - simpl in Hshape, Hsingle |- *. unfold recursivelySimplifyIfElse.
    apply andb_true_iff in Hshape as [Hshape Hnot].
    rewrite orb_false_r in Hsingle. rewrite (IH Hshape Hsingle).
    by destruct ifBody as [?|?|? ? [?|]|? ? ?|].
  - simpl in Hshape, Hsingle |- *. unfold recursivelySimplifyIfElse.
    apply andb_true_iff in Hshape as [[Hneg Hif]%andb_true_iff Helse].
    apply orb_false_iff in Hsingle as [? ?].
    rewrite stripNegations_fixed by by apply negb_true_iff.
    by rewrite IHif, IHelse.
  - assert (simplifiedShape loopBody = true ∧ hasSingletonLoopBody loopBody = false)
      as [Hbody Hbody'].
    { simpl in Hsingle. apply orb_false_iff in Hsingle as [Hone ?]. split; [|done].
      destruct position, loopBody as [?|[|? [|? ?]]|? ? ?|? ? ?|]; simpl in *;
        try done; by apply andb_true_iff in Hshape as [? _]. }
    simpl. unfold recursivelySimplifyLoop. rewrite (IH Hbody Hbody').
    by apply rewriteLoop_fixed.
Qed.

(** C6 (as amended). When the loop is endless and its simplified body
    is a sequence whose last statement is an [IfElseNode] with the
    break sentinel as [ifBody], the loop becomes post-tested, the
    trailing [IfElseNode] is dropped from the body sequence, and the
    new condition is [logicalNegate] of the [if] condition: the
    operand [x] when that condition is [UnaryNot(x)], and
    [UnaryNot(cond)] only otherwise. *)
Theorem recursivelySimplifyLoop_doWhile condition loopBody statements cond elseBody :
  recursivelySimplifyStatement loopBody = Some (SequenceNode statements) →
  last statements = Some (IfElseNode cond BreakNode elseBody) →
  ∃ newCondition,
    recursivelySimplifyStatement (LoopNode condition Endless loopBody) =
      Some (LoopNode (Some newCondition) PostTested
                     (SequenceNode (removelast statements))) ∧
    statements = removelast statements ++ [IfElseNode cond BreakNode elseBody] ∧
    ((∃ x, cond = UnaryOperatorExpression LogicalNegate x ∧ newCondition = x) ∨
     (isLogicalNegate cond = false ∧
      newCondition = UnaryOperatorExpression LogicalNegate cond)).
Proof.
  intros Hbody Hlast. exists (logicalNegate cond). split; [|split].
  - simpl. unfold recursivelySimplifyLoop. rewrite Hbody.
    unfold rewriteLoop. simpl. by rewrite Hlast.
  - apply last_Some in Hlast as [init ->]. by rewrite removelast_last.
  - apply logicalNegate_cases.
Qed.

(** C8 (as amended). Simplifying the result of a simplification again
    returns it unchanged, provided the result holds no loop whose body
    is a sequence of exactly one statement (what the do-while rewrite
    leaves of a two-statement body). *)
Theorem recursivelySimplifyStatement_idempotent s s' :
  recursivelySimplifyStatement s = Some s' →
  hasSingletonLoopBody s' = false →
  recursivelySimplifyStatement s' = Some s'.
Proof.
  intros Hs Hsingle. apply recursivelySimplifyStatement_fixed; [|done].
  by eapply recursivelySimplifyStatement_shape.
Qed.

(** ** Properties of the grapher *)

(** C5 (as amended). [addBasicBlock] returns a sequence that holds, in
    instruction order, one expression statement wrapping the value of
    every instruction of the block that is neither a [BranchInst] nor
    a [SwitchInst]; a terminator of another kind, such as [ret], does
    get its statement. *)
Theorem addBasicBlock_statements mem bb grapher0 pool0 :
  ∃ kept,
    statementAt (addBasicBlock mem bb grapher0 pool0).2
      !! (addBasicBlock mem bb grapher0 pool0).1.1 =
      Some (SequenceNode
              (map (λ inst, ExpressionNode (ValueExpression (instValue inst))) kept)) ∧
    sublist kept (instructionsAt mem bb) ∧
    ∀ inst, inst ∈ kept ↔
            inst ∈ instructionsAt mem bb ∧
            (opcode inst = Plain ∨ opcode inst = OtherTerminator).
Proof.
  exists (filter (λ inst, isKeptInstruction inst = true) (instructionsAt mem bb)).
  split; [|split].
  - unfold addBasicBlock, allocateStatement. simpl. apply lookup_insert_eq.
  - apply sublist_filter.
  - intros inst. rewrite list_elem_of_filter. unfold isKeptInstruction.
    destruct (opcode inst); naive_solver.
Qed.

(** C5 as stated fails: the block [40; ret] of the diamond gets two
    statements, one of them for the [ret], where the claim has one
    statement per non-terminator instruction. *)
Lemma addBasicBlock_keeps_other_terminators :
  let result := addBasicBlock Examples.diamond 4 emptyGrapher emptyPool in
  statementAt result.2 !! result.1.1 ≠
    Some (SequenceNode
            (map (λ inst, ExpressionNode (ValueExpression (instValue inst)))
                 (filter (λ inst, isTerminator inst = false)
                         (instructionsAt Examples.diamond 4)))) ∧
  statementAt result.2 !! result.1.1 =
    Some (SequenceNode [ExpressionNode (ValueExpression 40);
                        ExpressionNode (ValueExpression 41)]).
Proof. split; [|reflexivity]. vm_compute. discriminate. Qed.

(** C4 (as amended). A second [addBasicBlock] of the same block is
    not a lookup: it allocates a new sequence, with the same
    statements, appends a new leaf node to the node storage and turns
    both indices to it; the node and the index entry of the first
    statement stay. *)
Theorem addBasicBlock_again mem bb grapher0 pool0 :
  let first := addBasicBlock mem bb grapher0 pool0 in
  let second := addBasicBlock mem bb first.1.2 first.2 in
  second.1.1 ≠ first.1.1 ∧
  statementAt second.2 !! second.1.1 = statementAt first.2 !! first.1.1 ∧
  nodeStorage second.1.2 =
    nodeStorage first.1.2 ++ [mkAstGraphNode second.1.1 bb (Some bb)] ∧
  nodeByEntry second.1.2 !! bb = Some second.1.1 ∧
  graphNodeByAstNode second.1.2 !! second.1.1 = Some (length (nodeStorage first.1.2)) ∧
  graphNodeByAstNode second.1.2 !! first.1.1 = Some (length (nodeStorage grapher0)).
Proof.
  unfold addBasicBlock, allocateStatement, registerNode. simpl.
  assert (Pos.succ (nextAddress pool0) ≠ nextAddress pool0) as Hne by lia.
  repeat split.
  - done.
  - by rewrite !lookup_insert_eq.
  - apply lookup_insert_eq.
  - apply lookup_insert_eq.
  - rewrite lookup_insert_ne by done. apply lookup_insert_eq.
Qed.

(** C4 as stated fails: added twice, block 4 of the diamond gets a
    second statement and a second graph node. *)
Lemma addBasicBlock_not_idempotent :
  let first := addBasicBlock Examples.diamond 4 emptyGrapher emptyPool in
  let second := addBasicBlock Examples.diamond 4 first.1.2 first.2 in
  first.1.1 = 1%positive ∧ second.1.1 = 2%positive ∧
  length (nodeStorage first.1.2) = 1 ∧ length (nodeStorage second.1.2) = 2 ∧
  ¬ (second.1.1 = first.1.1 ∧ second.1.2 = first.1.2).
Proof.
  repeat split; try reflexivity. intros [Heq _]. vm_compute in Heq. discriminate.
Qed.

(** ** Properties of the pass *)

Lemma bind_Done {A B : Type} (m : Outcome A) (f : A → Outcome B) b :
  m ≫= f = Done b → ∃ a, m = Done a ∧ f a = Done b.
Proof. destruct m as [a| |]; [eauto|done|done]. Qed.

Lemma foldl_Outcome_inv {A B : Type} (P : A → Prop) (f : A → B → Outcome A) l :
  (∀ a b a', P a → f a b = Done a' → P a') →
  ∀ acc r,
    (∀ a, acc = Done a → P a) →
    foldl (λ acc b, acc ≫= λ a, f a b) acc l = Done r → P r.
Proof.
  intros Hstep. induction l as [|b l IH]; intros acc r Hacc; simpl.
  - intros ->. by apply Hacc.
  - apply IH. intros a' (a & -> & Hf)%bind_Done. eauto.
Qed.

Lemma grapherExtends_refl g : grapherExtends g g.
Proof. by repeat split. Qed.

Lemma grapherExtends_trans g1 g2 g3 :
  grapherExtends g1 g2 → grapherExtends g2 g3 → grapherExtends g1 g3.
Proof.
  intros (? & ? & ?) (? & ? & ?). repeat split; [by etrans|set_solver..].
Qed.

Lemma registerNode_extends statement entry exit g :
  grapherExtends g (registerNode statement entry exit g).
Proof.
  unfold registerNode. repeat split; simpl.
  - by apply prefix_app_r.
  - rewrite dom_insert_L. set_solver.
  - rewrite dom_insert_L. set_solver.
Qed.

Lemma runOnRegion_extends mem entry exit this this' :
  runOnRegion mem entry exit this = Done this' →
  grapherExtends (grapher this) (grapher this').
Proof.
  unfold runOnRegion.
  intros ([sequence pool1] & _ & (simplified & _ & H)%bind_Done)%bind_Done.
  simpl in H. injection H as <-. apply registerNode_extends.
Qed.

Lemma runOnLoop_extends mem entry exit this this' :
  runOnLoop mem entry exit this = Done this' →
  grapherExtends (grapher this) (grapher this').
Proof.
  unfold runOnLoop.
  intros ([sequence pool1] & _ & (simplified & _ & H)%bind_Done)%bind_Done.
  simpl in H. injection H as <-. apply registerNode_extends.
Qed.

Lemma climbPostDominators_extends mem fuel info entry domNode backNodes this r :
  climbPostDominators mem fuel info entry domNode backNodes this = Done r →
  grapherExtends (grapher this) (grapher r.2).
Proof.
  revert domNode backNodes this.
  induction fuel as [|fuel IH]; intros [dom|] backNodes this; simpl; try done;
    try (intros [= <-]; apply grapherExtends_refl).
  intros (graphNode & _ & (successor & _ & H)%bind_Done)%bind_Done.
  destruct (isRegion _ _ _ _ _ _) as [[|]|]; [| |done].
  - destruct (decide (entry ∈ backNodes)).
    + apply bind_Done in H as (this1 & Hrun & H).
      eapply grapherExtends_trans; [by eapply runOnLoop_extends|by eapply IH].
    + apply bind_Done in H as (this1 & Hrun & H).
      eapply grapherExtends_trans; [by eapply runOnRegion_extends|by eapply IH].
  - destruct (dominates info entry _); [by eapply IH|].
    injection H as <-. apply grapherExtends_refl.
Qed.

Lemma runOnFunction_extends mem getAnalysis fn this this' :
  runOnFunction mem getAnalysis fn this = Done this' →
  grapherExtends (grapher this) (grapher this').
Proof.
  unfold runOnFunction.
  destruct (decide _); [intros [= <-]; apply grapherExtends_refl|].
  destruct (blocks fn) as [|entryBlock rest]; [intros [= <-]; apply grapherExtends_refl|].
  intros (backNodes & _ & ([backNodes' final] & Hfold & H)%bind_Done)%bind_Done.
  apply bind_Done in H as (_ & _ & [= <-]).
  revert Hfold.
  apply (foldl_Outcome_inv
           (λ a : gset positive * AstBackEnd, grapherExtends (grapher this) (grapher a.2))
           (λ (a : gset positive * AstBackEnd) entry,
              let '(backNodes, this) := a in
              domNode ← deref (getNode (getAnalysis fn) (Some entry));
              let '(_, grapher1, pool1) :=
                addBasicBlock mem entry (grapher this) (pool this) in
              climbPostDominators mem (S (S (length (entryBlock :: rest))))
                (getAnalysis fn) entry (Some domNode) backNodes
                {| pool := pool1; grapher := grapher1;
                   astPerFunction := astPerFunction this |})).
  - intros [bn a] entry a' Ha (domNode & _ & Hclimb)%bind_Done.
    destruct (addBasicBlock mem entry (grapher a) (pool a)) as [[st g1] p1] eqn:Hadd.
    apply climbPostDominators_extends in Hclimb.
    unfold addBasicBlock, allocateStatement in Hadd. injection Hadd as _ <- _.
    eapply grapherExtends_trans; [exact Ha|].
    eapply grapherExtends_trans; [|exact Hclimb].
    apply registerNode_extends.
  - intros a [= <-]. apply grapherExtends_refl.
Qed.

Lemma registerNode_lookup statement entry exit g :
  getGraphNodeFromEntry (registerNode statement entry exit g) (Some entry)
    ≫= (λ n, nodeStorage (registerNode statement entry exit g) !! n) =
  Some (mkAstGraphNode statement entry exit).
Proof.
  unfold getGraphNodeFromEntry, getGraphNode, registerNode. simpl.
  rewrite !lookup_insert_eq. simpl.
  rewrite lookup_app_r by done. by rewrite Nat.sub_diag.
Qed.

(** C7. The statement that [runOnRegion] or [runOnLoop] registers for
    a region is found through the entry block, in a node with the
    bounds of the region, and no [IfElseNode] in it that has an else
    branch has a [LogicalNegate] for a condition. *)
Theorem registered_ast_else_conditions mem entry exit this this' :
  runOnRegion mem entry exit this = Done this' ∨
  runOnLoop mem entry exit this = Done this' →
  ∃ statement ast,
    getGraphNodeFromEntry (grapher this') (Some entry)
      ≫= (λ n, nodeStorage (grapher this') !! n) =
      Some (mkAstGraphNode statement entry exit) ∧
    statementAt (pool this') !! statement = Some ast ∧
    elseConditionsNotNegated ast = true.
Proof.
  unfold runOnRegion, runOnLoop.
  intros [H|H];
    apply bind_Done in H as ([sequence pool1] & _ & (simplified & Hs & H)%bind_Done);
    simpl in H; injection H as <-;
    (destruct (recursivelySimplifyStatement sequence) as [s'|] eqn:Hsimp;
       [injection Hs as ->|done]);
    apply recursivelySimplifyStatement_elseConditionsNotNegated in Hsimp;
    eexists _, _; simpl;
    (split; [apply registerNode_lookup|]); (split; [apply lookup_insert_eq|done]).
Qed.

Lemma registered_ast_else_conditions_witness :
  ∃ statement ast,
    getGraphNodeFromEntry (grapher Examples.diamondRegion) (Some 1%positive)
      ≫= (λ n, nodeStorage (grapher Examples.diamondRegion) !! n) =
      Some (mkAstGraphNode statement 1 (Some 4%positive)) ∧
    statementAt (pool Examples.diamondRegion) !! statement = Some ast ∧
    elseConditionsNotNegated ast = true.
Proof.
  apply (registered_ast_else_conditions Examples.diamond 1 (Some 4%positive)
           Examples.diamondLeaves Examples.diamondRegion).
  left. vm_compute. reflexivity.
Defined.

(** C9 as stated fails: when the second function of the module starts
    to be structured, the two graph nodes of the first one (the leaf
    of block 5 and the region from block 5 to the end of the
    function) are in the node storage and block 5 is a key of the
    entry index; they still are when the second function is done. *)
Lemma grapher_not_cleared_between_functions :
  runOnModule Examples.twoFunctions Examples.moduleInfo
    [Examples.firstFunction] Examples.freshBackEnd = Done Examples.afterFirst ∧
  runOnModule Examples.twoFunctions Examples.moduleInfo
    [Examples.firstFunction; Examples.secondFunction] Examples.freshBackEnd =
    runOnFunction Examples.twoFunctions Examples.moduleInfo
      Examples.secondFunction Examples.afterFirst ∧
  nodeStorage (grapher Examples.afterFirst) =
    [mkAstGraphNode 1 5 (Some 5%positive); mkAstGraphNode 2 5 None] ∧
  nodeByEntry (grapher Examples.afterFirst) !! 5%positive = Some 2%positive ∧
  runOnFunction Examples.twoFunctions Examples.moduleInfo
    Examples.secondFunction Examples.afterFirst = Done Examples.afterSecond ∧
  nodeStorage (grapher Examples.afterSecond) =
    [mkAstGraphNode 1 5 (Some 5%positive); mkAstGraphNode 2 5 None;
     mkAstGraphNode 3 6 (Some 6%positive); mkAstGraphNode 4 6 None] ∧
  nodeByEntry (grapher Examples.afterSecond) !! 5%positive = Some 2%positive.
Proof. repeat split; vm_compute; reflexivity. Qed.

(** ** The worked examples *)

(** The if-then-else of the spec: the statement registered for the
    entry block when the function is done is the sequence of the
    entry block's statement, an [if] on the branch condition with the
    two branches as bodies, and the statements of the join block. *)
Example runOnModule_diamond :
  nodeByEntry (grapher Examples.afterDiamond) !! 1%positive
    ≫= (λ statement, statementAt (pool Examples.afterDiamond) !! statement) =
  Some (SequenceNode
          [ExpressionNode (ValueExpression 10);
           IfElseNode (ValueExpression 10)
             (ExpressionNode (ValueExpression 20))
             (Some (ExpressionNode (ValueExpression 30)));
           ExpressionNode (ValueExpression 40);
           ExpressionNode (ValueExpression 41)]).
Proof. vm_compute. reflexivity. Qed.

Lemma firstElement_elem (s : gset positive) : s ≠ ∅ → Examples.firstElement s ∈ s.
Proof.
  intros Hs. unfold Examples.firstElement.
  destruct (elements s) as [|x l] eqn:Hl.
  - by apply elements_empty_inv, leibniz_equiv in Hl.
  - apply elem_of_elements. rewrite Hl. simpl. left.
Qed.

Lemma isRegion_iff_region_witness :
  ∃ r, isRegion Examples.selfLoop Examples.selfLoopDominates
         Examples.selfLoopPostDominates Examples.firstElement 2 (Some 4%positive) =
       Some r ∧
       (r = true ↔
        ∀ b, reachesWithoutCrossing Examples.selfLoop 2 (Some 4%positive) b →
             Examples.selfLoopDominates 2 b = true ∧
             (Some 4%positive = None ∨
              ∃ e, Some 4%positive = Some e ∧
                   Examples.selfLoopPostDominates e b = true)).
Proof.
  apply (isRegion_iff_region Examples.selfLoop Examples.selfLoopDominates
           Examples.selfLoopPostDominates Examples.firstElement
           firstElement_elem 2 (Some 4%positive)).
Defined.

(** The self-loop block of that graph is a region up to block 4, and
    is none with the null exit standing for the end of the function
    only because it is asked to dominate block 4. *)
Example isRegion_selfLoop :
  isRegion Examples.selfLoop Examples.selfLoopDominates
    Examples.selfLoopPostDominates Examples.firstElement 3 (Some 4%positive) = Some true ∧
  isRegion Examples.selfLoop Examples.selfLoopDominates
    Examples.selfLoopPostDominates Examples.firstElement 3 None = Some false.
Proof. split; vm_compute; reflexivity. Qed.

(** C6 as stated fails: with [UnaryNot(Value 2)] for the condition of
    the breaking [if], the post-tested loop gets [Value 2] for a
    condition, not the [UnaryNot] of the [if] condition. *)
Lemma doWhile_condition_not_wrapped :
  let cond := UnaryOperatorExpression LogicalNegate (ValueExpression 2) in
  recursivelySimplifyStatement (Examples.breakingLoop cond) =
    Some (LoopNode (Some (ValueExpression 2)) PostTested
                   (SequenceNode [ExpressionNode (ValueExpression 1)])) ∧
  recursivelySimplifyStatement (Examples.breakingLoop cond) ≠
    Some (LoopNode (Some (UnaryOperatorExpression LogicalNegate cond)) PostTested
                   (SequenceNode [ExpressionNode (ValueExpression 1)])).
Proof. split; [reflexivity|]. vm_compute. discriminate. Qed.

Lemma recursivelySimplifyLoop_doWhile_witness :
  ∃ newCondition,
    recursivelySimplifyStatement
      (LoopNode None Endless
         (SequenceNode [ExpressionNode (ValueExpression 1);
                        IfElseNode (ValueExpression 2) BreakNode None])) =
      Some (LoopNode (Some newCondition) PostTested
              (SequenceNode
                 (removelast [ExpressionNode (ValueExpression 1);
                              IfElseNode (ValueExpression 2) BreakNode None]))) ∧
    [ExpressionNode (ValueExpression 1);
     IfElseNode (ValueExpression 2) BreakNode None] =
      removelast [ExpressionNode (ValueExpression 1);
                  IfElseNode (ValueExpression 2) BreakNode None] ++
      [IfElseNode (ValueExpression 2) BreakNode None] ∧
    ((∃ x, ValueExpression 2 = UnaryOperatorExpression LogicalNegate x ∧
           newCondition = x) ∨
     (isLogicalNegate (ValueExpression 2) = false ∧
      newCondition = UnaryOperatorExpression LogicalNegate (ValueExpression 2))).
Proof.
  apply (recursivelySimplifyLoop_doWhile None
           (SequenceNode [ExpressionNode (ValueExpression 1);
                          IfElseNode (ValueExpression 2) BreakNode None])
           [ExpressionNode (ValueExpression 1);
            IfElseNode (ValueExpression 2) BreakNode None]
           (ValueExpression 2) None); reflexivity.
Defined.

(** C8 as stated fails: the do-while rewrite leaves a body that is a
    sequence of one statement, and the second simplification
    collapses it. *)
Lemma recursivelySimplifyStatement_not_idempotent :
  ∃ once twice,
    recursivelySimplifyStatement (Examples.breakingLoop (ValueExpression 2)) =
      Some once ∧
    recursivelySimplifyStatement once = Some twice ∧
    twice ≠ once.
Proof.
  eexists _, _. split; [reflexivity|]. split; [reflexivity|]. discriminate.
Qed.

Lemma recursivelySimplifyStatement_idempotent_witness :
  recursivelySimplifyStatement
    (IfElseNode (BinaryOperatorExpression ShortCircuitAnd
                   (ValueExpression 1) (ValueExpression 2))
       (SequenceNode [ExpressionNode (ValueExpression 3);
                      ExpressionNode (ValueExpression 4)]) None) =
  Some (IfElseNode (BinaryOperatorExpression ShortCircuitAnd
                      (ValueExpression 1) (ValueExpression 2))
          (SequenceNode [ExpressionNode (ValueExpression 3);
                         ExpressionNode (ValueExpression 4)]) None).
Proof.
  apply (recursivelySimplifyStatement_idempotent
           (IfElseNode (ValueExpression 1)
              (SequenceNode
                 [IfElseNode (ValueExpression 2)
                    (SequenceNode [ExpressionNode (ValueExpression 3);
                                   SequenceNode [ExpressionNode (ValueExpression 4)]])
                    None])
              None)); reflexivity.
Defined.

(** ** Properties of the sum-of-products simplifier *)

Lemma existsb_forallb_cons {A : Type} (f : A → bool) term products :
  existsb (forallb f) (map (cons term) products) =
  f term && existsb (forallb f) products.
Proof.
  induction products as [|product products IH]; simpl.
  - by rewrite andb_false_r.
  - rewrite IH. by destruct (f term).
Qed.

Lemma evalSumOfProducts_distribute assignment productOfSums :
  evalSumOfProducts assignment (distributeToSumOfProducts productOfSums) =
  evalProductOfSums assignment productOfSums.
Proof.
  unfold evalSumOfProducts, evalProductOfSums.
  induction productOfSums as [|sum rest IH]; simpl; [done|].
  rewrite <- IH. clear IH.
  induction sum as [|term sum IHsum]; simpl; [done|].
  by rewrite existsb_app, IHsum, existsb_forallb_cons, andb_orb_distrib_l.
Qed.

(** The recursion bound of step 3 is never what stops it. *)
Lemma length_removeByReference value rest :
  length (removeByReference value rest) ≤ length rest.
Proof.
  induction rest as [|x rest IH]; simpl; [done|].
  destruct (samePointer x value); simpl; [lia|].
  pose proof (length_filter (λ y, samePointer y x = false) rest). lia.
Qed.

Lemma length_removeFirstByReference range :
  length (removeFirstByReference range) ≤ pred (length range).
Proof. destruct range; simpl; [done|]. apply length_removeByReference. Qed.

Lemma findNegated_fuel e range : findNegated e range ≠ OutOfFuel.
Proof.
  induction range as [|that rest IH]; simpl; [done|].
  destruct (pointee that) as [v|[|code] operand|t l r];
    try (by destruct (findNegated e rest)).
  destruct (isReferenceEqual operand e); [done|].
  by destruct (findNegated e rest).
Qed.

Lemma findNegation_fuel e range : findNegation e range ≠ OutOfFuel.
Proof.
  unfold findNegation.
  destruct (pointee e) as [v|[|code] operand|t l r]; try done;
    apply findNegated_fuel.
Qed.

Lemma removeNegationPairs_fuel fuel before live :
  length live ≤ fuel → removeNegationPairs fuel before live ≠ OutOfFuel.
Proof.
  revert before live. induction fuel as [|fuel IH]; intros before [|e rest] Hlen;
    simpl in *; try done; [lia|].
  pose proof (findNegation_fuel e rest) as Hfind.
  destruct (findNegation e rest) as [[k|]| |]; simpl; try done.
  - apply IH.
    pose proof (length_removeByReference e
                  (take k rest ++ removeFirstByReference (drop k rest))) as H1.
    pose proof (length_removeFirstByReference (drop k rest)) as H2.
    rewrite length_app, length_take in H1. rewrite length_drop in H2. lia.
  - apply IH. lia.
Qed.

Lemma removeContradictions_fuel productOfSums :
  removeContradictions productOfSums ≠ OutOfFuel.
Proof.
  induction productOfSums as [|sum rest IH]; simpl; [done|].
  pose proof (removeNegationPairs_fuel (length sum) [] sum (le_n _)) as Hsum.
  destruct (removeNegationPairs (length sum) [] sum); simpl; try done.
  by destruct (removeContradictions rest).
Qed.

Lemma simplifySumOfProducts_fuel sumOfProducts :
  simplifySumOfProducts sumOfProducts ≠ OutOfFuel.
Proof.
  unfold simplifySumOfProducts. destruct sumOfProducts as [|first others]; [done|].
  destruct (collectIdenticalTerms (first :: others)) as [productOfSums [|row rows]];
    [done|]. apply removeContradictions_fuel.
Qed.

(** C3 fails on the code. The reaching condition of block 4 in
    [if (!a || b || c)], as [build] computes it, is true whenever [a]
    is false; what [simplifySumOfProducts] makes of it holds both [b]
    and its negation as sums of their own, and is false under every
    assignment, also after distribution back to a sum of products. *)
Theorem simplifySumOfProducts_orChain :
  buildSumsOfProducts Examples.orChain (grapher Examples.orChainLeaves)
    (getGraphNodeFromEntry (grapher Examples.orChainLeaves) (Some 1%positive))
    (getGraphNodeFromEntry (grapher Examples.orChainLeaves) (Some 6%positive))
    (pool Examples.orChainLeaves) = Done Examples.orChainReach ∧
  map (map pointee) Examples.orChainCondition =
    [[ValueExpression 10; ValueExpression 20];
     [ValueExpression 10;
      UnaryOperatorExpression LogicalNegate (ValueExpression 20);
      ValueExpression 30];
     [UnaryOperatorExpression LogicalNegate (ValueExpression 10)]] ∧
  (∀ assignment,
     assignment (ValueExpression 10) = false →
     evalSumOfProducts assignment Examples.orChainCondition = true) ∧
  ∃ productOfSums,
    simplifySumOfProducts Examples.orChainCondition = Done productOfSums ∧
    map (map pointee) productOfSums =
      [[UnaryOperatorExpression LogicalNegate (ValueExpression 20)];
       [ValueExpression 30];
       [ValueExpression 20];
       [UnaryOperatorExpression LogicalNegate (ValueExpression 10)];
       [ValueExpression 20; ValueExpression 30;
        UnaryOperatorExpression LogicalNegate (ValueExpression 10)]] ∧
    ∀ assignment,
      evalSumOfProducts assignment (distributeToSumOfProducts productOfSums) = false.
Proof.
  split; [vm_compute; reflexivity|]. split; [vm_compute; reflexivity|]. split.
  - intros assignment Ha.
    change (evalSumOfProducts assignment
              (Examples.orChainCondition) = true).
    replace Examples.orChainCondition with
      [[mkExpressionRef 7 (ValueExpression 10); mkExpressionRef 8 (ValueExpression 20)];
       [mkExpressionRef 7 (ValueExpression 10);
        mkExpressionRef 9 (UnaryOperatorExpression LogicalNegate (ValueExpression 20));
        mkExpressionRef 10 (ValueExpression 30)];
       [mkExpressionRef 12 (UnaryOperatorExpression LogicalNegate (ValueExpression 10))]]
      by (vm_compute; reflexivity).
    unfold evalSumOfProducts. simpl. rewrite Ha. simpl. by rewrite ?orb_true_r.
  - eexists. split; [vm_compute; reflexivity|]. split; [reflexivity|].
    intros assignment. rewrite evalSumOfProducts_distribute.
    unfold evalProductOfSums. simpl.
    by destruct (assignment (ValueExpression 20)), (assignment (ValueExpression 30)).
Qed.

(** The same function structured from end to end: block 4, which
    runs whenever [a] is false, ends up under a guard that asks for
    [b] and [c] as well. The sum [(!b)] of the simplifier has become
    [b] on the way: looking at the [if] before it, the merging loop of
    [structurizeRegion] strips the negation off its [condition]
    variable and, finding no match, builds the new [if] from the
    stripped condition. *)
Example runOnModule_orChain :
  nodeByEntry (grapher Examples.afterOrChain) !! 1%positive
    ≫= (λ statement, statementAt (pool Examples.afterOrChain) !! statement) =
  Some (SequenceNode
          [ExpressionNode (ValueExpression 10);
           IfElseNode (ValueExpression 10)
             (SequenceNode
                [ExpressionNode (ValueExpression 20);
                 IfElseNode (UnaryOperatorExpression LogicalNegate (ValueExpression 20))
                   (SequenceNode
                      [ExpressionNode (ValueExpression 30);
                       IfElseNode
                         (UnaryOperatorExpression LogicalNegate (ValueExpression 30))
                         (ExpressionNode (ValueExpression 50)) None])
                   None])
             None;
           IfElseNode Examples.orChainGuard (ExpressionNode (ValueExpression 40)) None;
           ExpressionNode (ValueExpression 60);
           ExpressionNode (ValueExpression 61)]) ∧
  evalExpression (λ _, false) Examples.orChainGuard = false.
Proof. split; vm_compute; reflexivity. Qed.

(** C10 fails on the code. With two products whose terms are
    reference-equal one for one, step 1 lifts every term out, erases
    it from both products and erases both emptied products: step 2
    then reads the first product of an empty vector. The reaching
    condition of block 5 in [if (c) { if (c) X; else N; } else
    { if (c) N; else Y; }] is such an input, and so are two copies of
    one term. *)
Theorem simplifySumOfProducts_empty_residue :
  (buildSumsOfProducts Examples.repeatedTest (grapher Examples.repeatedTestLeaves)
     (getGraphNodeFromEntry (grapher Examples.repeatedTestLeaves) (Some 1%positive))
     (getGraphNodeFromEntry (grapher Examples.repeatedTestLeaves) (Some 7%positive))
     (pool Examples.repeatedTestLeaves) = Done Examples.repeatedTestReach ∧
   map (map pointee) Examples.repeatedTestCondition =
     [[ValueExpression 10;
       UnaryOperatorExpression LogicalNegate (ValueExpression 10)];
      [UnaryOperatorExpression LogicalNegate (ValueExpression 10);
       ValueExpression 10]] ∧
   (collectIdenticalTerms Examples.repeatedTestCondition).2 = [] ∧
   simplifySumOfProducts Examples.repeatedTestCondition = Crashed) ∧
  (Examples.sameTermTwice ≠ [] ∧
   collectIdenticalTerms Examples.sameTermTwice =
     ([[mkExpressionRef 1 (ValueExpression 10)]], []) ∧
   simplifySumOfProducts Examples.sameTermTwice = Crashed).
Proof.
  split.
  - split; [vm_compute; reflexivity|].
    split; [vm_compute; reflexivity|].
    split; vm_compute; reflexivity.
  - split; [done|]. split; vm_compute; reflexivity.
Qed.

(** ** Properties of the reaching conditions *)

Section BuildProofs.
Variable mem : IRMemory.
Variable grapher : AstGrapher.

(** The shapes a finished run of [build] can have. *)
Lemma build_Done_inv fuel from st st' :
  build mem grapher (S fuel) from st = Done st' →
  (from ∈ visitStack st ∧ st' = st) ∨
  ((from ∉ visitStack st) ∧
   ∃ n current st2,
     from = Some n ∧ nodeStorage grapher !! n = Some current ∧
     st' = popVisit st2 ∧
     let st1 := recordCondition (node current) (pushVisit from st) in
     (hasExit current = true ∧
      build mem grapher fuel (getGraphNodeFromEntry grapher (getExit current)) st1 =
        Done st2) ∨
     (hasExit current = false ∧
      ∃ terminator,
        terminatorAt mem (getEntry current) = Some terminator ∧
        ((∃ dest, opcode terminator = Br dest ∧
                  build mem grapher fuel (getGraphNodeFromEntry grapher (Some dest)) st1 =
                    Done st2) ∨
         (∃ c ifTrue ifFalse st3 st4,
            opcode terminator = CondBr c ifTrue ifFalse ∧
            build mem grapher fuel (getGraphNodeFromEntry grapher (Some ifTrue))
              (pushCondition (ValueExpression c) st1).2 = Done st3 ∧
            build mem grapher fuel (getGraphNodeFromEntry grapher (Some ifFalse))
              (pushCondition
                 (UnaryOperatorExpression LogicalNegate (ValueExpression c))
                 (popCondition st3)).2 = Done st4 ∧
            st2 = popCondition st4) ∨
         ((∀ dest, opcode terminator ≠ Br dest) ∧
          (∀ c ifTrue ifFalse, opcode terminator ≠ CondBr c ifTrue ifFalse) ∧
          st2 = st1)))).
Proof.
  simpl. destruct (decide (from ∈ visitStack st)) as [Hin|Hout].
  { intros [= <-]. by left. }
  intros (current & Hcur & (st2 & Hbody & [= <-])%bind_Done)%bind_Done.
  right. split; [done|].
  destruct from as [n|]; [|done]. simpl in Hcur.
  destruct (nodeStorage grapher !! n) as [current'|] eqn:Hn; [|done].
  injection Hcur as ->.
  exists n, current, st2. split; [done|]. split; [done|]. split; [done|].
  destruct (hasExit current); [by left|]. right. split; [done|].
  apply bind_Done in Hbody as (terminator & Hterm & Hbody).
  destruct (terminatorAt mem (getEntry current)) as [terminator'|]; [|done].
  injection Hterm as ->. exists terminator. split; [done|].
  destruct (opcode terminator) as [dest|c ifTrue ifFalse| | |] eqn:Hop.
  - left. eauto.
  - right. left.
    apply bind_Done in Hbody as (st3 & H3 & Hbody).
    apply bind_Done in Hbody as (st4 & H4 & [= <-]).
    exists c, ifTrue, ifFalse, st3, st4. done.
  - right. right. injection Hbody as <-. done.
  - right. right. injection Hbody as <-. done.
  - right. right. injection Hbody as <-. done.
Qed.

(** [build] returns with both stacks as it found them. *)
Lemma build_stacks fuel from st st' :
  build mem grapher fuel from st = Done st' →
  visitStack st' = visitStack st ∧ conditionStack st' = conditionStack st.
Proof.
  revert from st st'. induction fuel as [|fuel IH]; intros from st st'; [done|].
  intros [[_ ->]|(_ & n & current & st2 & -> & Hn & -> & Hcase)]%build_Done_inv;
    [done|].
  assert (visitStack st2 = visitStack st ++ [Some n] ∧
          conditionStack st2 = conditionStack st) as [Hv Hc].
  { destruct Hcase as [[_ H]|(_ & terminator & _ &
      [(dest & _ & H)|[(c & t & f & st3 & st4 & _ & H3 & H4 & ->)|(_ & _ & ->)]])].
    - by apply IH in H.
    - by apply IH in H.
    - apply IH in H3 as [Hv3 Hc3]. apply IH in H4 as [Hv4 Hc4].
      simpl in *. rewrite Hv4, Hv3, Hc4, Hc3.
      by rewrite !removelast_last.
    - done. }
  simpl. by rewrite Hv, Hc, removelast_last.
Qed.

Lemma recordCondition_lookup statement st s :
  default [] (conditions (recordCondition statement st) !! s) =
  default [] (conditions st !! s) ++
    (if decide (s = statement) then [conditionStack st] else []).
Proof.
  unfold recordCondition. simpl. destruct (decide (s = statement)) as [->|Hne].
  - by rewrite lookup_insert_eq.
  - rewrite lookup_insert_ne by done. by rewrite app_nil_r.
Qed.

Lemma graphStep_inv n guard next current :
  graphStep mem grapher n guard next →
  nodeStorage grapher !! n = Some current →
  (hasExit current = true ∧ guard = [] ∧
   next = getGraphNodeFromEntry grapher (getExit current)) ∨
  (hasExit current = false ∧
   ∃ terminator, terminatorAt mem (getEntry current) = Some terminator ∧
     ((∃ dest, opcode terminator = Br dest ∧ guard = [] ∧
               next = getGraphNodeFromEntry grapher (Some dest)) ∨
      (∃ c ifTrue ifFalse, opcode terminator = CondBr c ifTrue ifFalse ∧
         ((guard = [ValueExpression c] ∧
           next = getGraphNodeFromEntry grapher (Some ifTrue)) ∨
          (guard = [UnaryOperatorExpression LogicalNegate (ValueExpression c)] ∧
           next = getGraphNodeFromEntry grapher (Some ifFalse)))))).
Proof.
  intros Hstep Hn.
  destruct Hstep as [cur Hcur Hexit|cur t dest Hcur Hexit Ht Hop
                     |cur t c ifTrue ifFalse Hcur Hexit Ht Hop
                     |cur t c ifTrue ifFalse Hcur Hexit Ht Hop];
    rewrite Hn in Hcur; injection Hcur as <-.
  - by left.
  - right. split; [done|]. exists t. split; [done|]. left. eauto.
  - right. split; [done|]. exists t. split; [done|]. right.
    exists c, ifTrue, ifFalse. split; [done|]. by left.
  - right. split; [done|]. exists t. split; [done|]. right.
    exists c, ifTrue, ifFalse. split; [done|]. by right.
Qed.

Lemma recordsWalks_sub st stSub n guard next after statement :
  visitStack stSub = visitStack st ++ [Some n] →
  map pointee (conditionStack stSub) = map pointee (conditionStack st) ++ guard →
  recordsWalks mem grapher stSub next after →
  ∃ added, subWalks mem grapher st n guard next (conditions stSub) after statement added.
Proof.
  intros Hv Hc Hrec. destruct (Hrec statement) as (added & Heq & Hsound & Hcomplete).
  exists added. split; [done|]. split.
  - intros product Hp.
    destruct (Hsound product Hp) as (target & current & guards & ? & ? & Hmap & Hpath).
    exists target, current, guards. rewrite Hmap, Hc, Hv in *. by rewrite <- app_assoc.
  - intros target current guards Hn Hs Hpath. rewrite <- Hv in Hpath.
    destruct (Hcomplete target current guards Hn Hs Hpath) as (product & ? & Hmap).
    exists product. split; [done|]. by rewrite Hmap, Hc, <- app_assoc.
Qed.

Lemma walkChain_walks st n edges m1 m3 statement :
  walkChain mem grapher st n edges m1 m3 →
  ∃ added,
    default [] (m3 !! statement) = default [] (m1 !! statement) ++ added ∧
    (∀ product, product ∈ added →
       ∃ guard next target current guards,
         (guard, next) ∈ edges ∧
         nodeStorage grapher !! target = Some current ∧
         node current = statement ∧
         map pointee product = map pointee (conditionStack st) ++ guard ++ guards ∧
         guardedPath mem grapher (visitStack st ++ [Some n]) next guards target) ∧
    (∀ guard next target current guards,
       (guard, next) ∈ edges →
       nodeStorage grapher !! target = Some current →
       node current = statement →
       guardedPath mem grapher (visitStack st ++ [Some n]) next guards target →
       ∃ product, product ∈ added ∧
         map pointee product = map pointee (conditionStack st) ++ guard ++ guards).
Proof.
  induction 1 as [m|guard next edges m1 m2 m3 Hsub _ IH].
  - exists []. rewrite app_nil_r. split; [done|]. split.
    + intros product Hp. by apply elem_of_nil in Hp.
    + intros guard next target current guards Hin. by apply elem_of_nil in Hin.
  - destruct (Hsub statement) as (added1 & Heq1 & Hsound1 & Hcomplete1).
    destruct IH as (added2 & Heq2 & Hsound2 & Hcomplete2).
    exists (added1 ++ added2). split; [by rewrite Heq2, Heq1, app_assoc|]. split.
    + intros product [Hp|Hp]%elem_of_app.
      * destruct (Hsound1 product Hp) as (target & current & guards & ? & ? & ? & ?).
        exists guard, next, target, current, guards. split; [left|done].
      * destruct (Hsound2 product Hp)
          as (guard' & next' & target & current & guards & ? & ? & ? & ? & ?).
        exists guard', next', target, current, guards. split; [by right|done].
    + intros guard' next' target current guards Hin Hn Hs Hpath.
      apply elem_of_cons in Hin as [[= -> ->]|Hin].
      * destruct (Hcomplete1 target current guards Hn Hs Hpath) as (product & ? & ?).
        exists product. split; [|done]. apply elem_of_app. by left.
      * destruct (Hcomplete2 guard' next' target current guards Hin Hn Hs Hpath)
          as (product & ? & ?).
        exists product. split; [|done]. apply elem_of_app. by right.
Qed.

Lemma walks_from_node st n current edges after :
  Some n ∉ visitStack st →
  nodeStorage grapher !! n = Some current →
  (∀ guard next, graphStep mem grapher n guard next ↔ (guard, next) ∈ edges) →
  walkChain mem grapher st n edges
    (conditions (recordCondition (node current) (pushVisit (Some n) st))) after →
  recordsWalks mem grapher st (Some n) after.
Proof.
  intros Hout Hn Hedges Hchain statement.
  destruct (walkChain_walks _ _ _ _ _ statement Hchain) as (added & Heq & Hsound & Hcomplete).
  exists ((if decide (statement = node current) then [conditionStack st] else []) ++ added).
  split; [|split].
  - rewrite Heq, recordCondition_lookup. simpl. by rewrite app_assoc.
  - intros product [Hp|Hp]%elem_of_app.
    + destruct (decide (statement = node current)) as [->|]; [|by apply elem_of_nil in Hp].
      apply list_elem_of_singleton in Hp as ->.
      exists n, current, []. rewrite app_nil_r. repeat split; [done|].
      by constructor.
    + destruct (Hsound product Hp)
        as (guard & next & target & cur & guards & Hin & ? & ? & ? & ?).
      exists target, cur, (guard ++ guards). repeat split; try done.
      econstructor; [done| |done]. by apply Hedges.
  - intros target cur guards Htarget Hs Hpath.
    inversion Hpath as [avoid n' Hn' Hsome|avoid n' guard next guards' target' Hn' Hstep Hsub];
      subst.
    + rewrite Hn in Htarget. injection Htarget as <-.
      exists (conditionStack st). rewrite app_nil_r. split; [|done].
      apply elem_of_app. left. rewrite decide_True by done. left.
    + apply Hedges in Hstep.
      destruct (Hcomplete guard next target cur guards' Hstep Htarget eq_refl Hsub)
        as (product & ? & ?).
      exists product. split; [|done]. apply elem_of_app. by right.
Qed.

Lemma build_recordsWalks fuel from st st' :
  build mem grapher fuel from st = Done st' →
  recordsWalks mem grapher st from (conditions st').
Proof.
  revert from st st'. induction fuel as [|fuel IH]; intros from st st'; [done|].
  intros [[Hin ->]|(Hout & n & current & st2 & -> & Hn & -> & Hcase)]%build_Done_inv.
  { intros statement. exists []. rewrite app_nil_r. split; [done|]. split.
    - intros product Hp. by apply elem_of_nil in Hp.
    - intros target current guards _ _ Hpath. by inversion Hpath; subst. }
  simpl in Hcase |- *.
  set (st1 := recordCondition (node current) (pushVisit (Some n) st)) in *.
  destruct Hcase as [[Hexit H]|(Hexit & terminator & Hterm &
    [(dest & Hop & H)|[(c & t & f & st3 & st4 & Hop & H3 & H4 & ->)|(Hbr & Hcond & ->)]])].
  - apply (walks_from_node st n current
             [([], getGraphNodeFromEntry grapher (getExit current))]); try done.
    + intros guard next. rewrite list_elem_of_singleton. split.
      * intros Hstep. destruct (graphStep_inv _ _ _ _ Hstep Hn)
          as [(_ & -> & ->)|(? & _)]; [done|congruence].
      * intros [= -> ->]. by eapply step_exit.
    + econstructor; [|constructor]. intros statement.
      apply (recordsWalks_sub st st1); [done|by rewrite app_nil_r|by apply IH].
  - apply (walks_from_node st n current
             [([], getGraphNodeFromEntry grapher (Some dest))]); try done.
    + intros guard next. rewrite list_elem_of_singleton. split.
      * intros Hstep. destruct (graphStep_inv _ _ _ _ Hstep Hn)
          as [(? & _)|(_ & t' & Ht' & Hk)]; [congruence|].
        rewrite Hterm in Ht'. injection Ht' as <-.
        destruct Hk as [(dest' & Hop' & -> & ->)|(c & t & f & Hop' & _)]; congruence.
      * intros [= -> ->]. by eapply step_branch.
    + econstructor; [|constructor]. intros statement.
      apply (recordsWalks_sub st st1); [done|by rewrite app_nil_r|by apply IH].
  - destruct (build_stacks _ _ _ _ H3) as [Hv3 Hc3]. simpl in Hv3, Hc3.
    apply (walks_from_node st n current
             [([ValueExpression c], getGraphNodeFromEntry grapher (Some t));
              ([UnaryOperatorExpression LogicalNegate (ValueExpression c)],
               getGraphNodeFromEntry grapher (Some f))]); try done.
    + intros guard next. rewrite elem_of_cons, list_elem_of_singleton. split.
      * intros Hstep. destruct (graphStep_inv _ _ _ _ Hstep Hn)
          as [(? & _)|(_ & t' & Ht' & Hk)]; [congruence|].
        rewrite Hterm in Ht'. injection Ht' as <-.
        destruct Hk as [(dest' & Hop' & _)|(c' & t'' & f' & Hop' & Hk)]; [congruence|].
        rewrite Hop in Hop'. injection Hop' as <- <- <-.
        destruct Hk as [[-> ->]|[-> ->]]; auto.
      * intros [[= -> ->]|[= -> ->]]; [by eapply step_true|by eapply step_false].
    + econstructor; [|econstructor; [|constructor]]; intros statement.
      * apply (recordsWalks_sub st (pushCondition (ValueExpression c) st1).2);
          [done|simpl; by rewrite map_app|by apply IH].
      * apply (recordsWalks_sub st
                 (pushCondition (UnaryOperatorExpression LogicalNegate (ValueExpression c))
                                (popCondition st3)).2 n _ _ (conditions st4));
          [done|simpl; by rewrite Hc3, removelast_last, map_app|by apply IH].
  - apply (walks_from_node st n current []); try done; [|constructor].
    intros guard next. split; [|by intros ?%elem_of_nil].
    intros Hstep. destruct (graphStep_inv _ _ _ _ Hstep Hn)
      as [(? & _)|(_ & t' & Ht' & Hk)]; [congruence|].
    rewrite Hterm in Ht'. injection Ht' as <-.
    destruct Hk as [(dest' & Hop' & _)|(c' & t'' & f' & Hop' & _)];
      [by destruct (Hbr dest')|by destruct (Hcond c' t'' f')].
Qed.
End BuildProofs.

Section BuildTermination.
Variable mem : IRMemory.
Variable grapher : AstGrapher.

Lemma unvisitedNodes_push visit n current :
  Some n ∉ visit →
  nodeStorage grapher !! n = Some current →
  size (unvisitedNodes grapher (visit ++ [Some n])) <
  size (unvisitedNodes grapher visit).
Proof.
  intros Hout Hn. apply subset_size. unfold unvisitedNodes.
  rewrite omap_app, list_to_set_app_L. simpl.
  assert (n ∈ (list_to_set (seq 0 (length (nodeStorage grapher))) : gset nat)) as Hin.
  { apply elem_of_list_to_set, elem_of_seq. apply lookup_lt_Some in Hn. lia. }
  assert (n ∉ (list_to_set (omap id visit) : gset nat)) as Hnot.
  { rewrite elem_of_list_to_set, list_elem_of_omap. intros (x & Hx & Hid).
    simpl in Hid. by subst x. }
  set_solver.
Qed.


End BuildTermination.



(** ** Further properties of the sum-of-products simplifier *)

Lemma isReferenceEqual_eq a b : isReferenceEqual a b = true ↔ a = b.
Proof.
  revert b. induction a as [v|t a IH|t a1 IH1 a2 IH2]; intros [w|u b|u b1 b2]; simpl;
    rewrite ?andb_true_iff, ?bool_decide_eq_true, ?IH, ?IH1, ?IH2; naive_solver.
Qed.

Lemma coalesce_foldl_eval ρ joint (op : bool → bool → bool) terms :
  (∀ l r, evalExpression ρ (BinaryOperatorExpression joint l r) =
          op (evalExpression ρ l) (evalExpression ρ r)) →
  ∀ acc,
    evalExpression ρ <$>
      foldl (λ result expression, coalesce joint result (Some (pointee expression)))
            (Some acc) terms =
    Some (foldl (λ b t, op b (evalTerm ρ t)) (evalExpression ρ acc) terms).
Proof.
  intros Hop. induction terms as [|t terms IH]; intros acc; simpl; [done|].
  rewrite IH, Hop. done.
Qed.

Lemma foldl_orb b (f : ExpressionRef → bool) terms :
  foldl (λ b t, b || f t) b terms = b || existsb f terms.
Proof.
  revert b. induction terms as [|t terms IH]; intros b; simpl.
  - by rewrite orb_false_r.
  - rewrite IH. by rewrite orb_assoc.
Qed.

Lemma foldl_andb b (f : ExpressionRef → bool) terms :
  foldl (λ b t, b && f t) b terms = b && forallb f terms.
Proof.
  revert b. induction terms as [|t terms IH]; intros b; simpl.
  - by rewrite andb_true_r.
  - rewrite IH. by rewrite andb_assoc.
Qed.

(** X1. [collapse] returns the null expression for the empty list and
    for no other; the expression it builds with [ShortCircuitOr] is
    true under an assignment exactly when some term is, and the one it
    builds with [ShortCircuitAnd] exactly when every term is. *)
Theorem collapse_evalExpression ρ terms :
  evalExpression ρ <$> collapse terms ShortCircuitOr =
    (if terms is [] then None else Some (existsb (evalTerm ρ) terms)) ∧
  evalExpression ρ <$> collapse terms ShortCircuitAnd =
    (if terms is [] then None else Some (forallb (evalTerm ρ) terms)).
Proof.
  unfold collapse. destruct terms as [|t terms]; [done|]. simpl. split.
  - rewrite (coalesce_foldl_eval ρ ShortCircuitOr orb) by (intros; reflexivity).
    by rewrite foldl_orb.
  - rewrite (coalesce_foldl_eval ρ ShortCircuitAnd andb) by (intros; reflexivity).
    by rewrite foldl_andb.
Qed.

Lemma forallb_orb_shift (a s : bool) (f : ExpressionRef → bool) row :
  forallb (λ e, (a || (f e || false)) || s) row = a || (forallb f row || s).
Proof.
  induction row as [|e row IH]; simpl.
  - by rewrite orb_true_r.
  - rewrite IH. destruct a, s, (f e), (forallb f row); done.
Qed.

Lemma expandToProductOfSums_eval ρ rows : ∀ stack output,
  evalProductOfSums ρ (expandToProductOfSums stack output rows) =
  evalProductOfSums ρ output &&
  (existsb (evalTerm ρ) stack || evalSumOfProducts ρ rows).
Proof.
  induction rows as [|row rows IH]; intros stack output; simpl.
  - unfold evalProductOfSums. rewrite forallb_app. simpl.
    by rewrite orb_false_r, andb_true_r.
  - assert (∀ out,
      evalProductOfSums ρ
        (foldl (λ out expr, expandToProductOfSums (stack ++ [expr]) out rows) out row) =
      evalProductOfSums ρ out &&
      forallb (λ e, (existsb (evalTerm ρ) stack || (evalTerm ρ e || false)) ||
                    evalSumOfProducts ρ rows) row) as Hrow.
    { induction row as [|e row IHrow]; intros out; simpl.
      - by rewrite andb_true_r.
      - rewrite IHrow, IH, existsb_app. simpl. by rewrite andb_assoc. }
    rewrite Hrow, forallb_orb_shift. done.
Qed.

(** *** Step 1: terms common to every product *)

Lemma find_if_Some {A : Type} (pred : A → bool) range i :
  find_if pred range = Some i → ∃ x, range !! i = Some x ∧ pred x = true.
Proof.
  revert i. induction range as [|x range IH]; intros i; simpl; [done|].
  destruct (pred x) eqn:Hx.
  - intros [= <-]. eauto.
  - destruct (find_if pred range) as [j|]; simpl; [|done].
    intros [= <-]. apply IH. done.
Qed.

Lemma find_if_None {A : Type} (pred : A → bool) range :
  find_if pred range = None ↔ ∀ x, x ∈ range → pred x = false.
Proof.
  induction range as [|x range IH]; simpl.
  - split; [|done]. intros _ x Hx. by apply elem_of_nil in Hx.
  - destruct (pred x) eqn:Hx.
    + split; [done|]. intros H. rewrite H in Hx; [done|]. left.
    + destruct (find_if pred range) as [j|]; simpl.
      * split; [done|]. intros H. 
        assert (Some j = None) as Hj; [|done].
        apply IH. intros y Hy. apply H. by right.
      * split; [|done]. intros _ y Hy. apply elem_of_cons in Hy as [->|Hy]; [done|].
        by apply IH.
Qed.

Lemma termLocations_spec term otherProducts :
  length (termLocations term otherProducts) = length otherProducts →
  Forall2 (λ location product,
             ∃ u, product !! location = Some u ∧ pointee u = pointee term)
          (termLocations term otherProducts) otherProducts.
Proof.
  induction otherProducts as [|product rest IH]; simpl; [constructor|].
  destruct (find_if _ product) as [location|] eqn:Hfind; simpl; [|done].
  intros [= Hlen].
  apply find_if_Some in Hfind as (u & Hu & Heq).
  apply isReferenceEqual_eq in Heq. constructor; eauto.
Qed.

Lemma forallb_delete {A : Type} (f : A → bool) l i x :
  l !! i = Some x → forallb f l = f x && forallb f (delete i l).
Proof.
  revert i. induction l as [|y l IH]; intros [|i] Hi; simpl in *; try done.
  - by injection Hi as ->.
  - rewrite (IH i Hi). by destruct (f x), (f y).
Qed.

Lemma evalSumOfProducts_factor ρ term locations products :
  Forall2 (λ location product,
             ∃ u, product !! location = Some u ∧ pointee u = pointee term)
          locations products →
  evalSumOfProducts ρ products =
  evalTerm ρ term &&
  evalSumOfProducts ρ (zip_with (λ location product, delete location product)
                                locations products).
Proof.
  unfold evalSumOfProducts.
  induction 1 as [|location product locations products (u & Hu & Heq) _ IH]; simpl.
  - by rewrite andb_false_r.
  - rewrite IH, (forallb_delete _ _ _ _ Hu), Heq. unfold evalTerm.
    by destruct (evalExpression ρ (pointee term)).
Qed.

Lemma evalSumOfProducts_cons ρ product products :
  evalSumOfProducts ρ (product :: products) =
  forallb (evalTerm ρ) product || evalSumOfProducts ρ products.
Proof. done. Qed.

Lemma collectTerms_eval ρ remaining : ∀ kept otherProducts productOfSums,
  let '(first, others, lifted) :=
    collectTerms remaining kept otherProducts productOfSums in
  evalProductOfSums ρ lifted && evalSumOfProducts ρ (first :: others) =
  evalProductOfSums ρ productOfSums &&
  evalSumOfProducts ρ ((kept ++ remaining) :: otherProducts).
Proof.
  induction remaining as [|term rest IH]; intros kept others pos; cbn [collectTerms].
  - by rewrite app_nil_r.
  - destruct (decide _) as [Hlen|Hlen].
    + specialize (IH kept (zip_with (λ location product, delete location product)
                             (termLocations term others) others) (pos ++ [[term]])).
      destruct (collectTerms rest kept _ _) as [[first others'] lifted].
      rewrite IH. clear IH. rewrite !evalSumOfProducts_cons.
      rewrite (evalSumOfProducts_factor ρ term _ _ (termLocations_spec _ _ Hlen)).
      unfold evalProductOfSums. rewrite !forallb_app. simpl.
      fold (evalTerm ρ term).
      destruct (forallb _ pos), (evalTerm ρ term), (forallb _ kept), (forallb _ rest);
        simpl; done.
    + specialize (IH (kept ++ [term]) others pos).
      destruct (collectTerms rest _ _ _) as [[first others'] lifted].
      rewrite IH. by rewrite <- app_assoc.
Qed.

Lemma length_collectTerms remaining : ∀ kept otherProducts productOfSums,
  length (collectTerms remaining kept otherProducts productOfSums).1.2 =
  length otherProducts.
Proof.
  induction remaining as [|term rest IH]; intros kept others pos; simpl; [done|].
  destruct (decide _) as [Hlen|Hlen]; rewrite IH; [|done].
  rewrite length_zip_with. lia.
Qed.

Lemma filter_length_eq {A : Type} (P : A → Prop) `{∀ x, Decision (P x)} (l : list A) :
  length (filter P l) = length l → filter P l = l.
Proof.
  induction l as [|x l IH]; [done|].
  rewrite filter_cons. destruct (decide (P x)); simpl.
  - intros [= Hlen]. by rewrite IH.
  - pose proof (length_filter P l). lia.
Qed.

Lemma filter_length_ne {A : Type} (P : A → Prop) `{∀ x, Decision (P x)} (l : list A) :
  length (filter P l) ≠ length l → ∃ x, x ∈ l ∧ ¬ P x.
Proof.
  induction l as [|x l IH]; [done|].
  rewrite filter_cons. destruct (decide (P x)); simpl.
  - intros Hlen. destruct IH as (y & Hy & HP); [lia|]. exists y. split; [by right|done].
  - intros _. exists x. split; [left|done].
Qed.

Lemma evalSumOfProducts_empty_product ρ products :
  [] ∈ products → evalSumOfProducts ρ products = true.
Proof.
  intros Hin. unfold evalSumOfProducts. apply existsb_exists. exists [].
  split; [by apply list_elem_of_In|done].
Qed.

Lemma collectIdenticalTerms_collected ρ sumOfProducts :
  (∃ first others,
     length (first :: others) = length sumOfProducts ∧
     (collectIdenticalTerms sumOfProducts).2 =
       filter (λ product, isEmptyProduct product = false) (first :: others) ∧
     evalSumOfProducts ρ sumOfProducts =
       evalProductOfSums ρ (collectIdenticalTerms sumOfProducts).1 &&
       evalSumOfProducts ρ (first :: others)) ∨
  length sumOfProducts ≤ 1 ∧
  collectIdenticalTerms sumOfProducts = ([], sumOfProducts).
Proof.
  unfold collectIdenticalTerms.
  destruct sumOfProducts as [|firstProduct [|second others]].
  - right. split; [simpl; lia|done].
  - right. split; [simpl; lia|done].
  - left.
    pose proof (collectTerms_eval ρ firstProduct [] (second :: others) []) as Heval.
    pose proof (length_collectTerms firstProduct [] (second :: others) []) as Hlen.
    destruct (collectTerms firstProduct [] (second :: others) [])
      as [[first others'] lifted].
    cbn [fst snd] in *. rewrite app_nil_l in Heval.
    change (evalProductOfSums ρ []) with true in Heval. rewrite andb_true_l in Heval.
    exists first, others'. split_and!; [simpl; by rewrite Hlen|done|done].
Qed.

Lemma collectIdenticalTerms_keep ρ sumOfProducts :
  length (collectIdenticalTerms sumOfProducts).2 = length sumOfProducts →
  evalSumOfProducts ρ sumOfProducts =
  evalProductOfSums ρ (collectIdenticalTerms sumOfProducts).1 &&
  evalSumOfProducts ρ (collectIdenticalTerms sumOfProducts).2.
Proof.
  intros Hsame.
  destruct (collectIdenticalTerms_collected ρ sumOfProducts)
    as [(first & others & Hlen & Hresidue & Heval)|[_ ->]]; [|done].
  rewrite Heval, Hresidue. rewrite filter_length_eq; [done|].
  by rewrite <- Hresidue, Hsame.
Qed.

Lemma collectIdenticalTerms_erase ρ sumOfProducts :
  length (collectIdenticalTerms sumOfProducts).2 ≠ length sumOfProducts →
  evalSumOfProducts ρ sumOfProducts =
  evalProductOfSums ρ (collectIdenticalTerms sumOfProducts).1.
Proof.
  intros Hdiff.
  destruct (collectIdenticalTerms_collected ρ sumOfProducts)
    as [(first & others & Hlen & Hresidue & Heval)|[_ Heq]].
  - rewrite Heval. rewrite evalSumOfProducts_empty_product; [by rewrite andb_true_r|].
    destruct (filter_length_ne (λ product, isEmptyProduct product = false)
                (first :: others)) as (product & Hin & Hempty).
    { rewrite <- Hresidue. congruence. }
    destruct product; [done|]. by destruct Hempty.
  - rewrite Heq in Hdiff. done.
Qed.

(** X3. Step 1 of [simplifySumOfProducts] factors the sum of
    products: as long as it erases no product, the input is the
    conjunction of the sums it lifts out and of the products it
    leaves. When it does erase a product (one whose terms were all
    lifted), the input is equivalent to the lifted sums alone, and what
    the products that are left say no longer matters. *)
Theorem collectIdenticalTerms_eval ρ sumOfProducts :
  evalSumOfProducts ρ sumOfProducts =
  evalProductOfSums ρ (collectIdenticalTerms sumOfProducts).1 &&
  (if decide (length (collectIdenticalTerms sumOfProducts).2 = length sumOfProducts)
   then evalSumOfProducts ρ (collectIdenticalTerms sumOfProducts).2
   else true).
Proof.
  destruct (decide _) as [Hsame|Hdiff].
  - by apply collectIdenticalTerms_keep.
  - rewrite andb_true_r. by apply collectIdenticalTerms_erase.
Qed.

(** *** Where the terms of the result come from *)

Lemma elem_of_concat {A : Type} (x : A) (ls : list (list A)) :
  x ∈ concat ls ↔ ∃ l, l ∈ ls ∧ x ∈ l.
Proof.
  induction ls as [|l ls IH]; simpl.
  - split; [by intros ?%elem_of_nil|]. by intros (l & ?%elem_of_nil & _).
  - rewrite elem_of_app, IH. split.
    + intros [Hx|(l' & Hl' & Hx)]; [exists l; split; [left|done]|].
      exists l'. split; [by right|done].
    + intros (l' & [->|Hl']%elem_of_cons & Hx); [by left|]. right. eauto.
Qed.

Lemma zip_with_delete_terms (t : ExpressionRef) locations products :
  t ∈ concat (zip_with (λ location product, delete location product)
                       locations products) →
  t ∈ concat products.
Proof.
  revert locations. induction products as [|product products IH];
    intros [|location locations]; simpl; try done.
  - by intros ?%elem_of_nil.
  - rewrite !elem_of_app. intros [Ht|Ht]; [left|right; eauto].
    eapply elem_of_sublist; [done|]. apply sublist_delete.
Qed.

Lemma collectTerms_terms remaining : ∀ kept otherProducts productOfSums,
  let '(first, others, lifted) :=
    collectTerms remaining kept otherProducts productOfSums in
  (∀ t, t ∈ first → t ∈ kept ++ remaining) ∧
  (∀ t, t ∈ concat others → t ∈ concat otherProducts) ∧
  (∀ sum, sum ∈ lifted → sum ∈ productOfSums ∨ ∃ t, t ∈ remaining ∧ sum = [t]).
Proof.
  induction remaining as [|term rest IH]; intros kept others pos; cbn [collectTerms].
  - rewrite app_nil_r. auto.
  - destruct (decide _) as [Hlen|Hlen].
    + specialize (IH kept (zip_with (λ location product, delete location product)
                             (termLocations term others) others) (pos ++ [[term]])).
      destruct (collectTerms rest kept _ _) as [[first others'] lifted].
      destruct IH as (H1 & H2 & H3). split_and!.
      * intros t Ht. apply H1 in Ht. set_solver.
      * intros t Ht. eapply zip_with_delete_terms; eauto.
      * intros sum Hsum. apply H3 in Hsum as [Hsum|(t & Ht & ->)].
        -- apply elem_of_app in Hsum as [?|Hsum]; [by left|].
           apply list_elem_of_singleton in Hsum as ->. right. exists term. split; [left|done].
        -- right. exists t. split; [by right|done].
    + specialize (IH (kept ++ [term]) others pos).
      destruct (collectTerms rest _ _ _) as [[first others'] lifted].
      destruct IH as (H1 & H2 & H3). split_and!; [|done|].
      * intros t Ht. apply H1 in Ht. set_solver.
      * intros sum Hsum. apply H3 in Hsum as [Hsum|(t & Ht & ->)]; [by left|].
        right. exists t. split; [by right|done].
Qed.

Lemma collectIdenticalTerms_terms sumOfProducts :
  (∀ sum, sum ∈ (collectIdenticalTerms sumOfProducts).1 →
     ∃ t, t ∈ concat sumOfProducts ∧ sum = [t]) ∧
  (∀ t, t ∈ concat (collectIdenticalTerms sumOfProducts).2 →
     t ∈ concat sumOfProducts).
Proof.
  unfold collectIdenticalTerms.
  destruct sumOfProducts as [|firstProduct [|second others]];
    [split; [by intros ? ?%elem_of_nil|done]..|].
  pose proof (collectTerms_terms firstProduct [] (second :: others) []) as Hterms.
  destruct (collectTerms firstProduct [] (second :: others) [])
    as [[first others'] lifted].
  destruct Hterms as (H1 & H2 & H3). cbn [fst snd]. split.
  - intros sum Hsum. apply H3 in Hsum as [?%elem_of_nil|(t & Ht & ->)]; [done|].
    exists t. split; [|done]. cbn [concat]. apply elem_of_app. by left.
  - intros t Ht. apply elem_of_concat in Ht as (product & Hproduct & Ht).
    apply list_elem_of_filter in Hproduct as [_ Hproduct].
    cbn [concat]. apply elem_of_app.
    apply elem_of_cons in Hproduct as [->|Hproduct].
    + left. by apply H1 in Ht.
    + right. apply H2. apply elem_of_concat. eauto.
Qed.

Lemma expandToProductOfSums_sums rows : ∀ stack output sum,
  sum ∈ expandToProductOfSums stack output rows →
  sum ∈ output ∨
  ∃ tail, sum = stack ++ tail ∧ length tail = length rows ∧
          ∀ t, t ∈ tail → t ∈ concat rows.
Proof.
  induction rows as [|row rows IH]; intros stack output sum; simpl.
  - intros [?|Hsum]%elem_of_app; [by left|].
    apply list_elem_of_singleton in Hsum as ->. right. exists [].
    rewrite app_nil_r. split_and!; [done..|]. by intros ? ?%elem_of_nil.
  - assert (∀ out,
      sum ∈ foldl (λ out expr, expandToProductOfSums (stack ++ [expr]) out rows) out row →
      sum ∈ out ∨
      ∃ e tail, e ∈ row ∧ sum = stack ++ e :: tail ∧ length tail = length rows ∧
                ∀ t, t ∈ tail → t ∈ concat rows) as Hrow.
    { induction row as [|e row IHrow]; intros out; simpl; [by left|].
      intros Hsum. apply IHrow in Hsum as [Hsum|(e' & tail & He' & -> & Hlen & Htail)].
      - apply IH in Hsum as [?|(tail & -> & Hlen & Htail)]; [by left|].
        right. exists e, tail. rewrite <- app_assoc. split_and!; [left|done..].
      - right. exists e', tail. split_and!; [by right|done..]. }
    intros Hsum. apply Hrow in Hsum as [?|(e & tail & He & -> & Hlen & Htail)];
      [by left|].
    right. exists (e :: tail). split_and!; [done|simpl; by rewrite Hlen|].
    intros t [->|Ht]%elem_of_cons; apply elem_of_app; [by left|right; eauto].
Qed.

Lemma length_expandToProductOfSums rows : ∀ stack output,
  length (expandToProductOfSums stack output rows) =
  length output + foldr (λ row n, length row * n) 1 rows.
Proof.
  induction rows as [|row rows IH]; intros stack output; simpl.
  - by rewrite length_app.
  - assert (∀ out,
      length (foldl (λ out expr, expandToProductOfSums (stack ++ [expr]) out rows)
                    out row) =
      length out + length row * foldr (λ row n, length row * n) 1 rows) as Hrow.
    { induction row as [|e row IHrow]; intros out; simpl; [lia|].
      rewrite IHrow, IH. lia. }
    apply Hrow.
Qed.

(** X2. Started on an empty stack and an empty output,
    [expandToProductOfSums] returns a product of sums equivalent to
    the sum of products it is given: one sum for every choice of a
    term in each product, each as long as there are products. *)
Theorem expandToProductOfSums_distributes ρ rows :
  evalProductOfSums ρ (expandToProductOfSums [] [] rows) = evalSumOfProducts ρ rows ∧
  length (expandToProductOfSums [] [] rows) =
    foldr (λ row n, length row * n) 1 rows ∧
  Forall (λ sum, length sum = length rows) (expandToProductOfSums [] [] rows).
Proof.
  split_and!.
  - by rewrite expandToProductOfSums_eval.
  - by rewrite length_expandToProductOfSums.
  - apply Forall_forall. intros sum Hsum.
    apply expandToProductOfSums_sums in Hsum as [Hin|(tail & -> & Hlen & _)]; [|done].
    by apply elem_of_nil in Hin.
Qed.

Lemma removeByReference_terms value rest x :
  x ∈ removeByReference value rest → x ∈ rest.
Proof.
  induction rest as [|y rest IH]; simpl; [done|].
  destruct (samePointer y value).
  - intros ?%IH. by right.
  - intros [->|Hx]%elem_of_cons; [left|right].
    by apply list_elem_of_filter in Hx as [_ ?].
Qed.

Lemma removeFirstByReference_terms range x :
  x ∈ removeFirstByReference range → x ∈ range.
Proof.
  destruct range as [|value rest]; simpl; [done|].
  intros ?%removeByReference_terms. by right.
Qed.

Lemma removeNegationPairs_terms fuel : ∀ before live sum x,
  removeNegationPairs fuel before live = Done sum →
  x ∈ sum → x ∈ before ++ live.
Proof.
  induction fuel as [|fuel IH]; intros before [|e rest] sum x; simpl.
  - intros [= <-]. by rewrite app_nil_r.
  - done.
  - intros [= <-]. by rewrite app_nil_r.
  - destruct (findNegation e rest) as [[k|]| |]; simpl; try done.
    + intros Hrun Hx. apply (IH _ _ _ _ Hrun) in Hx.
      apply elem_of_app in Hx as [?|Hx]; apply elem_of_app; [by left|right].
      apply removeByReference_terms in Hx. right.
      apply elem_of_app in Hx as [Hx|Hx].
      * eapply elem_of_sublist; [done|]. apply sublist_take.
      * apply removeFirstByReference_terms in Hx.
        eapply elem_of_sublist; [done|]. apply sublist_drop.
    + intros Hrun Hx. apply (IH _ _ _ _ Hrun) in Hx.
      rewrite <- app_assoc in Hx. done.
Qed.

Lemma removeContradictions_sums productOfSums : ∀ result sum,
  removeContradictions productOfSums = Done result →
  sum ∈ result →
  sum ≠ [] ∧ ∃ original, original ∈ productOfSums ∧ ∀ x, x ∈ sum → x ∈ original.
Proof.
  induction productOfSums as [|first rest IH]; intros result sum; simpl.
  - by intros [= <-] ?%elem_of_nil.
  - destruct (removeNegationPairs (length first) [] first) as [newSum| |] eqn:Hsum;
      simpl; try done.
    destruct (removeContradictions rest) as [newRest| |]; simpl; try done.
    intros [= <-] Hin.
    assert (sum ∈ newRest →
            sum ≠ [] ∧ ∃ original, original ∈ first :: rest ∧
                                   ∀ x, x ∈ sum → x ∈ original) as Hrest.
    { intros Hin'. destruct (IH _ _ eq_refl Hin') as (? & original & ? & ?).
      split; [done|]. exists original. split; [by right|done]. }
    destruct newSum as [|t newSum]; [auto|].
    apply elem_of_cons in Hin as [->|Hin]; [|auto].
    split; [done|]. exists first. split; [left|].
    intros x Hx. by apply (removeNegationPairs_terms _ _ _ _ _ Hsum) in Hx.
Qed.

Lemma collapse_is_Some terms joint : terms ≠ [] → is_Some (collapse terms joint).
Proof.
  unfold collapse. destruct terms as [|t terms]; [done|]. intros _. simpl.
  generalize (pointee t). induction terms as [|u terms IH]; intros e; simpl; eauto.
Qed.

Lemma simplifySumOfProducts_step2 sumOfProducts :
  sumOfProducts ≠ [] →
  simplifySumOfProducts sumOfProducts =
  match (collectIdenticalTerms sumOfProducts).2 with
  | [] => Crashed
  | residue =>
      removeContradictions
        (expandToProductOfSums [] (collectIdenticalTerms sumOfProducts).1 residue)
  end.
Proof.
  unfold simplifySumOfProducts. destruct sumOfProducts as [|first others]; [done|].
  intros _. by destruct (collectIdenticalTerms (first :: others)) as [lifted [|row rows]].
Qed.

(** X4. Every sum that [simplifySumOfProducts] returns holds a term,
    so that [collapse] makes an expression of it, and every term of it
    is one of the pointers of the input. *)
Theorem simplifySumOfProducts_sums sumOfProducts productOfSums :
  simplifySumOfProducts sumOfProducts = Done productOfSums →
  Forall (λ sum, is_Some (collapse sum ShortCircuitOr) ∧
                 ∀ t, t ∈ sum → t ∈ concat sumOfProducts) productOfSums.
Proof.
  intros Hrun. apply Forall_forall. intros sum Hsum.
  destruct sumOfProducts as [|first others].
  { injection Hrun as <-. by apply elem_of_nil in Hsum. }
  rewrite simplifySumOfProducts_step2 in Hrun by done.
  destruct (collectIdenticalTerms_terms (first :: others)) as [Hlifted Hresidue].
  destruct (collectIdenticalTerms (first :: others)) as [lifted [|row rows]];
    cbn [fst snd] in *; [done|].
  destruct (removeContradictions_sums _ _ _ Hrun Hsum) as (Hne & original & Hin & Hsub).
  split; [by apply collapse_is_Some|].
  intros t Ht. apply Hsub in Ht.
  apply expandToProductOfSums_sums in Hin as [Hin|(tail & -> & _ & Htail)].
  - apply Hlifted in Hin as (t' & Ht' & ->).
    by apply list_elem_of_singleton in Ht as ->.
  - apply Hresidue. rewrite app_nil_l in Ht. auto.
Qed.

(** *** Step 3 on literals *)

Lemma complementary_sym e u : complementary e u = complementary u e.
Proof. unfold complementary. apply orb_comm. Qed.

Lemma complementary_eval ρ e u :
  complementary e u = true → evalTerm ρ e = negb (evalTerm ρ u).
Proof.
  unfold complementary, isNegationOf, evalTerm.
  intros [H|H]%orb_true_iff; apply isReferenceEqual_eq in H; rewrite H; simpl;
    by rewrite ?negb_involutive.
Qed.

Lemma complementary_literal_self e :
  isLiteral (pointee e) = true → complementary e e = false.
Proof.
  unfold complementary, isNegationOf.
  destruct (pointee e) as [v|[|c] [w| |]|]; simpl; done.
Qed.

Lemma findNegated_literal v range :
  Forall (λ t, isLiteral (pointee t) = true) range →
  ∃ r, findNegated (ValueExpression v) range = Done r ∧
       match r with
       | None => ∀ u, u ∈ range → pointee u ≠ UnaryOperatorExpression LogicalNegate (ValueExpression v)
       | Some k => ∃ u, range !! k = Some u ∧
                        pointee u = UnaryOperatorExpression LogicalNegate (ValueExpression v)
       end.
Proof.
  induction 1 as [|that rest Hthat _ (r & Hr & Hspec)]; simpl.
  - exists None. split; [done|]. by intros ? ?%elem_of_nil.
  - destruct (pointee that) as [w|[|c] [w| |]|] eqn:Hp; simpl in Hthat; try done.
    + rewrite Hr. simpl. exists (S <$> r). split; [done|].
      destruct r as [k|]; simpl; [done|].
      intros u [->|Hu]%elem_of_cons; [congruence|auto].
    + simpl. destruct (bool_decide (w = v)) eqn:Hw.
      * apply bool_decide_eq_true in Hw as ->. exists (Some 0). split; [done|].
        exists that. done.
      * apply bool_decide_eq_false in Hw. rewrite Hr. simpl.
        exists (S <$> r). split; [done|].
        destruct r as [k|]; simpl; [done|].
        intros u [->|Hu]%elem_of_cons; [congruence|auto].
Qed.

Lemma complementary_literals e u :
  isLiteral (pointee e) = true → isLiteral (pointee u) = true →
  complementary e u = true ↔
  pointee u = UnaryOperatorExpression LogicalNegate (pointee e) ∨
  pointee e = UnaryOperatorExpression LogicalNegate (pointee u).
Proof.
  intros _ _. unfold complementary, isNegationOf.
  by rewrite orb_true_iff, !isReferenceEqual_eq.
Qed.

Lemma findNegation_literal e range :
  isLiteral (pointee e) = true →
  Forall (λ t, isLiteral (pointee t) = true) range →
  ∃ r, findNegation e range = Done r ∧
       match r with
       | None => ∀ u, u ∈ range → complementary e u = false
       | Some k => ∃ u, range !! k = Some u ∧ complementary e u = true
       end.
Proof.
  intros He Hrange. unfold findNegation.
  destruct (pointee e) as [v|[|c] [w| |]|] eqn:Hp; simpl in He; try done.
  - destruct (findNegated_literal v range Hrange) as (r & -> & Hspec).
    exists r. split; [done|]. destruct r as [k|].
    + destruct Hspec as (u & Hu & Heq). exists u. split; [done|].
      unfold complementary, isNegationOf. rewrite Hp, Heq. simpl.
      by rewrite bool_decide_eq_true_2.
    + intros u Hu. specialize (Hspec u Hu).
      rewrite Forall_forall in Hrange. specialize (Hrange u Hu).
      unfold complementary, isNegationOf. rewrite Hp.
      destruct (pointee u) as [w|[|c] [w| |]|]; simpl in *; try done.
      rewrite orb_false_r. apply bool_decide_eq_false. congruence.
  - eexists. split; [done|].
    destruct (find_if _ range) as [k|] eqn:Hfind.
    + apply find_if_Some in Hfind as (u & Hu & Heq). exists u. split; [done|].
      apply isReferenceEqual_eq in Heq.
      unfold complementary, isNegationOf. rewrite Hp, Heq. simpl.
      by rewrite bool_decide_eq_true_2.
    + intros u Hu. rewrite find_if_None in Hfind. specialize (Hfind u Hu).
      rewrite Forall_forall in Hrange. specialize (Hrange u Hu).
      unfold complementary, isNegationOf. rewrite Hp.
      destruct (pointee u) as [x|[|c] [x| |]|]; simpl in *; try done.
      apply bool_decide_eq_false in Hfind. apply bool_decide_eq_false. congruence.
Qed.

Lemma pairFree_spec terms :
  pairFree terms = true ↔
  ∀ t u, t ∈ terms → u ∈ terms → isNegationOf (pointee u) (pointee t) = false.
Proof.
  unfold pairFree. rewrite forallb_forall. split.
  - intros H t u Ht Hu. apply list_elem_of_In in Ht. specialize (H t Ht).
    rewrite forallb_forall in H. apply list_elem_of_In in Hu.
    specialize (H u Hu). by apply negb_true_iff in H.
  - intros H t Ht. apply forallb_forall. intros u Hu.
    apply negb_true_iff. apply H; by apply list_elem_of_In.
Qed.

Lemma pairFree_complementary terms :
  pairFree terms = true ↔
  ∀ t u, t ∈ terms → u ∈ terms → complementary t u = false.
Proof.
  rewrite pairFree_spec. unfold complementary. split.
  - intros H t u Ht Hu. by rewrite (H t u), (H u t).
  - intros H t u Ht Hu. specialize (H t u Ht Hu).
    by apply orb_false_iff in H as [? _].
Qed.

Lemma removeNegationPairs_pairFree fuel : ∀ before live sum,
  Forall (λ t, isLiteral (pointee t) = true) (before ++ live) →
  (∀ b x, b ∈ before → x ∈ before ++ live → complementary b x = false) →
  removeNegationPairs fuel before live = Done sum →
  pairFree sum = true.
Proof.
  induction fuel as [|fuel IH]; intros before [|e rest] sum Hlit Hinv; simpl.
  - intros [= <-]. rewrite app_nil_r in Hinv. apply pairFree_complementary. auto.
  - done.
  - intros [= <-]. rewrite app_nil_r in Hinv. apply pairFree_complementary. auto.
  - rewrite Forall_app, Forall_cons in Hlit. destruct Hlit as (Hbefore & He & Hrest).
    destruct (findNegation_literal e rest He Hrest) as (r & -> & Hspec). simpl.
    assert (∀ k x, x ∈ removeFirstByReference
                       (e :: take k rest ++ removeFirstByReference (drop k rest)) →
                 x ∈ rest) as Hsub.
    { intros k x Hx. simpl in Hx. apply removeByReference_terms in Hx.
      apply elem_of_app in Hx as [Hx|Hx].
      - eapply elem_of_sublist; [done|]. apply sublist_take.
      - apply removeFirstByReference_terms in Hx.
        eapply elem_of_sublist; [done|]. apply sublist_drop. }
    destruct r as [k|].
    + apply IH.
      * apply Forall_app. split; [done|]. apply Forall_forall. intros x Hx.
        rewrite Forall_forall in Hrest. apply Hrest. eauto.
      * intros b x Hb Hx. apply Hinv; [done|].
        apply elem_of_app in Hx as [?|Hx]; apply elem_of_app; [by left|right].
        right. eauto.
    + apply IH.
      * rewrite <- app_assoc. simpl. apply Forall_app. by split; [|constructor].
      * intros b x Hb Hx. rewrite <- app_assoc in Hx. simpl in Hx.
        apply elem_of_app in Hb as [Hb|Hb]; [by apply Hinv|].
        apply list_elem_of_singleton in Hb as ->.
        apply elem_of_app in Hx as [Hx|Hx].
        -- rewrite complementary_sym. apply Hinv; [done|]. set_solver.
        -- apply elem_of_cons in Hx as [->|Hx]; [by apply complementary_literal_self|].
           auto.
Qed.

Lemma literalTerms_spec sumOfProducts :
  literalTerms sumOfProducts = true ↔
  ∀ t, t ∈ concat sumOfProducts → isLiteral (pointee t) = true.
Proof.
  unfold literalTerms. rewrite forallb_forall. split.
  - intros H t (product & Hproduct & Ht)%elem_of_concat.
    apply list_elem_of_In in Hproduct. specialize (H _ Hproduct).
    rewrite forallb_forall in H. apply H. by apply list_elem_of_In.
  - intros H product Hproduct. apply forallb_forall. intros t Ht.
    apply H. apply elem_of_concat. exists product. by rewrite !list_elem_of_In.
Qed.

Lemma removeContradictions_pairFree productOfSums : ∀ result,
  Forall (Forall (λ t, isLiteral (pointee t) = true)) productOfSums →
  removeContradictions productOfSums = Done result →
  Forall (λ sum, pairFree sum = true) result.
Proof.
  induction productOfSums as [|first rest IH]; intros result Hlit; simpl.
  - intros [= <-]. constructor.
  - apply Forall_cons in Hlit as [Hfirst Hrest].
    destruct (removeNegationPairs (length first) [] first) as [newSum| |] eqn:Hsum;
      simpl; try done.
    destruct (removeContradictions rest) as [newRest| |]; simpl; try done.
    intros [= <-]. specialize (IH _ Hrest eq_refl).
    destruct newSum as [|t newSum]; [done|]. constructor; [|done].
    eapply removeNegationPairs_pairFree; [| |exact Hsum]; [done|].
    by intros ? ? ?%elem_of_nil.
Qed.

(** X5. On products of literals, which is what [build] records, no
    sum that [simplifySumOfProducts] returns holds a term together
    with its negation. *)
Theorem simplifySumOfProducts_pairFree sumOfProducts productOfSums :
  literalTerms sumOfProducts = true →
  simplifySumOfProducts sumOfProducts = Done productOfSums →
  Forall (λ sum, pairFree sum = true) productOfSums.
Proof.
  intros Hlit Hrun. rewrite literalTerms_spec in Hlit.
  destruct sumOfProducts as [|first others].
  { injection Hrun as <-. constructor. }
  rewrite simplifySumOfProducts_step2 in Hrun by done.
  destruct (collectIdenticalTerms_terms (first :: others)) as [Hlifted Hresidue].
  destruct (collectIdenticalTerms (first :: others)) as [lifted [|row rows]];
    cbn [fst snd] in *; [done|].
  eapply removeContradictions_pairFree; [|exact Hrun].
  apply Forall_forall. intros sum Hsum. apply Forall_forall. intros t Ht.
  apply expandToProductOfSums_sums in Hsum as [Hin|(tail & -> & _ & Htail)].
  - apply Hlifted in Hin as (t' & Ht' & ->).
    apply list_elem_of_singleton in Ht as ->. auto.
  - rewrite app_nil_l in Ht. auto.
Qed.

(** *** When the simplifier is right *)

Lemma removeNegationPairs_id fuel : ∀ before live,
  Forall (λ t, isLiteral (pointee t) = true) live →
  (∀ t u, t ∈ live → u ∈ live → complementary t u = false) →
  length live ≤ fuel →
  removeNegationPairs fuel before live = Done (before ++ live).
Proof.
  induction fuel as [|fuel IH]; intros before [|e rest] Hlit Hfree Hlen;
    simpl in *; try lia; try by rewrite app_nil_r.
  apply Forall_cons in Hlit as [He Hrest].
  destruct (findNegation_literal e rest He Hrest) as ([k|] & -> & Hspec); simpl.
  - destruct Hspec as (u & Hu & Hcomp). apply list_elem_of_lookup_2 in Hu.
    rewrite Hfree in Hcomp; [done|left|by right].
  - rewrite IH; [by rewrite <- app_assoc|done| |lia].
    intros t u Ht Hu. apply Hfree; by right.
Qed.

Lemma removeNegationPairs_pair e u :
  isLiteral (pointee e) = true → isLiteral (pointee u) = true →
  complementary e u = true →
  removeNegationPairs 2 [] [e; u] = Done [].
Proof.
  intros He Hu Hcomp. simpl.
  destruct (findNegation_literal e [u] He) as ([k|] & -> & Hspec); simpl.
  - by repeat constructor.
  - destruct Hspec as (u' & Hu' & _). destruct k as [|k]; [done|].
    by destruct k.
  - rewrite Hspec in Hcomp; [done|left].
Qed.

Lemma removeContradictions_eval productOfSums :
  Forall (λ sum, Forall (λ t, isLiteral (pointee t) = true) sum ∧ sum ≠ [] ∧
                 (pairFree sum = true ∨ length sum ≤ 2)) productOfSums →
  ∃ result, removeContradictions productOfSums = Done result ∧
            ∀ ρ, evalProductOfSums ρ result = evalProductOfSums ρ productOfSums.
Proof.
  induction 1 as [|sum rest (Hlit & Hne & Hshape) _ (newRest & Hrest & Heval)]; simpl.
  - by exists [].
  - rewrite Hrest.
    assert (removeNegationPairs (length sum) [] sum = Done sum ∨
            removeNegationPairs (length sum) [] sum = Done [] ∧
            ∀ ρ, existsb (evalTerm ρ) sum = true) as [Hsum|[Hsum Htrue]].
    { destruct Hshape as [Hfree|Hlen].
      - left. apply removeNegationPairs_id; [done| |done].
        by apply pairFree_complementary.
      - destruct sum as [|e [|u [|? ?]]]; [done| | |simpl in Hlen; lia].
        + left. apply removeNegationPairs_id; [done| |done].
          intros t u' Ht Hu'. apply list_elem_of_singleton in Ht as ->.
          apply list_elem_of_singleton in Hu' as ->.
          apply complementary_literal_self. by apply Forall_cons in Hlit as [? _].
        + apply Forall_cons in Hlit as [He Hlit].
          apply Forall_cons in Hlit as [Hu _].
          destruct (complementary e u) eqn:Hcomp.
          * right. split; [by apply removeNegationPairs_pair|].
            intros ρ. simpl. rewrite (complementary_eval ρ e u Hcomp).
            by destruct (evalTerm ρ u).
          * left. apply removeNegationPairs_id; [by repeat constructor| |done].
            intros t u' Ht Hu'.
            assert (t = e ∨ t = u) as [->| ->] by set_solver;
              (assert (u' = e ∨ u' = u) as [->| ->] by set_solver);
              rewrite ?complementary_literal_self by done; try done.
            by rewrite complementary_sym. }
    + rewrite Hsum. simpl. destruct sum as [|t sum]; [done|].
      eexists. split; [done|]. intros ρ. unfold evalProductOfSums in *.
      cbn [forallb]. by rewrite Heval.
    + rewrite Hsum. simpl. exists newRest. split; [done|].
      intros ρ. unfold evalProductOfSums in *. cbn [forallb].
      rewrite Heval. unfold evalTerm in Htrue. by rewrite Htrue.
Qed.

(** X6. [simplifySumOfProducts] returns a product of sums that is
    equivalent to its input when the input is a non-empty list of
    products of literals, step 1 erases no product, and either there
    are at most two products or no term of the input is the negation
    of another. *)
Theorem simplifySumOfProducts_equivalent sumOfProducts :
  literalTerms sumOfProducts = true →
  sumOfProducts ≠ [] →
  length (collectIdenticalTerms sumOfProducts).2 = length sumOfProducts →
  length sumOfProducts ≤ 2 ∨ pairFree (concat sumOfProducts) = true →
  ∃ productOfSums,
    simplifySumOfProducts sumOfProducts = Done productOfSums ∧
    ∀ ρ, evalProductOfSums ρ productOfSums = evalSumOfProducts ρ sumOfProducts.
Proof.
  intros Hlit Hne Hkeep Hcase. rewrite literalTerms_spec in Hlit.
  rewrite simplifySumOfProducts_step2 by done.
  pose proof (λ ρ, collectIdenticalTerms_keep ρ sumOfProducts Hkeep) as Hstep1.
  destruct (collectIdenticalTerms_terms sumOfProducts) as [Hlifted Hresidue].
  destruct (collectIdenticalTerms sumOfProducts) as [lifted residue].
  cbn [fst snd] in *.
  destruct residue as [|row rows]; [by destruct sumOfProducts|].
  destruct (removeContradictions_eval
              (expandToProductOfSums [] lifted (row :: rows)))
    as (result & Hrun & Heval).
  { apply Forall_forall. intros sum Hsum.
    apply expandToProductOfSums_sums in Hsum as [Hin|(tail & -> & Hlen & Htail)].
    - apply Hlifted in Hin as (t & Ht & ->). split_and!; [|done|right; simpl; lia].
      repeat constructor. auto.
    - rewrite app_nil_l. split_and!.
      + apply Forall_forall. auto.
      + by destruct tail.
      + destruct Hcase as [Hshort|Hfree]; [right; lia|left].
        rewrite pairFree_spec in Hfree. apply pairFree_spec. auto. }
  exists result. split; [done|]. intros ρ.
  rewrite Heval, expandToProductOfSums_eval, Hstep1. done.
Qed.

(** *** When the simplifier crashes *)

Lemma termLocations_complete term otherProducts :
  Forall (λ product, ∃ u, u ∈ product ∧ pointee u = pointee term) otherProducts →
  length (termLocations term otherProducts) = length otherProducts.
Proof.
  induction 1 as [|product rest (u & Hu & Heq) _ IH]; simpl; [done|].
  destruct (find_if _ product) as [location|] eqn:Hfind; simpl; [by rewrite IH|].
  rewrite find_if_None in Hfind. specialize (Hfind u Hu). simpl in Hfind.
  apply isReferenceEqual_eq in Heq. congruence.
Qed.

Lemma zip_with_delete_permutations term rest locations products :
  Forall2 (λ location product,
             ∃ u, product !! location = Some u ∧ pointee u = pointee term)
          locations products →
  Forall (λ product, map pointee product ≡ₚ map pointee rest)
         (zip_with (λ location product, delete location product) locations products) ↔
  Forall (λ product, map pointee product ≡ₚ map pointee (term :: rest)) products.
Proof.
  induction 1 as [|location product locations products (u & Hu & Heq) _ IH]; simpl.
  - done.
  - rewrite !Forall_cons, IH.
    assert (map pointee product ≡ₚ pointee term :: map pointee (delete location product))
      as Hperm.
    { rewrite <- Heq. change (map pointee product ≡ₚ map pointee (u :: delete location product)).
      apply Permutation_map. by apply delete_Permutation. }
    split; intros [H1 H2]; (split; [|done]).
    + by rewrite Hperm, H1.
    + rewrite Hperm in H1. by apply Permutation_cons_inv in H1.
Qed.

Lemma collectTerms_empty remaining : ∀ kept otherProducts productOfSums,
  let '(first, others, lifted) :=
    collectTerms remaining kept otherProducts productOfSums in
  first = [] ∧ Forall (λ product, product = []) others ↔
  kept = [] ∧
  Forall (λ product, map pointee product ≡ₚ map pointee remaining) otherProducts.
Proof.
  induction remaining as [|term rest IH]; intros kept others pos; cbn [collectTerms].
  - split; intros [-> H]; (split; [done|]); eapply Forall_impl; try exact H; simpl.
    + by intros ? ->.
    + intros product Hp. apply Permutation_nil_r in Hp. by destruct product.
  - destruct (decide _) as [Hlen|Hlen].
    + specialize (IH kept (zip_with (λ location product, delete location product)
                             (termLocations term others) others) (pos ++ [[term]])).
      destruct (collectTerms rest kept _ _) as [[first others'] lifted].
      rewrite IH. rewrite zip_with_delete_permutations; [done|].
      by apply termLocations_spec.
    + specialize (IH (kept ++ [term]) others pos).
      destruct (collectTerms rest _ _ _) as [[first others'] lifted].
      rewrite IH. split.
      * intros [Hkept _]. by destruct kept.
      * intros [_ Hall]. destruct Hlen. apply termLocations_complete.
        eapply Forall_impl; [exact Hall|]. intros product Hperm.
        assert (pointee term ∈ map pointee product) as Hin.
        { rewrite Hperm. simpl. left. }
        apply list_elem_of_fmap in Hin as (u & Heq & Hu). eauto.
Qed.

Lemma collectIdenticalTerms_empty sumOfProducts :
  sumOfProducts ≠ [] →
  (collectIdenticalTerms sumOfProducts).2 = [] ↔
  ∃ first second others,
    sumOfProducts = first :: second :: others ∧
    Forall (λ product, map pointee product ≡ₚ map pointee first) (second :: others).
Proof.
  intros Hne. unfold collectIdenticalTerms.
  destruct sumOfProducts as [|firstProduct [|second others]]; [done| |].
  - simpl. split; [done|]. by intros (? & ? & ? & ? & _).
  - pose proof (collectTerms_empty firstProduct [] (second :: others) []) as Hempty.
    destruct (collectTerms firstProduct [] (second :: others) [])
      as [[first others'] lifted].
    cbn [snd].
    assert (filter (λ product, isEmptyProduct product = false) (first :: others') = [] ↔
            first = [] ∧ Forall (λ product, product = []) others') as ->.
    { transitivity (Forall (λ product : list ExpressionRef, product = [])
                           (first :: others')); [|by rewrite Forall_cons].
      split.
      - intros Hfilter. apply Forall_forall. intros product Hin.
        destruct product as [|t product]; [done|].
        assert ((t :: product) ∈ filter (λ product, isEmptyProduct product = false)
                                      (first :: others')) as Hin'.
        { by apply list_elem_of_filter. }
        rewrite Hfilter in Hin'. by apply elem_of_nil in Hin'.
      - intros Hall. induction Hall as [|product products -> _ IHall]; [done|].
        rewrite filter_cons. simpl. done. }
    rewrite Hempty. split.
    + intros [_ Hall]. eauto.
    + intros (? & ? & ? & [= <- <- <-] & Hall). done.
Qed.

Lemma removeNegationPairs_literal_Done fuel : ∀ before live,
  Forall (λ t, isLiteral (pointee t) = true) live →
  length live ≤ fuel →
  ∃ sum, removeNegationPairs fuel before live = Done sum.
Proof.
  intros before live Hlit Hlen.
  pose proof (removeNegationPairs_fuel fuel before live Hlen) as Hfuel.
  revert before live Hlit Hlen Hfuel.
  induction fuel as [|fuel IH]; intros before [|e rest] Hlit Hlen Hfuel; simpl in *;
    eauto; try done.
  apply Forall_cons in Hlit as [He Hrest].
  destruct (findNegation_literal e rest He Hrest) as (r & Hr & _).
  rewrite Hr in *. simpl in *.
  destruct r as [k|].
  - apply IH; [| |done].
    + apply Forall_forall. intros x Hx. apply removeByReference_terms in Hx.
      rewrite Forall_forall in Hrest. apply Hrest.
      apply elem_of_app in Hx as [Hx|Hx].
      * eapply elem_of_sublist; [done|]. apply sublist_take.
      * apply removeFirstByReference_terms in Hx.
        eapply elem_of_sublist; [done|]. apply sublist_drop.
    + pose proof (length_removeByReference e
                    (take k rest ++ removeFirstByReference (drop k rest))) as H1.
      pose proof (length_removeFirstByReference (drop k rest)) as H2.
      rewrite length_app, length_take in H1. rewrite length_drop in H2. lia.
  - apply IH; [done|lia|done].
Qed.

Lemma removeContradictions_literal_Done productOfSums :
  Forall (Forall (λ t, isLiteral (pointee t) = true)) productOfSums →
  ∃ result, removeContradictions productOfSums = Done result.
Proof.
  induction 1 as [|sum rest Hsum _ (newRest & Hrest)]; simpl; [eauto|].
  destruct (removeNegationPairs_literal_Done (length sum) [] sum Hsum (le_n _))
    as (newSum & ->). rewrite Hrest. simpl. eauto.
Qed.

(** X7. On products of literals the assertions of step 3 never fail:
    [simplifySumOfProducts] crashes exactly when step 2 takes
    [front()] of the emptied vector, which happens exactly when there
    are two products or more and every product holds the terms of the
    first one, up to their order; in every other case it returns. *)
Theorem simplifySumOfProducts_crash sumOfProducts :
  literalTerms sumOfProducts = true →
  (simplifySumOfProducts sumOfProducts = Crashed ↔
   ∃ first second others,
     sumOfProducts = first :: second :: others ∧
     Forall (λ product, map pointee product ≡ₚ map pointee first) (second :: others)) ∧
  (simplifySumOfProducts sumOfProducts ≠ Crashed →
   ∃ productOfSums, simplifySumOfProducts sumOfProducts = Done productOfSums).
Proof.
  intros Hlit. rewrite literalTerms_spec in Hlit.
  destruct sumOfProducts as [|first others].
  { split; [|by eexists]. split; [done|]. by intros (? & ? & ? & ? & _). }
  rewrite <- collectIdenticalTerms_empty by done.
  rewrite simplifySumOfProducts_step2 by done.
  destruct (collectIdenticalTerms_terms (first :: others)) as [Hlifted Hresidue].
  destruct (collectIdenticalTerms (first :: others)) as [lifted [|row rows]];
    cbn [fst snd] in *; [done|].
  destruct (removeContradictions_literal_Done
              (expandToProductOfSums [] lifted (row :: rows))) as (result & ->).
  { apply Forall_forall. intros sum Hsum. apply Forall_forall. intros t Ht.
    apply expandToProductOfSums_sums in Hsum as [Hin|(tail & -> & _ & Htail)].
    - apply Hlifted in Hin as (t' & Ht' & ->).
      apply list_elem_of_singleton in Ht as ->. auto.
    - rewrite app_nil_l in Ht. auto. }
  split; [done|]. eauto.
Qed.

(** *** The terms [build] records *)

Section BuildLiterals.
Variable mem : IRMemory.
Variable grapher : AstGrapher.

Lemma literalTerms_app sop product :
  literalTerms sop = true →
  Forall (λ t, isLiteral (pointee t) = true) product →
  literalTerms (sop ++ [product]) = true.
Proof.
  unfold literalTerms. intros Hsop Hproduct. rewrite forallb_app, Hsop. simpl.
  rewrite andb_true_r. apply forallb_forall. intros t Ht.
  rewrite Forall_forall in Hproduct. apply Hproduct. by apply list_elem_of_In.
Qed.

Lemma recordCondition_literals statement st :
  literalConditions st → literalConditions (recordCondition statement st).
Proof.
  intros [Hmap Hstack]. split; [|done]. intros s sop. simpl.
  destruct (decide (s = statement)) as [->|Hne].
  - rewrite lookup_insert_eq. intros [= <-]. split.
    + by destruct (default [] (conditions st !! statement)).
    + apply literalTerms_app; [|done].
      destruct (conditions st !! statement) as [old|] eqn:Hold; [|done].
      by apply Hmap in Hold as [_ ?].
  - rewrite lookup_insert_ne by done. apply Hmap.
Qed.

Lemma pushCondition_literals e st :
  isLiteral e = true → literalConditions st →
  literalConditions (pushCondition e st).2.
Proof.
  intros He [Hmap Hstack]. split; [done|]. simpl.
  apply Forall_app. split; [done|]. by repeat constructor.
Qed.

Lemma popCondition_literals st :
  literalConditions st → literalConditions (popCondition st).
Proof.
  intros [Hmap Hstack]. split; [done|]. simpl.
  rewrite Forall_forall in Hstack. apply Forall_forall. intros t Ht.
  apply Hstack. destruct (conditionStack st) as [|t0 stack] using rev_ind; [done|].
  rewrite removelast_last in Ht. apply elem_of_app. by left.
Qed.

Lemma build_literals fuel : ∀ from st st',
  build mem grapher fuel from st = Done st' →
  literalConditions st → literalConditions st'.
Proof.
  induction fuel as [|fuel IH]; intros from st st'; [done|].
  intros [[_ ->]|(_ & n & current & st2 & -> & Hn & -> & Hcase)]%build_Done_inv Hst;
    [done|].
  assert (literalConditions (recordCondition (node current) (pushVisit (Some n) st)))
    as Hst1.
  { apply recordCondition_literals. done. }
  assert (literalConditions st2) as [Hmap Hstack]; [|done].
  destruct Hcase as [[_ H]|(_ & terminator & _ &
    [(dest & _ & H)|[(c & t & f & st3 & st4 & _ & H3 & H4 & ->)|(_ & _ & ->)]])].
  - by apply IH in H.
  - by apply IH in H.
  - apply popCondition_literals. apply IH in H4; [done|].
    apply pushCondition_literals; [done|]. apply popCondition_literals.
    apply IH in H3; [done|]. by apply pushCondition_literals.
  - done.
Qed.

(** X8. Every statement that has an entry in the map of
    [buildSumsOfProducts] has at least one product there, and every
    term of its products is the value of a branch condition or the
    negation of one. *)
Theorem buildSumsOfProducts_literals regionStart regionEnd pool reach :
  buildSumsOfProducts mem grapher regionStart regionEnd pool = Done reach →
  ∀ statement sumOfProducts,
    conditions reach !! statement = Some sumOfProducts →
    sumOfProducts ≠ [] ∧ literalTerms sumOfProducts = true.
Proof.
  intros Hbuild. apply build_literals in Hbuild as [Hmap _]; [done|].
  split; [|constructor]. intros ? ?. simpl. by rewrite lookup_empty.
Qed.
End BuildLiterals.

(** ** Further properties of the AST simplifier *)

Lemma simplifySubStatements_None rec statements :
  simplifySubStatements rec statements = None ↔
  ∃ sub, sub ∈ statements ∧ rec sub = None.
Proof.
  induction statements as [|sub rest IH]; simpl.
  - split; [done|]. by intros (? & ?%elem_of_nil & _).
  - destruct (rec sub) as [asSimplified|] eqn:Hsub.
    + destruct (simplifySubStatements rec rest) as [tail|].
      * split; [done|]. intros (x & [->|Hx]%elem_of_cons & Hnone); [congruence|].
        assert (Some tail = None) as Habs; [|done]. apply IH. eauto.
      * split; [|done]. intros _. destruct IH as [IH _].
        destruct (IH eq_refl) as (x & Hx & Hnone). exists x. split; [by right|done].
    + split; [|done]. intros _. exists sub. split; [left|done].
Qed.

Lemma simplifySubStatements_nil rec statements :
  simplifySubStatements rec statements = Some [] ↔
  Forall (λ sub, rec sub = Some (SequenceNode [])) statements.
Proof.
  induction statements as [|sub rest IH]; simpl.
  - split; [constructor|done].
  - rewrite Forall_cons, <- IH.
    destruct (rec sub) as [asSimplified|]; [|split; [done|by intros [? _]]].
    destruct (simplifySubStatements rec rest) as [tail|];
      [|split; [done|by intros [_ ?]]].
    split.
    + intros [= Heq]. destruct asSimplified as [?|l|? ? ?|? ? ?|]; try done.
      apply app_eq_nil in Heq as [-> ->]. done.
    + intros [[= ->] [= ->]]. done.
Qed.

Lemma recursivelySimplifyStatement_empty s :
  recursivelySimplifyStatement s = Some (SequenceNode []) ↔
  isEmptySequenceTree s = true.
Proof.
  induction s as [e|statements IH|c ifBody IH|c ifBody e IHif IHelse
                  |c position loopBody IH|] using Statement_ind; simpl;
    unfold recursivelySimplifySequence, recursivelySimplifyIfElse,
      recursivelySimplifyLoop.
  - done.
  - rewrite forallb_forall.
    assert (Forall (λ sub, recursivelySimplifyStatement sub = Some (SequenceNode []))
                   statements ↔
            ∀ x, In x statements → isEmptySequenceTree x = true) as <-.
    { rewrite Forall_forall. setoid_rewrite <- list_elem_of_In.
      rewrite Forall_forall in IH. split; intros H x Hx; apply IH; auto. }
    rewrite <- simplifySubStatements_nil.
    destruct (simplifySubStatements _ statements) as [simplified|] eqn:Hsub; [|done].
    split; [|by intros [= ->]].
    intros [= Hcollapse]. f_equal.
    destruct simplified as [|x [|y l]]; try done.
    simpl in Hcollapse. subst x.
    eapply simplifySubStatements_shape in Hsub.
    + by inversion Hsub as [|? ? [? _] _].
    + apply Forall_forall. intros ? _ ?. apply recursivelySimplifyStatement_shape.
  - destruct (recursivelySimplifyStatement ifBody) as [[?|?|? ? [?|]|? ? ?|]|]; done.
  - destruct (stripNegations c) as [newCondition [|]];
      destruct (recursivelySimplifyStatement e);
      destruct (recursivelySimplifyStatement ifBody); done.
  - destruct (recursivelySimplifyStatement loopBody) as [newBody|]; [|done].
    unfold rewriteLoop. destruct (isEndless position); [|done].
    destruct newBody as [?|statements|? ? ?|? ? ?|]; try done.
    destruct (last statements) as [[?|?|? [| | | |] ?|? ? ?|]|]; done.
  - done.
Qed.

Lemma rewriteLoop_None condition position loopBody :
  rewriteLoop condition position loopBody = None ↔
  isEndless position = true ∧ loopBody = SequenceNode [].
Proof.
  unfold rewriteLoop. destruct (isEndless position); [|by split; [|intros [? _]]].
  destruct loopBody as [?|statements|? ? ?|? ? ?|];
    try by split; [|intros [_ ?]].
  destruct (last statements) as [[?|?|? [| | | |] ?|? ? ?|]|] eqn:Hlast;
    try (split; [done|intros [_ [= ->]]; done]).
  apply last_None in Hlast as ->. done.
Qed.

(** X9. [recursivelySimplifyStatement] fails, on
    [assert(lastIndex > 0)], exactly on the statements that hold an
    endless loop whose body is a tree of sequences with no statement
    of another kind in it; on every other statement it returns. *)
Theorem recursivelySimplifyStatement_fails s :
  recursivelySimplifyStatement s = None ↔ hasEmptyEndlessLoop s = true.
Proof.
  induction s as [e|statements IH|c ifBody IH|c ifBody e IHif IHelse
                  |c position loopBody IH|] using Statement_ind; simpl;
    unfold recursivelySimplifySequence, recursivelySimplifyIfElse,
      recursivelySimplifyLoop.
  - done.
  - rewrite existsb_exists. setoid_rewrite <- list_elem_of_In.
    rewrite Forall_forall in IH.
    destruct (simplifySubStatements _ statements) as [simplified|] eqn:Hsub.
    + split; [done|]. intros (x & Hx & Hbad). apply IH in Hbad; [|done].
      assert (Some simplified = None) as Habs; [|done].
      rewrite <- Hsub. apply simplifySubStatements_None. eauto.
    + split; [|done]. intros _.
      apply simplifySubStatements_None in Hsub as (x & Hx & Hnone).
      exists x. split; [done|]. by apply IH.
  - rewrite orb_false_r, <- IH.
    destruct (recursivelySimplifyStatement ifBody) as [[?|?|? ? [?|]|? ? ?|]|]; done.
  - rewrite orb_true_iff, <- IHif, <- IHelse.
    destruct (stripNegations c) as [newCondition [|]];
      destruct (recursivelySimplifyStatement e);
      destruct (recursivelySimplifyStatement ifBody); naive_solver.
  - rewrite orb_true_iff, andb_true_iff, <- IH, <- recursivelySimplifyStatement_empty.
    destruct (recursivelySimplifyStatement loopBody) as [newBody|]; [|naive_solver].
    rewrite rewriteLoop_None. naive_solver.
  - done.
Qed.

(** *** What simplification preserves *)

Lemma execute_cons ρ first rest :
  execute ρ (SequenceNode (first :: rest)) =
  let '(trace, broke) := execute ρ first in
  if broke then (trace, true)
  else let '(trace', broke') := execute ρ (SequenceNode rest) in
       (trace ++ trace', broke').
Proof. done. Qed.

Lemma execute_app ρ l1 l2 :
  execute ρ (SequenceNode (l1 ++ l2)) =
  let '(trace, broke) := execute ρ (SequenceNode l1) in
  if broke then (trace, true)
  else let '(trace', broke') := execute ρ (SequenceNode l2) in
       (trace ++ trace', broke').
Proof.
  induction l1 as [|x l1 IH].
  - simpl. by destruct (_ l2).
  - rewrite <- app_comm_cons, !execute_cons, IH.
    destruct (execute ρ x) as [t [|]]; [done|].
    destruct (execute ρ (SequenceNode l1)) as [t1 [|]]; [done|].
    destruct (execute ρ (SequenceNode l2)) as [t2 b2]. by rewrite app_assoc.
Qed.

Lemma execute_singleton ρ only :
  execute ρ (SequenceNode [only]) = execute ρ only.
Proof.
  rewrite execute_cons. destruct (execute ρ only) as [t [|]]; [done|].
  simpl. by rewrite app_nil_r.
Qed.

Lemma execute_collapseSingleton ρ simplified :
  execute ρ (collapseSingleton simplified) = execute ρ (SequenceNode simplified).
Proof.
  destruct simplified as [|x [|y l]]; try done.
  simpl collapseSingleton. by rewrite execute_singleton.
Qed.

Lemma stripNegations_eval ρ condition :
  evalExpression ρ condition =
  xorb (stripNegations condition).2 (evalExpression ρ (stripNegations condition).1).
Proof.
  induction condition as [v|[|code] operand IH|type l r]; simpl; try done.
  destruct (stripNegations operand) as [c swapped]. simpl in *. rewrite IH.
  by destruct swapped, (evalExpression ρ c).
Qed.

Lemma simplifySubStatements_cons rec sub rest :
  simplifySubStatements rec (sub :: rest) =
  match rec sub with
  | None => None
  | Some asSimplified =>
      match simplifySubStatements rec rest with
      | None => None
      | Some tail =>
          Some (match asSimplified with
                | SequenceNode simplifiedSequence => simplifiedSequence ++ tail
                | _ => asSimplified :: tail
                end)
      end
  end.
Proof. done. Qed.

Lemma simplifySubStatements_execute rec statements :
  Forall (λ s, isLoopFree s = true →
               ∃ s', rec s = Some s' ∧ isLoopFree s' = true ∧
                     ∀ ρ, execute ρ s' = execute ρ s) statements →
  forallb isLoopFree statements = true →
  ∃ simplified,
    simplifySubStatements rec statements = Some simplified ∧
    forallb isLoopFree simplified = true ∧
    ∀ ρ, execute ρ (SequenceNode simplified) = execute ρ (SequenceNode statements).
Proof.
  induction 1 as [|sub rest Hsub _ IH].
  - intros _. by exists [].
  - intros Hall. simpl in Hall. apply andb_true_iff in Hall as [Hfree Hrest].
    rewrite simplifySubStatements_cons.
    destruct (Hsub Hfree) as (asSimplified & -> & Hfree' & Hexec).
    destruct (IH Hrest) as (tail & -> & Htail & Hexec').
    eexists. split; [done|].
    destruct asSimplified as [e|l|c t e|c p b|].
    + split; [done|]. intros ρ. by rewrite !execute_cons, Hexec, Hexec'.
    + split; [simpl in Hfree'; by rewrite forallb_app, Hfree', Htail|].
      intros ρ. by rewrite execute_app, execute_cons, Hexec, Hexec'.
    + split; [simpl in *; by rewrite Hfree', Htail|].
      intros ρ. by rewrite !execute_cons, Hexec, Hexec'.
    + done.
    + split; [done|]. intros ρ. by rewrite !execute_cons, Hexec, Hexec'.
Qed.

Lemma isLoopFree_collapseSingleton simplified :
  forallb isLoopFree simplified = true →
  isLoopFree (collapseSingleton simplified) = true.
Proof.
  destruct simplified as [|x [|y l]]; try done.
  simpl. by rewrite andb_true_r.
Qed.

(** X10. On a statement without loops [recursivelySimplifyStatement]
    returns, the result has no loop either, and under every truth
    assignment it runs the same expression statements in the same
    order and ends on a [break] in the same cases: flattening the
    sequences, swapping the branches of a negated test and merging
    nested tests change nothing of what the statement does. *)
Theorem recursivelySimplifyStatement_execute s :
  isLoopFree s = true →
  ∃ s', recursivelySimplifyStatement s = Some s' ∧
        isLoopFree s' = true ∧
        ∀ ρ, execute ρ s' = execute ρ s.
Proof.
  induction s as [e|statements IH|c ifBody IH|c ifBody e IHif IHelse
                  |c position loopBody IH|] using Statement_ind; intros Hfree.
  - by eexists.
  - simpl. unfold recursivelySimplifySequence.
    destruct (simplifySubStatements_execute _ _ IH Hfree)
      as (simplified & -> & Hfree' & Hexec).
    eexists. split; [done|]. split; [by apply isLoopFree_collapseSingleton|].
    intros ρ. by rewrite execute_collapseSingleton.
  - simpl in Hfree. rewrite andb_true_r in Hfree.
    destruct (IH Hfree) as (newIfBody & Hrec & Hfree' & Hexec).
    simpl. unfold recursivelySimplifyIfElse. rewrite Hrec.
    destruct newIfBody as [?|?|c' t [?|]|? ? ?|]; try done;
      (eexists; split; [done|]; split;
       [simpl in *; by rewrite ?andb_true_r in *|]);
      intros ρ; simpl; rewrite <- Hexec; simpl; try done.
    by destruct (evalExpression ρ c), (evalExpression ρ c').
  - simpl in Hfree. apply andb_true_iff in Hfree as [Hif Helse].
    destruct (IHif Hif) as (newIf & Hrec1 & Hfree1 & Hexec1).
    destruct (IHelse Helse) as (newElse & Hrec2 & Hfree2 & Hexec2).
    simpl. unfold recursivelySimplifyIfElse.
    pose proof (λ ρ, stripNegations_eval ρ c) as Heval.
    destruct (stripNegations c) as [newCondition [|]]; simpl in Heval;
      rewrite Hrec1, Hrec2; (eexists; split; [done|]);
      (split; [by simpl; rewrite Hfree1, Hfree2|]);
      intros ρ; simpl; rewrite Heval, Hexec1, Hexec2;
      by destruct (evalExpression ρ newCondition).
  - done.
  - by eexists.
Qed.

(** X11. What [recursivelySimplifyStatement] returns is in simplified
    shape: no sequence inside a sequence, no sequence of one statement
    other than the body the do-while rewrite leaves, no negation as
    the condition of an [if] that has an else, no [if] without else
    directly inside another, and no endless loop that ends in a
    breaking [if]. *)
Theorem recursivelySimplifyStatement_simplifiedShape s s' :
  recursivelySimplifyStatement s = Some s' → simplifiedShape s' = true.
Proof. apply recursivelySimplifyStatement_shape. Qed.

(** ** Invariants of the pass *)

Section PassInvariant.
Variable mem : IRMemory.
Variable getAnalysis : Function → Analyses.
Variable P : AstBackEnd → Prop.
Hypothesis P_register : ∀ s entry exit allocator this,
  P this →
  statementAt allocator = statementAt (pool this) →
  (nextAddress (pool this) ≤ nextAddress allocator)%positive →
  P (registerStatement s entry exit allocator this).

Lemma build_pool grapher fuel : ∀ from st st',
  build mem grapher fuel from st = Done st' →
  statementAt (buildPool st') = statementAt (buildPool st) ∧
  (nextAddress (buildPool st) ≤ nextAddress (buildPool st'))%positive.
Proof.
  induction fuel as [|fuel IH]; intros from st st'; [done|].
  intros [[_ ->]|(_ & n & current & st2 & -> & Hn & -> & Hcase)]%build_Done_inv;
    [done|].
  simpl.
  destruct Hcase as [[_ H]|(_ & terminator & _ &
    [(dest & _ & H)|[(c & t & f & st3 & st4 & _ & H3 & H4 & ->)|(_ & _ & ->)]])].
  - by apply IH in H.
  - by apply IH in H.
  - apply IH in H3 as [Hs3 Hn3]. apply IH in H4 as [Hs4 Hn4]. simpl in *.
    split; [congruence|lia].
  - done.
Qed.

Lemma structurizeRegion_pool grapher entry exit allocator sequence allocator' :
  structurizeRegion mem grapher entry exit allocator = Done (sequence, allocator') →
  statementAt allocator' = statementAt allocator ∧
  (nextAddress allocator ≤ nextAddress allocator')%positive.
Proof.
  unfold structurizeRegion, buildSumsOfProducts.
  intros (reach & Hbuild & (order & _ & (body & _ & [= _ <-])%bind_Done)%bind_Done)%bind_Done.
  by apply build_pool in Hbuild.
Qed.

Lemma runOnRegion_invariant entry exit this this' :
  P this → runOnRegion mem entry exit this = Done this' → P this'.
Proof.
  unfold runOnRegion.
  intros HP ([sequence pool1] & Hs & (simplified & _ & H)%bind_Done)%bind_Done.
  simpl in H. injection H as <-.
  apply structurizeRegion_pool in Hs as [? ?].
  by apply (P_register simplified entry exit pool1 this).
Qed.

Lemma runOnLoop_invariant entry exit this this' :
  P this → runOnLoop mem entry exit this = Done this' → P this'.
Proof.
  unfold runOnLoop.
  intros HP ([sequence pool1] & Hs & (simplified & _ & H)%bind_Done)%bind_Done.
  simpl in H. injection H as <-.
  apply structurizeRegion_pool in Hs as [? ?].
  by apply (P_register (LoopNode None Endless simplified) entry exit pool1 this).
Qed.

Lemma climbPostDominators_invariant fuel info entry : ∀ domNode backNodes this r,
  P this →
  climbPostDominators mem fuel info entry domNode backNodes this = Done r →
  P r.2.
Proof.
  induction fuel as [|fuel IH]; intros [dom|] backNodes this r HP; simpl; try done;
    try (by intros [= <-]).
  intros (graphNode & _ & (successor & _ & H)%bind_Done)%bind_Done.
  destruct (isRegion _ _ _ _ _ _) as [[|]|]; [| |done].
  - destruct (decide (entry ∈ backNodes)).
    + apply bind_Done in H as (this1 & Hrun & H).
      eapply IH; [|exact H]. by eapply runOnLoop_invariant.
    + apply bind_Done in H as (this1 & Hrun & H).
      eapply IH; [|exact H]. by eapply runOnRegion_invariant.
  - destruct (dominates info entry _); [by eapply IH|].
    by injection H as <-.
Qed.

Lemma runOnFunction_invariant fn this this' :
  P this → runOnFunction mem getAnalysis fn this = Done this' → P this'.
Proof.
  intros HP. unfold runOnFunction.
  destruct (decide _); [by intros [= <-]|].
  destruct (blocks fn) as [|entryBlock rest]; [by intros [= <-]|].
  intros (backNodes & _ & ([backNodes' final] & Hfold & H)%bind_Done)%bind_Done.
  apply bind_Done in H as (_ & _ & [= <-]).
  revert Hfold.
  apply (foldl_Outcome_inv
           (λ a : gset positive * AstBackEnd, P a.2)
           (λ (a : gset positive * AstBackEnd) entry,
              let '(backNodes, this) := a in
              domNode ← deref (getNode (getAnalysis fn) (Some entry));
              let '(_, grapher1, pool1) :=
                addBasicBlock mem entry (grapher this) (pool this) in
              climbPostDominators mem (S (S (length (entryBlock :: rest))))
                (getAnalysis fn) entry (Some domNode) backNodes
                {| pool := pool1; grapher := grapher1;
                   astPerFunction := astPerFunction this |})).
  - intros [bn a] entry a' Ha (domNode & _ & Hclimb)%bind_Done.
    destruct (addBasicBlock mem entry (grapher a) (pool a)) as [[st g1] p1] eqn:Hadd.
    apply climbPostDominators_invariant in Hclimb; [done|].
    unfold addBasicBlock in Hadd.
    destruct (allocateStatement _ (pool a)) as [statement pool'] eqn:Halloc.
    injection Hadd as _ <- <-.
    pose proof (P_register
      (SequenceNode
         (map (λ inst, ExpressionNode (ValueExpression (instValue inst)))
              (filter (λ inst, isKeptInstruction inst = true) (instructionsAt mem entry))))
      entry (Some entry) (pool a) a Ha eq_refl) as Hreg.
    unfold registerStatement in Hreg. rewrite Halloc in Hreg. apply Hreg. lia.
  - by intros a [= <-].
Qed.

Lemma runOnModule_invariant m this this' :
  P {| pool := emptyPool; grapher := emptyGrapher; astPerFunction := ∅ |} →
  runOnModule mem getAnalysis m this = Done this' → P this'.
Proof.
  intros HP. unfold runOnModule.
  apply (foldl_Outcome_inv P (λ this fn, runOnFunction mem getAnalysis fn this)).
  - intros a fn a' Ha Hrun. by eapply runOnFunction_invariant.
  - by intros a [= <-].
Qed.
End PassInvariant.

(** C9 (as amended). The arena, the grapher and [astPerFunction] are
    cleared once, when [runOnModule] starts; a function is structured
    in the state the function before it left, and [runOnFunction]
    clears nothing: the grapher it returns still holds every node and
    every index key it was given, every statement that was allocated
    in the arena still is, the arena has only grown, and
    [astPerFunction] is what it was. *)
Theorem runOnFunction_keeps_grapher mem getAnalysis m fn this before after :
  runOnModule mem getAnalysis m this = Done before →
  runOnFunction mem getAnalysis fn before = Done after →
  runOnModule mem getAnalysis (m ++ [fn]) this = Done after ∧
  grapherExtends (grapher before) (grapher after) ∧
  dom (statementAt (pool before)) ⊆ dom (statementAt (pool after)) ∧
  (nextAddress (pool before) ≤ nextAddress (pool after))%positive ∧
  astPerFunction after = astPerFunction before ∧
  (m = [] →
   before = {| pool := emptyPool; grapher := emptyGrapher; astPerFunction := ∅ |}).
Proof.
  intros Hbefore Hafter. split; [|split; [|split; [|split; [|split]]]].
  - unfold runOnModule in *. rewrite foldl_app. simpl. by rewrite Hbefore.
  - by eapply runOnFunction_extends.
  - eapply (runOnFunction_invariant mem getAnalysis
              (λ this, dom (statementAt (pool before)) ⊆ dom (statementAt (pool this))));
      [|done|exact Hafter].
    intros s entry exit allocator a Ha Hsame _. simpl.
    rewrite dom_insert_L, Hsame. set_solver.
  - eapply (runOnFunction_invariant mem getAnalysis
              (λ this, (nextAddress (pool before) ≤ nextAddress (pool this))%positive));
      [|done|exact Hafter].
    intros s entry exit allocator a Ha _ Hnext. simpl. lia.
  - eapply (runOnFunction_invariant mem getAnalysis
              (λ this, astPerFunction this = astPerFunction before));
      [|done|exact Hafter].
    by intros s entry exit allocator a Ha _ _.
  - intros ->. by injection Hbefore as <-.
Qed.

Lemma runOnFunction_keeps_grapher_witness :
  runOnModule Examples.twoFunctions Examples.moduleInfo
    ([Examples.firstFunction] ++ [Examples.secondFunction])
    Examples.freshBackEnd = Done Examples.afterSecond ∧
  grapherExtends (grapher Examples.afterFirst) (grapher Examples.afterSecond) ∧
  dom (statementAt (pool Examples.afterFirst)) ⊆
    dom (statementAt (pool Examples.afterSecond)) ∧
  (nextAddress (pool Examples.afterFirst) ≤
   nextAddress (pool Examples.afterSecond))%positive ∧
  astPerFunction Examples.afterSecond = astPerFunction Examples.afterFirst ∧
  ([Examples.firstFunction] = [] →
   Examples.afterFirst =
     {| pool := emptyPool; grapher := emptyGrapher; astPerFunction := ∅ |}).
Proof.
  apply (runOnFunction_keeps_grapher Examples.twoFunctions Examples.moduleInfo
           [Examples.firstFunction] Examples.secondFunction
           Examples.freshBackEnd).
  - vm_compute. reflexivity.
  - vm_compute. reflexivity.
Defined.





(** X13. Nothing ever writes to [astPerFunction]: it is as empty when
    [runOnModule] returns as [clear()] left it, so that the look-up
    that opens [runOnFunction] never finds the function. *)
Theorem runOnModule_astPerFunction mem getAnalysis m this this' :
  runOnModule mem getAnalysis m this = Done this' →
  astPerFunction this' = ∅.
Proof.
  apply (runOnModule_invariant mem getAnalysis (λ this, astPerFunction this = ∅));
    done.
Qed.

(** ** Back edges *)

Section BackEdges.
Variable mem : IRMemory.

Lemma closesCycle_cases stack entry bb :
  closesCycle mem stack entry bb ↔
  NoDup (stack ++ [entry]) ∧
  ((bb ∈ successors mem entry ∧ bb ∈ (stack ++ [entry])) ∨
   ∃ s, s ∈ successors mem entry ∧ (s ∉ (stack ++ [entry])) ∧
        closesCycle mem (stack ++ [entry]) s bb).
Proof.
  unfold closesCycle. split.
  - intros (ext & u & Hnodup & Hpath & Hlast & Hsucc & Hin).
    destruct ext as [|s ext].
    + injection Hlast as <-. split; [done|]. by left.
    + assert (stack ++ entry :: s :: ext = (stack ++ [entry]) ++ s :: ext) as Heq.
      { by rewrite <- app_assoc. }
      rewrite Heq in Hnodup, Hin.
      pose proof Hnodup as Hnodup'.
      apply NoDup_app in Hnodup' as (Hnd & Hdisj & _).
      split; [done|]. right. exists s.
      inversion Hpath as [|? ? ? Hs Hrest]; subst.
      split; [done|]. split.
      * intros Hs'. apply (Hdisj s Hs'). left.
      * exists ext, u. split_and!; try done.
  - intros [Hnd [[Hsucc Hin]|(s & Hs & Hnotin & ext & u & Hnodup & Hpath & Hlast & Hsucc & Hin)]].
    + exists [], entry. split_and!; try done. constructor.
    + exists (s :: ext), u.
      assert (stack ++ entry :: s :: ext = (stack ++ [entry]) ++ s :: ext) as ->.
      { by rewrite <- app_assoc. }
      split_and!; try done. by constructor.
Qed.

Lemma remaining_blocks_lt (path : list BasicBlockPtr) s :
  s ∈ allBlocks mem → s ∉ path →
  size (allBlocks mem ∖ list_to_set (path ++ [s])) <
  size (allBlocks mem ∖ list_to_set path).
Proof.
  intros Hs Hnotin. apply subset_size. rewrite list_to_set_app_L.
  assert (s ∉ (list_to_set path : gset positive)) by (by rewrite elem_of_list_to_set).
  set_solver.
Qed.

Lemma findBackEdgeDestinationsFrom_spec fuel : ∀ entry stack result,
  NoDup (stack ++ [entry]) →
  size (allBlocks mem ∖ list_to_set (stack ++ [entry])) < fuel →
  ∃ result',
    findBackEdgeDestinationsFrom mem fuel entry stack result = Done result' ∧
    ∀ bb, bb ∈ result' ↔ bb ∈ result ∨ closesCycle mem stack entry bb.
Proof.
  induction fuel as [|fuel IH]; intros entry stack result Hnodup Hfuel; [lia|].
  simpl.
  assert (∀ succs result,
    (∀ s, s ∈ succs → s ∈ successors mem entry) →
    ∃ result',
      foldl (λ acc bb,
               result ← acc;
               if decide (bb ∈ stack ++ [entry]) then Done ({[bb]} ∪ result)
               else findBackEdgeDestinationsFrom mem fuel bb (stack ++ [entry]) result)
            (Done result) succs = Done result' ∧
      ∀ bb, bb ∈ result' ↔
            bb ∈ result ∨
            ∃ s, s ∈ succs ∧
                 ((s ∈ (stack ++ [entry]) ∧ bb = s) ∨
                  ((s ∉ (stack ++ [entry])) ∧ closesCycle mem (stack ++ [entry]) s bb)))
    as Hfold.
  { clear result. induction succs as [|s succs IHs]; intros result Hsub; simpl.
    - exists result. split; [done|]. intros bb. split; [by left|].
      intros [?|(s & ?%elem_of_nil & _)]; done.
    - destruct (decide (s ∈ stack ++ [entry])) as [Hin|Hnotin].
      + destruct (IHs ({[s]} ∪ result)) as (result' & -> & Hspec).
        { intros ? ?. apply Hsub. by right. }
        exists result'. split; [done|]. intros bb. rewrite Hspec.
        rewrite elem_of_union, elem_of_singleton. split.
        * intros [[->|?]|(s' & Hs' & Hcase)]; [|by left|].
          -- right. exists s. split; [left|]. by left.
          -- right. exists s'. split; [by right|done].
        * intros [?|(s' & [->|Hs']%elem_of_cons & Hcase)]; [by left; right| |].
          -- destruct Hcase as [[_ ->]|[? _]]; [by left; left|done].
          -- right. eauto.
      + destruct (IH s (stack ++ [entry]) result) as (result1 & Hrun & Hspec1).
        { apply NoDup_app. split; [done|]. split; [|apply NoDup_singleton].
          intros x Hx ->%list_elem_of_singleton. done. }
        { assert (s ∈ allBlocks mem) as Hs.
          { eapply successors_in_allBlocks. apply Hsub. left. }
          pose proof (remaining_blocks_lt (stack ++ [entry]) s Hs Hnotin). lia. }
        rewrite Hrun.
        destruct (IHs result1) as (result' & -> & Hspec).
        { intros ? ?. apply Hsub. by right. }
        exists result'. split; [done|]. intros bb. rewrite Hspec, Hspec1. split.
        * intros [[?|Hcycle]|(s' & Hs' & Hcase)]; [by left| |].
          -- right. exists s. split; [left|]. by right.
          -- right. exists s'. split; [by right|done].
        * intros [?|(s' & [->|Hs']%elem_of_cons & Hcase)]; [by left; left| |].
          -- destruct Hcase as [[? _]|[_ ?]]; [done|]. left. by right.
          -- right. eauto. }
  destruct (Hfold (successors mem entry) result) as (result' & -> & Hspec); [done|].
  exists result'. split; [done|]. intros bb. rewrite Hspec, closesCycle_cases.
  split.
  - intros [?|(s & Hs & [[Hin ->]|[Hnotin Hcycle]])]; [by left|right..].
    + split; [done|]. by left.
    + split; [done|]. right. eauto.
  - intros [?|[_ [[Hsucc Hin]|(s & Hs & Hnotin & Hcycle)]]]; [by left|right..].
    + exists bb. split; [done|]. by left.
    + exists s. split; [done|]. by right.
Qed.

(** X14. [findBackEdgeDestinations] returns on every control-flow
    graph, and what it returns are exactly the blocks that close a
    cycle on a path from the entry point that enters no block twice:
    the blocks of such a path that its last block branches to. *)
Theorem findBackEdgeDestinations_spec entryPoint :
  ∃ result,
    findBackEdgeDestinations mem entryPoint = Done result ∧
    ∀ bb, bb ∈ result ↔ closesCycle mem [] entryPoint bb.
Proof.
  unfold findBackEdgeDestinations.
  destruct (findBackEdgeDestinationsFrom_spec (S (size (allBlocks mem)))
              entryPoint [] ∅) as (result & Hrun & Hspec).
  - apply NoDup_singleton.
  - assert (size (allBlocks mem ∖ list_to_set ([] ++ [entryPoint])) ≤
            size (allBlocks mem)); [|lia].
    apply subseteq_size. set_solver.
  - exists result. split; [done|]. intros bb. rewrite Hspec. set_solver.
Qed.
End BackEdges.

(** ** Reverse post-order *)

Lemma foldl_bind_fail {A B : Type} (f : A → B → Outcome A) acc l :
  (∀ a, acc ≠ Done a) →
  foldl (λ acc b, a ← acc; f a b) acc l = acc.
Proof.
  revert acc. induction l as [|b l IH]; intros acc Hacc; simpl; [done|].
  destruct acc as [a| |]; [by destruct (Hacc a)|..]; simpl; by apply IH.
Qed.

Lemma foldl_bind_cons {A B : Type} (f : A → B → Outcome A) a b l r :
  foldl (λ acc b, a ← acc; f a b) (Done a) (b :: l) = Done r →
  ∃ a1, f a b = Done a1 ∧ foldl (λ acc b, a ← acc; f a b) (Done a1) l = Done r.
Proof.
  simpl. destruct (f a b) as [a1| |] eqn:Hf; [eauto|..];
    rewrite foldl_bind_fail; done.
Qed.

Section PostOrderProofs.
Variable mem : IRMemory.
Variable grapher : AstGrapher.

Lemma orderReach_mono avoid avoid' from target :
  avoid' ⊆ avoid →
  orderReach mem grapher avoid from target →
  orderReach mem grapher avoid' from target.
Proof.
  intros Hsub. induction 1 as [n Hn Hstored|n next target Hn Hstep _ IH].
  - apply reach_here; [set_solver|done].
  - eapply reach_step; [set_solver|done..].
Qed.

Lemma orderReach_stored avoid from target :
  orderReach mem grapher avoid from target →
  is_Some (nodeStorage grapher !! target).
Proof. by induction 1. Qed.

Lemma orderReach_target avoid from target :
  orderReach mem grapher avoid from target → Some target ∉ avoid.
Proof. by induction 1. Qed.

Lemma postOrderAdds_refl current into visited :
  current ∈ visited →
  postOrderAdds mem grapher current (into, visited) (into, visited).
Proof.
  intros Hin. split_and!; simpl; try done.
  exists []. rewrite app_nil_r. split; [done|]. intros s. split.
  - by intros ?%elem_of_nil.
  - by intros (k & graphNode & ? & ? & _).
Qed.

Lemma childrenAdd_nil st : childrenAdd mem grapher [] st st.
Proof.
  split_and!; simpl; try done.
  - by intros ? ?%elem_of_nil.
  - exists []. rewrite app_nil_r. split; [done|]. intros s. split.
    + by intros ?%elem_of_nil.
    + by intros (k & graphNode & ? & ? & _).
Qed.

Lemma childrenAdd_cons succ rest st st1 st2 :
  postOrderAdds mem grapher (getGraphNodeFromEntry grapher (Some succ)) st st1 →
  childrenAdd mem grapher rest st1 st2 →
  childrenAdd mem grapher (succ :: rest) st st2.
Proof.
  intros (Hsub1 & Hnext1 & (added1 & Hinto1 & Hadded1) & Hnew1)
         (Hsub2 & Hnext2 & (added2 & Hinto2 & Hadded2) & Hnew2).
  split_and!.
  - set_solver.
  - intros s [->|Hs]%elem_of_cons; [set_solver|auto].
  - exists (added1 ++ added2). split; [by rewrite Hinto2, Hinto1, app_assoc|].
    intros s. rewrite elem_of_app, Hadded1, Hadded2. split.
    + intros [(k & graphNode & ? & ? & ? & ?)|(k & graphNode & ? & ? & ? & ?)];
        exists k, graphNode; split_and!; try done; set_solver.
    + intros (k & graphNode & Hin & Hout & Hk & Hs).
      destruct (decide (Some k ∈ st1.2)); [left|right]; eauto 10.
  - intros x Hx Hout. destruct (decide (x ∈ st1.2)) as [Hin1|Hout1].
    + destruct (Hnew1 x Hin1 Hout) as (k & -> & Hreach & Hclosed).
      exists k. split; [done|]. split.
      * exists succ. split; [left|done].
      * intros next Hstep. apply Hsub2. eauto.
    + destruct (Hnew2 x Hx Hout1) as (k & -> & (s & Hs & Hreach) & Hclosed).
      exists k. split; [done|]. split; [|done].
      exists s. split; [by right|]. by eapply orderReach_mono.
Qed.

Lemma foldl_postOrder_adds fuel succs : ∀ st0 st2,
  (∀ current st st',
     postOrder mem grapher fuel current st = Done st' →
     postOrderAdds mem grapher current st st') →
  foldl (λ acc succ,
           st ← acc;
           postOrder mem grapher fuel (getGraphNodeFromEntry grapher (Some succ)) st)
        (Done st0) succs = Done st2 →
  childrenAdd mem grapher succs st0 st2.
Proof.
  induction succs as [|s succs IHs]; intros st0 st2 IH.
  - intros [= <-]. apply childrenAdd_nil.
  - intros (st1 & Hfirst & Hrest)%foldl_bind_cons.
    eapply childrenAdd_cons; [by apply IH|]. by apply IHs.
Qed.

Lemma postOrder_adds fuel : ∀ current st st',
  postOrder mem grapher fuel current st = Done st' →
  postOrderAdds mem grapher current st st'.
Proof.
  induction fuel as [|fuel IH]; intros current [into visited] st'; [done|].
  simpl. destruct (decide (current ∈ visited)) as [Hin|Hout].
  { intros [= <-]. by apply postOrderAdds_refl. }
  intros (currentNode & Hcur & (st2 & Hbody & [= <-])%bind_Done)%bind_Done.
  destruct current as [n|]; [|done]. simpl in Hcur.
  destruct (nodeStorage grapher !! n) as [currentNode'|] eqn:Hn; [|done].
  injection Hcur as ->.
  assert ({[Some n]} ∪ visited ⊆ st2.2 ∧
          (∀ next, orderStep mem grapher n next → next ∈ st2.2) ∧
          (∃ added,
             st2.1 = into ++ added ∧
             ∀ s, s ∈ added ↔
                  ∃ k graphNode, Some k ∈ st2.2 ∧ (Some k ∉ {[Some n]} ∪ visited) ∧
                                 nodeStorage grapher !! k = Some graphNode ∧
                                 node graphNode = s) ∧
          (∀ x, x ∈ st2.2 → x ∉ {[Some n]} ∪ visited →
             ∃ k, x = Some k ∧
                  (∃ next, orderStep mem grapher n next ∧
                           orderReach mem grapher ({[Some n]} ∪ visited) next k) ∧
                  ∀ next, orderStep mem grapher k next → next ∈ st2.2))
    as (Hsub & Hchildren & (added & Hinto & Hadded) & Hnew).
  { destruct (hasExit currentNode) eqn:Hexit.
    - apply IH in Hbody as (Hsub & Hnext & Hadded & Hnew). simpl in *.
      split_and!; try done.
      + intros next Hstep. inversion Hstep as [current Hc Hx|current succ Hc Hx]; subst.
        * rewrite Hn in Hc. by injection Hc as <-.
        * rewrite Hn in Hc. injection Hc as <-. congruence.
      + intros x Hx Hout'. destruct (Hnew x Hx Hout') as (k & -> & Hreach & Hclosed).
        exists k. split; [done|]. split; [|done].
        eexists. split; [|exact Hreach]. by eapply order_exit.
    - apply foldl_postOrder_adds in Hbody as (Hsub & Hnext & Hadded & Hnew); [|done].
      simpl in *. split_and!; try done.
      + intros next Hstep. inversion Hstep as [current Hc Hx|current succ Hc Hx Hs]; subst.
        * rewrite Hn in Hc. injection Hc as <-. congruence.
        * rewrite Hn in Hc. injection Hc as <-. by apply Hnext.
      + intros x Hx Hout'.
        destruct (Hnew x Hx Hout') as (k & -> & (s & Hs & Hreach) & Hclosed).
        exists k. split; [done|]. split; [|done].
        eexists. split; [|exact Hreach]. by eapply order_successor. }
  split_and!; simpl.
  - set_solver.
  - set_solver.
  - exists (added ++ [node currentNode]). split; [by rewrite Hinto, app_assoc|].
    intros s. rewrite elem_of_app, Hadded, list_elem_of_singleton. split.
    + intros [(k & graphNode & ? & ? & ? & ?)| ->].
      * exists k, graphNode. split_and!; try done. set_solver.
      * exists n, currentNode. split_and!; try done. set_solver.
    + intros (k & graphNode & Hin & Hnotin & Hk & Hs).
      destruct (decide (k = n)) as [->|Hne].
      * right. rewrite Hn in Hk. by injection Hk as <-.
      * left. exists k, graphNode. split_and!; try done. set_solver.
  - intros x Hx Hnotin. destruct (decide (x = Some n)) as [->|Hne].
    + exists n. split; [done|]. split; [|done]. apply reach_here; [done|eauto].
    + destruct (Hnew x Hx) as (k & -> & (next & Hstep & Hreach) & Hclosed);
        [set_solver|].
      exists k. split; [done|]. split; [|done].
      eapply reach_step; [done|done|]. eapply orderReach_mono; [|done]. set_solver.
Qed.

Lemma unvisitedOrder_mono visited visited' :
  visited ⊆ visited' →
  size (unvisitedOrder grapher visited') ≤ size (unvisitedOrder grapher visited).
Proof.
  intros Hsub. apply subseteq_size. unfold unvisitedOrder.
  intros k. rewrite !elem_of_filter. set_solver.
Qed.

Lemma unvisitedOrder_insert visited n :
  Some n ∉ visited →
  is_Some (nodeStorage grapher !! n) →
  size (unvisitedOrder grapher ({[Some n]} ∪ visited)) <
  size (unvisitedOrder grapher visited).
Proof.
  intros Hout [current Hn]. apply subset_size. unfold unvisitedOrder.
  apply strict_spec_alt. split.
  - intros k. rewrite !elem_of_filter. set_solver.
  - intros Heq. assert (n ∈ filter (λ n, Some n ∉ visited)
      (list_to_set (seq 0 (length (nodeStorage grapher))) : gset nat)) as Hin.
    { apply elem_of_filter. split; [done|].
      apply elem_of_list_to_set, elem_of_seq. apply lookup_lt_Some in Hn. lia. }
    rewrite <- Heq in Hin. apply elem_of_filter in Hin as [Hin _]. set_solver.
Qed.

Lemma postOrder_fuel fuel : ∀ current st,
  size (unvisitedOrder grapher st.2) < fuel →
  postOrder mem grapher fuel current st ≠ OutOfFuel.
Proof.
  induction fuel as [|fuel IH]; intros current [into visited] Hfuel; [simpl in *; lia|].
  simpl in *. destruct (decide (current ∈ visited)) as [|Hout]; [done|].
  destruct current as [n|]; [|done]. simpl.
  destruct (nodeStorage grapher !! n) as [currentNode|] eqn:Hn; [|done]. simpl.
  pose proof (unvisitedOrder_insert visited n Hout (mk_is_Some _ _ Hn)) as Hlt.
  assert (∀ next st0, {[Some n]} ∪ visited ⊆ st0.2 →
            postOrder mem grapher fuel next st0 ≠ OutOfFuel) as Hsub.
  { intros next st0 Hst0. apply IH.
    pose proof (unvisitedOrder_mono _ _ Hst0). lia. }
  destruct (hasExit currentNode).
  - destruct (postOrder mem grapher fuel _ _) as [st2| |] eqn:H2; [done|done|].
    exfalso. eapply Hsub; [|exact H2]. done.
  - assert (∀ succs st0, {[Some n]} ∪ visited ⊆ st0.2 →
      foldl (λ acc succ,
               st ← acc;
               postOrder mem grapher fuel (getGraphNodeFromEntry grapher (Some succ)) st)
            (Done st0) succs ≠ OutOfFuel) as Hfold.
    { induction succs as [|s succs IHs]; intros st0 Hst0; [done|]. simpl.
      destruct (postOrder mem grapher fuel _ st0) as [st1| |] eqn:H1.
      - apply IHs. apply postOrder_adds in H1 as [Hsub1 _]. set_solver.
      - by rewrite foldl_bind_fail.
      - exfalso. eapply Hsub; [|exact H1]. done. }
    destruct (foldl _ _ _) as [st2| |] eqn:H2; [done|done|].
    exfalso. eapply Hfold; [|exact H2]. done.
Qed.

Lemma orderReach_visited (avoid visited' : gset (option nat)) from target :
  (∀ x, x ∈ visited' → x ∉ avoid →
     ∃ k, x = Some k ∧ ∀ next, orderStep mem grapher k next → next ∈ visited') →
  from ∈ visited' →
  orderReach mem grapher avoid from target →
  Some target ∈ visited'.
Proof.
  intros Hclosed Hfrom Hreach.
  induction Hreach as [n Hn Hstored|n next target Hn Hstep _ IH]; [done|].
  apply IH. destruct (Hclosed _ Hfrom Hn) as (k & [= <-] & Hk). auto.
Qed.

(** X15. [reversePostOrder] is never stopped by the recursion bound.
    When it returns, the statements it lists are exactly those of the
    nodes reached from the entry along the steps of [postOrder]
    without passing through the exit; the list is empty when the entry
    is the exit, and starts with the statement of the entry node
    otherwise. *)
Theorem reversePostOrder_spec entry exit :
  (reversePostOrder mem grapher entry exit = Crashed ∨
   ∃ order, reversePostOrder mem grapher entry exit = Done order) ∧
  ∀ order,
    reversePostOrder mem grapher entry exit = Done order →
    (∀ statement,
       statement ∈ order ↔
       ∃ target graphNode,
         nodeStorage grapher !! target = Some graphNode ∧
         node graphNode = statement ∧
         orderReach mem grapher {[exit]} entry target) ∧
    (entry = exit ∧ order = [] ∨
     ∃ n graphNode rest,
       entry = Some n ∧ nodeStorage grapher !! n = Some graphNode ∧
       order = node graphNode :: rest).
Proof.
  unfold reversePostOrder. split.
  - pose proof (postOrder_fuel (S (length (nodeStorage grapher))) entry ([], {[exit]}))
      as Hfuel.
    destruct (postOrder _ _ _ _ _) as [st| |]; [right; by eexists|by left|].
    destruct Hfuel; [|done]. simpl.
    assert (unvisitedOrder grapher {[exit]} ⊆
            list_to_set (seq 0 (length (nodeStorage grapher)))) as Hsub.
    { unfold unvisitedOrder. intros k. rewrite elem_of_filter. by intros [_ ?]. }
    apply subseteq_size in Hsub.
    rewrite size_list_to_set in Hsub by apply NoDup_seq.
    rewrite length_seq in Hsub. lia.
  - intros order (st & Hrun & [= <-])%bind_Done. split.
    + pose proof (postOrder_adds _ _ _ _ Hrun)
        as (Hsub & Hentry & (added & Hinto & Hadded) & Hnew).
      simpl in *. intros statement.
      rewrite elem_of_reverse, Hinto, Hadded. split.
      * intros (k & graphNode & Hin & Hout & Hk & Hs).
        exists k, graphNode. split_and!; try done.
        destruct (Hnew _ Hin Hout) as (k' & [= <-] & Hreach & _). done.
      * intros (k & graphNode & Hk & Hs & Hreach).
        exists k, graphNode. split_and!; try done.
        -- eapply orderReach_visited; [|exact Hentry|exact Hreach].
           intros x Hx Hout. destruct (Hnew x Hx Hout) as (k' & -> & _ & Hclosed).
           eauto.
        -- by eapply orderReach_target.
    + simpl in Hrun. destruct (decide (entry ∈ ({[exit]} : gset (option nat)))) as [Hin|Hout].
      * left. injection Hrun as <-. split; [set_solver|done].
      * right. apply bind_Done in Hrun as (currentNode & Hcur & (st2 & _ & [= <-])%bind_Done).
        destruct entry as [n|]; [|done]. simpl in Hcur.
        destruct (nodeStorage grapher !! n) as [currentNode'|] eqn:Hn; [|done].
        injection Hcur as ->. exists n, currentNode, (reverse st2.1).
        split_and!; try done. simpl. by rewrite reverse_snoc.
Qed.

Lemma branchesOnly_spec n graphNode :
  branchesOnly mem grapher = true →
  nodeStorage grapher !! n = Some graphNode →
  hasExit graphNode = false →
  successors mem (getEntry graphNode) = [] ∨
  ∃ terminator,
    terminatorAt mem (getEntry graphNode) = Some terminator ∧
    ((∃ dest, opcode terminator = Br dest) ∨
     ∃ c ifTrue ifFalse, opcode terminator = CondBr c ifTrue ifFalse).
Proof.
  unfold branchesOnly. rewrite forallb_forall.
  intros Hall Hn Hexit. specialize (Hall graphNode). rewrite Hexit in Hall.
  simpl in Hall.
  assert (In graphNode (nodeStorage grapher)) as Hin
    by (apply list_elem_of_In; by eapply list_elem_of_lookup_2).
  specialize (Hall Hin).
  destruct (terminatorAt mem (getEntry graphNode)) as [terminator|];
    [|left; by apply bool_decide_eq_true in Hall].
  destruct (opcode terminator) as [dest|c ifTrue ifFalse|c d cases| |] eqn:Hop;
    try (left; by apply bool_decide_eq_true in Hall);
    right; exists terminator; split; [done| |done|]; eauto.
Qed.

Lemma orderStep_graphStep n next :
  branchesOnly mem grapher = true →
  orderStep mem grapher n next →
  ∃ guard, graphStep mem grapher n guard next.
Proof.
  intros Hno [current Hn Hexit|current succ Hn Hexit Hsucc].
  - eexists. by eapply step_exit.
  - destruct (branchesOnly_spec n current Hno Hn Hexit)
      as [Hnone|(terminator & Hterm & Hop)].
    { rewrite Hnone in Hsucc. by apply elem_of_nil in Hsucc. }
    assert (successors mem (getEntry current) = terminatorSuccessors terminator)
      as Hsuccessors.
    { unfold successors. unfold terminatorAt in Hterm.
      destruct (mem !! getEntry current); [|done]. by rewrite Hterm. }
    rewrite Hsuccessors in Hsucc. unfold terminatorSuccessors in Hsucc.
    destruct Hop as [[dest Hop]|(c & ifTrue & ifFalse & Hop)]; rewrite Hop in Hsucc.
    + apply list_elem_of_singleton in Hsucc as ->. eexists. by eapply step_branch.
    + apply elem_of_cons in Hsucc as [->|Hsucc].
      * eexists. by eapply step_true.
      * apply list_elem_of_singleton in Hsucc as ->. eexists. by eapply step_false.
Qed.

Lemma orderStep_stored n next :
  orderStep mem grapher n next → is_Some (nodeStorage grapher !! n).
Proof. intros [current Hn _|current succ Hn _ _]; eauto. Qed.

(** The part of a walk after its last visit of [m]. *)
Lemma orderReach_last_visit avoid from target m :
  orderReach mem grapher avoid from target →
  orderReach mem grapher ({[Some m]} ∪ avoid) from target ∨
  m = target ∨
  ∃ next, orderStep mem grapher m next ∧
          orderReach mem grapher ({[Some m]} ∪ avoid) next target.
Proof.
  induction 1 as [n Hn Hstored|n next target Hn Hstep Hreach IH].
  - destruct (decide (n = m)) as [->|Hne]; [by right; left|].
    left. apply reach_here; [set_solver|done].
  - destruct IH as [Hrest|[->|Hlater]]; [|by right; left|by right; right].
    destruct (decide (n = m)) as [->|Hne]; [right; right; eauto|].
    left. eapply reach_step; [set_solver|done..].
Qed.

Lemma orderReach_guardedPath fuel : ∀ avoid from target,
  branchesOnly mem grapher = true →
  size (unvisitedNodes grapher avoid) < fuel →
  orderReach mem grapher (list_to_set avoid) from target →
  ∃ guards, guardedPath mem grapher avoid from guards target.
Proof.
  induction fuel as [|fuel IH]; intros avoid from target Hno Hfuel Hreach; [lia|].
  assert (∃ n, from = Some n ∧ Some n ∉ avoid) as (n & -> & Hn).
  { destruct Hreach as [n Hn _|n ? ? Hn _ _]; exists n;
      by rewrite elem_of_list_to_set in Hn. }
  destruct (orderReach_last_visit _ _ _ n Hreach) as [Hrest|[->|(next & Hstep & Hlater)]].
  - exfalso. inversion Hrest; set_solver.
  - exists []. apply path_here; [done|]. by eapply orderReach_stored.
  - destruct (orderStep_graphStep _ _ Hno Hstep) as [guard Hguard].
    destruct (orderStep_stored _ _ Hstep) as [current Hcurrent].
    destruct (IH (avoid ++ [Some n]) next target Hno) as [guards Hpath].
    + pose proof (unvisitedNodes_push grapher avoid n current Hn Hcurrent). lia.
    + eapply orderReach_mono; [|exact Hlater].
      rewrite list_to_set_app_L. set_solver.
    + exists (guard ++ guards). by eapply path_step.
Qed.

(** X16. In a graph where every single-block node that has a
    successor ends in a [BranchInst] (no [switch], [invoke] or
    [indirectbr] leads on from a block), every statement that
    [reversePostOrder] lists has reaching conditions in the map that
    [buildSumsOfProducts] makes for the same bounds, and at least one
    product there: the [conditions.at(node)] of [structurizeRegion]
    finds its key. *)
Theorem reversePostOrder_conditions entry exit pool reach order :
  branchesOnly mem grapher = true →
  buildSumsOfProducts mem grapher entry exit pool = Done reach →
  reversePostOrder mem grapher entry exit = Done order →
  Forall (λ statement, ∃ path, conditions reach !! statement = Some path ∧ path ≠ [])
         order.
Proof.
  intros Hno Hbuild (st & Hrun & [= <-])%bind_Done.
  apply build_recordsWalks in Hbuild.
  apply postOrder_adds in Hrun as (_ & _ & (added & Hinto & Hadded) & Hnew).
  simpl in *. apply Forall_forall. intros statement Hin.
  rewrite elem_of_reverse, Hinto, Hadded in Hin.
  destruct Hin as (k & graphNode & Hk & Hout & Hstored & Hnode).
  destruct (Hnew _ Hk Hout) as (k' & [= <-] & Hreach & _).
  destruct (orderReach_guardedPath (S (length (nodeStorage grapher))) [exit] entry k Hno)
    as [guards Hpath].
  - assert (unvisitedNodes grapher [exit] ⊆
            list_to_set (seq 0 (length (nodeStorage grapher)))) as Hsub
      by (unfold unvisitedNodes; set_solver).
    apply subseteq_size in Hsub.
    rewrite size_list_to_set in Hsub by apply NoDup_seq.
    rewrite length_seq in Hsub. lia.
  - eapply orderReach_mono; [|exact Hreach]. set_solver.
  - destruct (Hbuild statement) as (recorded & Heq & _ & Hcomplete).
    destruct (Hcomplete k graphNode guards Hstored Hnode Hpath) as (product & Hproduct & _).
    simpl in Heq. rewrite lookup_empty in Heq. simpl in Heq.
    destruct (conditions reach !! statement) as [path|]; simpl in Heq.
    + exists path. split; [done|]. subst. intros ->. by apply elem_of_nil in Hproduct.
    + subst. by apply elem_of_nil in Hproduct.
Qed.

(** *** Topological order *)

Lemma precedes_app order more a b :
  precedes order a b → precedes (order ++ more) a b.
Proof.
  intros (i & j & Hlt & Hi & Hj). exists i, j.
  split_and!; [done|by apply lookup_app_l_Some..].
Qed.

Lemma precedes_snoc order a b : a ∈ order → precedes (order ++ [b]) a b.
Proof.
  intros (i & Hi)%list_elem_of_lookup_1. exists i, (length order).
  split_and!.
  - by apply lookup_lt_Some in Hi.
  - by apply lookup_app_l_Some.
  - rewrite lookup_app_r by done. by rewrite Nat.sub_diag.
Qed.

Lemma precedes_reverse order a b :
  precedes order a b → precedes (reverse order) b a.
Proof.
  intros (i & j & Hlt & Hi & Hj).
  pose proof (lookup_lt_Some _ _ _ Hi). pose proof (lookup_lt_Some _ _ _ Hj).
  exists (length order - S j), (length order - S i). split_and!; [lia|..].
  - rewrite reverse_lookup by lia. rewrite <- Hj. f_equal. lia.
  - rewrite reverse_lookup by lia. rewrite <- Hi. f_equal. lia.
Qed.

Lemma pushedUnlessPending_adds pending current st st' :
  pushedUnlessPending grapher pending st →
  postOrderAdds mem grapher current st st' →
  pushedUnlessPending grapher pending st'.
Proof.
  intros Hpushed (Hsub & _ & (added & Hinto & Hadded) & _) k graphNode Hk Hpending Hstored.
  rewrite Hinto. apply elem_of_app.
  destruct (decide (Some k ∈ st.2)) as [Hin|Hout]; [left; eauto|].
  right. apply Hadded. eauto 10.
Qed.

Lemma pushedUnlessPending_children pending succs st st' :
  pushedUnlessPending grapher pending st →
  childrenAdd mem grapher succs st st' →
  pushedUnlessPending grapher pending st'.
Proof.
  intros Hpushed (Hsub & _ & (added & Hinto & Hadded) & _) k graphNode Hk Hpending Hstored.
  rewrite Hinto. apply elem_of_app.
  destruct (decide (Some k ∈ st.2)) as [Hin|Hout]; [left; eauto|].
  right. apply Hadded. eauto 10.
Qed.

Lemma edgesOrdered_trans avoid pending st0 st1 st2 :
  (∃ added, st2.1 = st1.1 ++ added) →
  edgesOrdered mem grapher avoid pending st0 st1 →
  edgesOrdered mem grapher avoid pending st1 st2 →
  edgesOrdered mem grapher avoid pending st0 st2.
Proof.
  intros [added Hinto] H1 H2 k graphNode k' graphNode' Hk Hout Hstored Hstep Hstored'.
  destruct (decide (Some k ∈ st1.2)) as [Hin1|Hout1].
  - destruct (H1 k graphNode k' graphNode') as [?|[?|?]]; auto.
    right; right. rewrite Hinto. by apply precedes_app.
  - eapply H2; eauto.
Qed.

Lemma foldl_postOrder_edgesOrdered fuel succs : ∀ st0 st2 avoid pending,
  (∀ current st st' avoid pending,
     avoid ⊆ st.2 → pushedUnlessPending grapher pending st →
     postOrder mem grapher fuel current st = Done st' →
     edgesOrdered mem grapher avoid pending st st') →
  avoid ⊆ st0.2 → pushedUnlessPending grapher pending st0 →
  foldl (λ acc succ,
           st ← acc;
           postOrder mem grapher fuel (getGraphNodeFromEntry grapher (Some succ)) st)
        (Done st0) succs = Done st2 →
  edgesOrdered mem grapher avoid pending st0 st2.
Proof.
  induction succs as [|s succs IHs]; intros st0 st2 avoid pending IH Havoid Hpushed.
  - intros [= <-]. intros k graphNode k' graphNode' Hk Hout. done.
  - intros (st1 & Hfirst & Hrest)%foldl_bind_cons.
    pose proof (postOrder_adds _ _ _ _ Hfirst) as Hadds1.
    pose proof (foldl_postOrder_adds _ _ _ _ (postOrder_adds fuel) Hrest)
      as (_ & _ & (added & Hinto & _) & _).
    eapply (edgesOrdered_trans _ _ st0 st1 st2); [eauto|by eapply IH|].
    apply IHs; try done.
    + destruct Hadds1 as [Hsub _]. set_solver.
    + by eapply pushedUnlessPending_adds.
Qed.

Lemma postOrder_edgesOrdered fuel : ∀ current st st' avoid pending,
  avoid ⊆ st.2 → pushedUnlessPending grapher pending st →
  postOrder mem grapher fuel current st = Done st' →
  edgesOrdered mem grapher avoid pending st st'.
Proof.
  induction fuel as [|fuel IH]; intros current [into visited] st' avoid pending
    Havoid Hpushed Hrun; [done|].
  pose proof (postOrder_adds _ _ _ _ Hrun) as (_ & _ & _ & Hnew).
  simpl in Hrun, Havoid. destruct (decide (current ∈ visited)) as [Hin|Hout].
  { injection Hrun as <-. intros k graphNode k' graphNode' Hk Hout. done. }
  apply bind_Done in Hrun as (currentNode & Hcur & (st2 & Hbody & [= <-])%bind_Done).
  destruct current as [n|]; [|done]. simpl in Hcur.
  destruct (nodeStorage grapher !! n) as [currentNode'|] eqn:Hn; [|done].
  injection Hcur as ->. simpl in Hnew.
  assert (pushedUnlessPending grapher ({[Some n]} ∪ pending)
            (into, {[Some n]} ∪ visited)) as Hpushed1.
  { intros k graphNode Hk Hpending Hstored. simpl in *.
    apply (Hpushed k graphNode); simpl; [set_solver|set_solver|done]. }
  assert (edgesOrdered mem grapher avoid ({[Some n]} ∪ pending)
            (into, {[Some n]} ∪ visited) st2 ∧
          pushedUnlessPending grapher ({[Some n]} ∪ pending) st2) as [Hedges Hpushed2].
  { destruct (hasExit currentNode).
    - split.
      + eapply IH; [|done|exact Hbody]. simpl. set_solver.
      + eapply pushedUnlessPending_adds; [done|]. by eapply postOrder_adds.
    - split.
      + eapply foldl_postOrder_edgesOrdered; [done| |done|exact Hbody].
        simpl. set_solver.
      + eapply pushedUnlessPending_children; [done|].
        eapply foldl_postOrder_adds; [|exact Hbody]. apply postOrder_adds. }
  intros k graphNode k' graphNode' Hk Hout' Hstored Hstep Hstored'. simpl in *.
  destruct (Hnew _ Hk Hout') as (k0 & [= <-] & Hreach & Hclosed).
  destruct (decide (k = n)) as [->|Hne].
  - rewrite Hn in Hstored. injection Hstored as <-.
    destruct (decide (Some k' ∈ pending)) as [?|Hnotpending]; [by left|].
    destruct (decide (k' = n)) as [->|Hne'].
    + right; left. apply reach_here; [set_solver|eauto].
    + right; right. apply precedes_snoc.
      apply (Hpushed2 k' graphNode'); [by apply Hclosed|set_solver|done].
  - destruct (Hedges k graphNode k' graphNode') as [Hpending|[?|?]];
      simpl; try done; [set_solver| |by right; left|].
    + apply elem_of_union in Hpending as [Heq|?]; [|by left].
      apply elem_of_singleton in Heq as [= ->].
      right; left. eapply orderReach_mono; [|exact Hreach]. done.
    + right; right. by apply precedes_app.
Qed.

Lemma orderReach_snoc avoid from k k' :
  orderReach mem grapher avoid from k →
  orderStep mem grapher k (Some k') →
  Some k' ∉ avoid →
  is_Some (nodeStorage grapher !! k') →
  orderReach mem grapher avoid from k'.
Proof.
  intros Hreach Hstep Hout Hstored.
  induction Hreach as [n Hn _|n next target Hn Hstep' _ IH].
  - eapply reach_step; [done|done|]. by apply reach_here.
  - eapply reach_step; [done|done|]. by apply IH.
Qed.

Lemma orderReach_from avoid from target :
  orderReach mem grapher avoid from target →
  ∃ m, from = Some m ∧ (Some m ∉ avoid) ∧ is_Some (nodeStorage grapher !! m).
Proof.
  intros [n Hn Hstored|n next ? Hn Hstep _]; exists n; split_and!; try done.
  by eapply orderStep_stored.
Qed.

Lemma rank_along_walk (avoid : gset (option nat)) entry (rank : nat → nat) a b :
  (∀ k k', orderReach mem grapher avoid entry k →
           orderStep mem grapher k (Some k') → Some k' ∉ avoid →
           rank k < rank k') →
  orderReach mem grapher avoid entry a →
  orderReach mem grapher avoid (Some a) b →
  rank a ≤ rank b.
Proof.
  intros Hrank Ha Hwalk. remember (Some a) as from eqn:Hfrom.
  revert a Ha Hfrom.
  induction Hwalk as [n Hn _|n next target Hn Hstep Hrest IH]; intros a Ha [= ->];
    [done|].
  destruct (orderReach_from _ _ _ Hrest) as (a' & -> & Hout & Hstored).
  specialize (Hrank a a' Ha Hstep Hout).
  specialize (IH a' (orderReach_snoc _ _ _ _ Ha Hstep Hout Hstored) eq_refl). lia.
Qed.

Lemma rankIncreasing_spec exit rank k k' :
  rankIncreasing mem grapher exit rank = true →
  orderStep mem grapher k (Some k') →
  Some k' ≠ exit →
  rank k < rank k'.
Proof.
  unfold rankIncreasing. rewrite forallb_forall. intros Hall Hstep Hne.
  assert (∃ graphNode, nodeStorage grapher !! k = Some graphNode ∧
                       Some k' ∈ orderSuccessors mem grapher graphNode)
    as (graphNode & Hk & Hin).
  { unfold orderSuccessors.
    inversion Hstep as [current Hc Hx Heq|current succ Hc Hx Hs Heq]; subst;
      exists current; rewrite Hx; (split; [done|]).
    - rewrite Heq. left.
    - rewrite Heq. apply list_elem_of_fmap. eauto. }
  specialize (Hall k). rewrite Hk in Hall. rewrite forallb_forall in Hall.
  assert (bool_decide (Some k' = exit) || (rank k <? rank k') = true) as Hcheck.
  { apply (λ H, Hall H (Some k')); [|by apply list_elem_of_In].
    apply list_elem_of_In, elem_of_seq. apply lookup_lt_Some in Hk. lia. }
  rewrite bool_decide_eq_false_2 in Hcheck by done. by apply Nat.ltb_lt in Hcheck.
Qed.

(** X17. On a region without cycles, given by a rank that increases
    along every edge between its nodes, [reversePostOrder] returns a
    topological order: the statement of a node of the region comes
    before the statement of any node of the region it has an edge
    to. *)
Theorem reversePostOrder_topological entry exit order (rank : nat → nat) :
  (∀ k k', orderReach mem grapher {[exit]} entry k →
           orderStep mem grapher k (Some k') → Some k' ≠ exit →
           rank k < rank k') →
  reversePostOrder mem grapher entry exit = Done order →
  ∀ k graphNode k' graphNode',
    orderReach mem grapher {[exit]} entry k →
    nodeStorage grapher !! k = Some graphNode →
    orderStep mem grapher k (Some k') →
    Some k' ≠ exit →
    nodeStorage grapher !! k' = Some graphNode' →
    precedes order (node graphNode) (node graphNode').
Proof.
  intros Hrank (st & Hrun & [= <-])%bind_Done k graphNode k' graphNode'
    Hreach Hstored Hstep Hne Hstored'.
  pose proof (postOrder_adds _ _ _ _ Hrun) as (_ & Hentry & _ & Hnew).
  assert (edgesOrdered mem grapher {[exit]} {[exit]} ([], {[exit]}) st) as Hedges.
  { eapply postOrder_edgesOrdered; [done| |exact Hrun].
    intros ? ? ? ?. simpl in *. done. }
  simpl in *.
  assert (Some k ∈ st.2) as Hk.
  { eapply orderReach_visited; [|exact Hentry|exact Hreach].
    intros x Hx Hout. destruct (Hnew x Hx Hout) as (k0 & -> & _ & Hclosed). eauto. }
  destruct (Hedges k graphNode k' graphNode') as [Hexit|[Hcycle|Hbefore]];
    simpl; try done.
  - by eapply orderReach_target.
  - set_solver.
  - exfalso.
    assert (rank k' ≤ rank k).
    { eapply (rank_along_walk {[exit]} entry); [|exact (orderReach_snoc _ _ _ _ Hreach Hstep ltac:(set_solver) (mk_is_Some _ _ Hstored'))|exact Hcycle].
      intros a a' Ha Hs Hout. apply Hrank; [done..|]. set_solver. }
    assert (rank k < rank k') by (apply Hrank; done). lia.
  - by apply precedes_reverse.
Qed.
End PostOrderProofs.

(** ** Blocks and their graph nodes *)

Section RegisteredBlocks.
Variable mem : IRMemory.
Variable getAnalysis : Function → Analyses.




End RegisteredBlocks.

(** ** The further properties on concrete inputs *)

Lemma simplifySumOfProducts_sums_witness :
  ∃ productOfSums,
    simplifySumOfProducts Inputs.aOrNotA = Done productOfSums ∧
    Forall (λ sum, is_Some (collapse sum ShortCircuitOr) ∧
                   ∀ t, t ∈ sum → t ∈ concat Inputs.aOrNotA) productOfSums.
Proof.
  eexists. split; [vm_compute; reflexivity|].
  apply (simplifySumOfProducts_sums Inputs.aOrNotA). vm_compute. reflexivity.
Defined.

Lemma simplifySumOfProducts_pairFree_witness :
  ∃ productOfSums,
    simplifySumOfProducts Inputs.aOrNotA = Done productOfSums ∧
    Forall (λ sum, pairFree sum = true) productOfSums.
Proof.
  eexists. split; [vm_compute; reflexivity|].
  apply (simplifySumOfProducts_pairFree Inputs.aOrNotA).
  - reflexivity.
  - vm_compute. reflexivity.
Defined.

Lemma simplifySumOfProducts_equivalent_witness :
  ∃ productOfSums,
    simplifySumOfProducts Inputs.aOrNotA = Done productOfSums ∧
    ∀ ρ, evalProductOfSums ρ productOfSums = evalSumOfProducts ρ Inputs.aOrNotA.
Proof.
  apply simplifySumOfProducts_equivalent.
  - reflexivity.
  - discriminate.
  - reflexivity.
  - left. simpl. lia.
Defined.

Lemma simplifySumOfProducts_crash_witness :
  (simplifySumOfProducts Examples.sameTermTwice = Crashed ↔
   ∃ first second others,
     Examples.sameTermTwice = first :: second :: others ∧
     Forall (λ product, map pointee product ≡ₚ map pointee first) (second :: others)) ∧
  (simplifySumOfProducts Examples.sameTermTwice ≠ Crashed →
   ∃ productOfSums, simplifySumOfProducts Examples.sameTermTwice = Done productOfSums).
Proof. apply simplifySumOfProducts_crash. reflexivity. Defined.

Lemma buildSumsOfProducts_literals_witness :
  Examples.orChainCondition ≠ [] ∧ literalTerms Examples.orChainCondition = true.
Proof.
  apply (buildSumsOfProducts_literals Examples.orChain (grapher Examples.orChainLeaves)
           (getGraphNodeFromEntry (grapher Examples.orChainLeaves) (Some 1%positive))
           (getGraphNodeFromEntry (grapher Examples.orChainLeaves) (Some 6%positive))
           (pool Examples.orChainLeaves) Examples.orChainReach
           (ltac:(vm_compute; reflexivity)) 2%positive).
  vm_compute. reflexivity.
Defined.

Lemma recursivelySimplifyStatement_execute_witness :
  ∃ s', recursivelySimplifyStatement Inputs.nestedTests = Some s' ∧
        isLoopFree s' = true ∧
        ∀ ρ, execute ρ s' = execute ρ Inputs.nestedTests.
Proof. apply recursivelySimplifyStatement_execute. reflexivity. Defined.

Lemma recursivelySimplifyStatement_simplifiedShape_witness :
  ∃ s', recursivelySimplifyStatement Inputs.nestedTests = Some s' ∧
        simplifiedShape s' = true.
Proof.
  eexists. split; [vm_compute; reflexivity|].
  apply (recursivelySimplifyStatement_simplifiedShape Inputs.nestedTests).
  vm_compute. reflexivity.
Defined.


Lemma runOnModule_astPerFunction_witness :
  astPerFunction Examples.afterDiamond = ∅.
Proof.
  apply (runOnModule_astPerFunction Examples.diamond (λ _, Examples.diamondInfo)
           [Examples.diamondFunction] Examples.freshBackEnd Examples.afterDiamond).
  vm_compute. reflexivity.
Defined.


Lemma reversePostOrder_conditions_witness :
  ∃ order,
    reversePostOrder Examples.orChain (grapher Examples.orChainLeaves)
      (getGraphNodeFromEntry (grapher Examples.orChainLeaves) (Some 1%positive))
      (getGraphNodeFromEntry (grapher Examples.orChainLeaves) (Some 6%positive)) =
      Done order ∧
    Forall (λ statement,
              ∃ path, conditions Examples.orChainReach !! statement = Some path ∧
                      path ≠ [])
           order.
Proof.
  eexists. split; [vm_compute; reflexivity|].
  apply (reversePostOrder_conditions Examples.orChain (grapher Examples.orChainLeaves)
           (getGraphNodeFromEntry (grapher Examples.orChainLeaves) (Some 1%positive))
           (getGraphNodeFromEntry (grapher Examples.orChainLeaves) (Some 6%positive))
           (pool Examples.orChainLeaves)).
  - vm_compute. reflexivity.
  - vm_compute. reflexivity.
  - vm_compute. reflexivity.
Defined.

Lemma reversePostOrder_topological_witness :
  ∃ order,
    reversePostOrder Examples.diamond (grapher Examples.diamondLeaves)
      (Some 3) (Some 0) = Done order ∧
    precedes order 4%positive 2%positive.
Proof.
  eexists. split; [vm_compute; reflexivity|].
  apply (reversePostOrder_topological Examples.diamond (grapher Examples.diamondLeaves)
           (Some 3) (Some 0) _ Inputs.diamondRank
           ltac:(intros k k' _ Hstep Hne;
                 apply (rankIncreasing_spec Examples.diamond
                          (grapher Examples.diamondLeaves) (Some 0) Inputs.diamondRank
                          k k' ltac:(vm_compute; reflexivity) Hstep Hne))
           ltac:(vm_compute; reflexivity)
           3 (mkAstGraphNode 4 1 (Some 1%positive))
           1 (mkAstGraphNode 2 2 (Some 2%positive))).
  - apply reach_here; [|by eexists].
    intros Hin. apply elem_of_singleton in Hin. discriminate.
  - reflexivity.
  - change (Some 1) with
      (getGraphNodeFromEntry (grapher Examples.diamondLeaves) (Some 2%positive)).
    apply (order_successor Examples.diamond (grapher Examples.diamondLeaves) 3
             (mkAstGraphNode 4 1 (Some 1%positive)) 2%positive);
      [reflexivity|reflexivity|].
    replace (successors _ _) with [2; 3]%positive by (vm_compute; reflexivity).
    left.
  - discriminate.
  - reflexivity.
Defined.

(** ** Inserting a node under its conditions *)

Lemma executeSteps_cons ρ first rest :
  executeSteps ρ (SequenceNode (first :: rest)) =
  let '(trace, broke) := executeSteps ρ first in
  if broke then (trace, true)
  else let '(trace', broke') := executeSteps ρ (SequenceNode rest) in
       (trace ++ trace', broke').
Proof. done. Qed.

Lemma executeSteps_app ρ l1 l2 :
  executeSteps ρ (SequenceNode (l1 ++ l2)) =
  let '(trace, broke) := executeSteps ρ (SequenceNode l1) in
  if broke then (trace, true)
  else let '(trace', broke') := executeSteps ρ (SequenceNode l2) in
       (trace ++ trace', broke').
Proof.
  induction l1 as [|x l1 IH].
  - simpl. by destruct (_ l2).
  - rewrite <- app_comm_cons, !executeSteps_cons, IH.
    destruct (executeSteps ρ x) as [t [|]]; [done|].
    destruct (executeSteps ρ (SequenceNode l1)) as [t1 [|]]; [done|].
    destruct (executeSteps ρ (SequenceNode l2)) as [t2 b2]. by rewrite app_assoc.
Qed.

Lemma executeSteps_singleton ρ only :
  executeSteps ρ (SequenceNode [only]) = executeSteps ρ only.
Proof.
  rewrite executeSteps_cons. destruct (executeSteps ρ only) as [t [|]]; [done|].
  simpl. by rewrite app_nil_r.
Qed.

Lemma executeSteps_snoc ρ body s :
  executeSteps ρ (SequenceNode (body ++ [s])) =
  let '(trace, broke) := executeSteps ρ (SequenceNode body) in
  if broke then (trace, true)
  else let '(trace', broke') := executeSteps ρ s in (trace ++ trace', broke').
Proof. by rewrite executeSteps_app, executeSteps_singleton. Qed.

Lemma stripOneNegation_eval ρ e :
  evalExpression ρ e =
  xorb (stripOneNegation e).1 (evalExpression ρ (stripOneNegation e).2).
Proof. by destruct e as [|[|] ?|[| |] ? ?]. Qed.

Lemma last_snoc_inv {A : Type} (l : list A) x :
  last l = Some x → ∃ init, l = init ++ [x] ∧ removelast l = init.
Proof.
  intros [init ->]%last_Some. exists init. by rewrite removelast_last.
Qed.

Lemma executeSteps_IfElseNode ρ condition ifBody elseBody :
  executeSteps ρ (IfElseNode condition ifBody elseBody) =
  if evalExpression ρ condition then executeSteps ρ ifBody
  else match elseBody with
       | Some e => executeSteps ρ e
       | None => ([], false)
       end.
Proof. done. Qed.

Section InsertNodeProofs.
#[local] Arguments executeSteps : simpl never.

(** X19. When the walk of the merging loop of [structurizeRegion] is
    clean (no empty sum, no branch to merge into that is not a
    sequence, no new [if] made for a negated sum next to an [if] on
    another condition), inserting a node is the same, under every truth
    assignment, as appending it to the body under the nested tests of
    its sums: merging into the [if] body or the [else] body of the last
    statement changes nothing of what the body runs. A loop, of the
    body or the node itself, is one step of the run: the merging loop
    never opens one. *)
Theorem insertNode_execute productOfSums : ∀ nodeStatement body,
  insertsCleanly productOfSums body = true →
  ∃ result guarded,
    insertNode productOfSums nodeStatement body = Done result ∧
    guardedNode productOfSums nodeStatement = Some guarded ∧
    ∀ ρ, executeSteps ρ (SequenceNode result) =
         executeSteps ρ (SequenceNode (body ++ [guarded])).
Proof.
  induction productOfSums as [|sum rest IH]; intros nodeStatement body Hclean.
  { by eexists _, _. }
  cbn [insertsCleanly] in Hclean. cbn [insertNode guardedNode].
  destruct (collapse sum ShortCircuitOr) as [condition|]; [|done]. simpl.
  assert (∀ c,
    (∀ ρ, evalExpression ρ c = evalExpression ρ condition) →
    insertsCleanly rest [] = true →
    ∃ result guarded,
      (ifBody ← insertNode rest nodeStatement [];
       Done (body ++ [IfElseNode c (SequenceNode ifBody) None])) = Done result ∧
      match guardedNode rest nodeStatement with
      | Some inner => Some (IfElseNode condition (SequenceNode [inner]) None)
      | None => None
      end = Some guarded ∧
      ∀ ρ, executeSteps ρ (SequenceNode result) =
           executeSteps ρ (SequenceNode (body ++ [guarded]))) as Hcreate.
  { intros c Hc Hrest.
    destruct (IH nodeStatement [] Hrest) as (ifBody & inner & -> & -> & Hexec).
    eexists _, _. split; [done|]. split; [done|].
    intros ρ. rewrite !executeSteps_snoc.
    destruct (executeSteps ρ (SequenceNode body)) as [trace [|]]; [done|].
    rewrite !executeSteps_IfElseNode, Hc.
    destruct (evalExpression ρ condition); [|done].
    specialize (Hexec ρ). rewrite app_nil_l in Hexec. by rewrite Hexec. }
  destruct (last body) as [lastStatement|] eqn:Hlast; [|by apply Hcreate].
  destruct lastStatement as [?|?|thisCondition ifBody elseBody|? ? ?|];
    try by apply Hcreate.
  pose proof (λ ρ, stripOneNegation_eval ρ condition) as Hsum.
  pose proof (λ ρ, stripOneNegation_eval ρ thisCondition) as Hthis.
  destruct (stripOneNegation condition) as [isSumNegated stripped].
  destruct (stripOneNegation thisCondition) as [isCurrentNegated strippedThis].
  cbn [fst snd] in Hsum, Hthis.
  destruct (isReferenceEqual strippedThis stripped) eqn:Hequal.
  2:{ apply andb_true_iff in Hclean as [Hpositive Hrest].
      apply negb_true_iff in Hpositive. subst isSumNegated.
      apply Hcreate; [|done]. intros ρ. by rewrite Hsum. }
  apply isReferenceEqual_eq in Hequal. subst strippedThis.
  apply last_snoc_inv in Hlast as (init & -> & ->).
  destruct (bool_decide (isSumNegated = isCurrentNegated)) eqn:Hpolarity.
  - apply bool_decide_eq_true in Hpolarity. subst isCurrentNegated.
    destruct ifBody as [?|statements|? ? ?|? ? ?|]; try done.
    destruct (IH nodeStatement statements Hclean) as (statements' & inner & -> & -> & Hexec).
    eexists _, _. split; [done|]. split; [done|].
    intros ρ. rewrite !executeSteps_snoc.
    destruct (executeSteps ρ (SequenceNode init)) as [trace [|]]; [done|].
    specialize (Hexec ρ). rewrite executeSteps_snoc in Hexec.
    rewrite !executeSteps_IfElseNode, Hthis, Hsum, executeSteps_singleton.
    destruct (xorb isSumNegated (evalExpression ρ stripped)).
    + rewrite Hexec. clear Hexec.
      destruct (executeSteps ρ (SequenceNode statements)) as [t1 [|]]; [done|].
      destruct (executeSteps ρ inner) as [t2 [|]]; by rewrite ?app_assoc.
    + destruct elseBody as [e|]; [|by rewrite !app_nil_r].
      destruct (executeSteps ρ e) as [t1 [|]]; [done|]. by rewrite !app_nil_r.
  - apply bool_decide_eq_false in Hpolarity.
    assert (isCurrentNegated = negb isSumNegated) as ->.
    { by destruct isSumNegated, isCurrentNegated. }
    assert (∀ statements,
      insertsCleanly rest statements = true →
      (∀ ρ, executeSteps ρ (SequenceNode statements) =
            match elseBody with
            | Some e => executeSteps ρ e
            | None => ([], false)
            end) →
      ∃ result guarded,
        (statements ← insertNode rest nodeStatement statements;
         Done (init ++ [IfElseNode thisCondition ifBody
                          (Some (SequenceNode statements))])) = Done result ∧
        match guardedNode rest nodeStatement with
        | Some inner => Some (IfElseNode condition (SequenceNode [inner]) None)
        | None => None
        end = Some guarded ∧
        ∀ ρ, executeSteps ρ (SequenceNode result) =
             executeSteps ρ (SequenceNode
                          ((init ++ [IfElseNode thisCondition ifBody elseBody]) ++
                           [guarded]))) as Helse.
    { intros statements Hrest Hsame.
      destruct (IH nodeStatement statements Hrest) as (statements' & inner & -> & -> & Hexec).
      eexists _, _. split; [done|]. split; [done|].
      intros ρ. rewrite !executeSteps_snoc.
      destruct (executeSteps ρ (SequenceNode init)) as [trace [|]]; [done|].
      specialize (Hexec ρ). rewrite executeSteps_snoc in Hexec. rewrite Hsame in Hexec.
      rewrite !executeSteps_IfElseNode, Hthis, Hsum, executeSteps_singleton.
      destruct isSumNegated, (evalExpression ρ stripped); simpl.
      - destruct (executeSteps ρ ifBody) as [t1 [|]]; [done|]. by rewrite !app_nil_r.
      - rewrite Hexec. clear Hexec.
        destruct (match elseBody with Some e => executeSteps ρ e | None => _ end)
          as [t1 [|]]; [done|].
        destruct (executeSteps ρ inner) as [t2 [|]]; by rewrite ?app_assoc.
      - rewrite Hexec. clear Hexec.
        destruct (match elseBody with Some e => executeSteps ρ e | None => _ end)
          as [t1 [|]]; [done|].
        destruct (executeSteps ρ inner) as [t2 [|]]; by rewrite ?app_assoc.
      - destruct (executeSteps ρ ifBody) as [t1 [|]]; [done|]. by rewrite !app_nil_r. }
    destruct elseBody as [[?|statements|? ? ?|? ? ?|]|]; try done.
    + by apply Helse.
    + by apply Helse.
Qed.
End InsertNodeProofs.

Lemma insertNode_execute_witness :
  ∃ result guarded,
    insertNode Inputs.otherwiseAndThen Inputs.endlessLoop Inputs.testedBody =
      Done result ∧
    guardedNode Inputs.otherwiseAndThen Inputs.endlessLoop = Some guarded ∧
    ∀ ρ, executeSteps ρ (SequenceNode result) =
         executeSteps ρ (SequenceNode (Inputs.testedBody ++ [guarded])).
Proof. apply insertNode_execute. reflexivity. Defined.
